(** * SkillBridge: the application / review lifecycle

    A shallow embedding of the request handlers under [src/app/api] that
    manage service posts, applications and reviews, of the Mongoose models
    they use ([src/models]) and of [src/lib/notifications.ts]; further of
    the notification routes, of [getSession] of [src/lib/auth.ts] and of
    [src/middleware.ts].

    Conventions of the embedding.
    - A MongoDB collection is a finite map from [_id] to document.
    - An [ObjectId] is a natural number; the driver's id generator is a
      counter kept next to the collections.  Ids carried by a request are
      assumed to be well-formed ObjectIds.
    - A handler is a computation in a state-and-exception monad over the
      database: a thrown error keeps the writes made before it, as the
      source has no transactions.
    - JavaScript numbers are exact rationals kept in lowest terms; strings
      are sequences of one-byte characters, so [length] is the character
      count and [trim] strips the ASCII white space.
    - Fields that no lifecycle rule reads (required skills, location,
      milestones, e-mail, password, time stamps) are left out: the bodies
      of the post requests are those that leave the optional
      [requiredSkills], [location] and [milestones] out, for which the
      route passes an empty list, an empty object and an empty list to the
      model.
    - Whether the process has loaded the module of a model that a route
      populates without importing it, and whether the notification store
      accepts a write, is an input of the request.  Apart from that the
      database is taken to answer: a query throws only what Mongoose's
      validators, its model registry and the unique indexes make it throw,
      and a request body is the parsed JSON object. *)

From Stdlib Require Import ZArith QArith Qround Qabs Ascii String.
From stdpp Require Import base option gmap strings list fin_maps pretty.
From Stdlib Require Import Lqa.

Local Open Scope string_scope.

Abbreviation ObjectId := nat (only parsing).

(** ** Documents *)

Inductive PostStatus := OPEN | CLOSED.
Inductive ApplicationStatus := PENDING | ACCEPTED | REJECTED.
Inductive Role := SEEKER | PROVIDER.
Inductive NotificationType :=
  NEW_APPLICATION | STATUS_CHANGED | NEW_REVIEW | NEW_POST_MATCH.

#[global] Instance PostStatus_eq_dec : EqDecision PostStatus.
Proof. solve_decision. Defined.
#[global] Instance ApplicationStatus_eq_dec : EqDecision ApplicationStatus.
Proof. solve_decision. Defined.
#[global] Instance Role_eq_dec : EqDecision Role.
Proof. solve_decision. Defined.

(** [IServicePost] of models/ServicePost.ts. *)
Module IServicePost.
Record t := mk {
  userId : ObjectId;
  title : string;
  description : string;
  category : string;
  budget : Q;
  status : PostStatus
}.
End IServicePost.

(** [IApplication] of models/Application.ts. *)
Module IApplication.
Record t := mk {
  postId : ObjectId;
  providerId : ObjectId;
  message : string;
  status : ApplicationStatus
}.
End IApplication.

(** [IReview] of models/Review.ts. *)
Module IReview.
Record t := mk {
  seekerId : ObjectId;
  providerId : ObjectId;
  applicationId : ObjectId;
  rating : Z;
  comment : option string
}.
End IReview.

(** [IUser] of models/User.ts, with the denormalised rating fields. *)
Module IUser.
Record t := mk {
  name : string;
  role : Role;
  averageRating : Q;
  reviewCount : Z
}.
End IUser.

(** [INotification] of models/Notification.ts. *)
Module INotification.
Record t := mk {
  userId : ObjectId;
  type : NotificationType;
  title : string;
  message : string;
  link : option string;
  read : bool
}.
End INotification.

(** ** The database and the handler monad *)

Record World := mkWorld {
  posts : gmap ObjectId IServicePost.t;
  applications : gmap ObjectId IApplication.t;
  reviews : gmap ObjectId IReview.t;
  users : gmap ObjectId IUser.t;
  notifications : gmap ObjectId INotification.t;
  nextObjectId : ObjectId;
  console : list string
}.

(** A thrown JavaScript error.  The handlers only look at its [code]; the
    [reason] is the schema's message where it gives one and the name of the
    failing path otherwise. *)
Record JsError := mkError { code : option Z; reason : string }.

(** The duplicate-key error MongoDB raises when a unique index is violated. *)
Definition E11000 : JsError :=
  {| code := Some 11000%Z; reason := "E11000 duplicate key error" |}.

Definition ValidationError (msg : string) : JsError :=
  {| code := None; reason := msg |}.

Definition M (A : Type) : Type := World → World * (JsError + A).

Definition ret {A} (a : A) : M A := λ w, (w, inr a).

Definition bind {A B} (c : M A) (k : A → M B) : M B :=
  λ w, match c w with
       | (w', inr a) => k a w'
       | (w', inl e) => (w', inl e)
       end.

Definition throw {A} (e : JsError) : M A := λ w, (w, inl e).

Definition try_catch {A} (c : M A) (h : JsError → M A) : M A :=
  λ w, match c w with
       | (w', inr a) => (w', inr a)
       | (w', inl e) => h e w'
       end.

Definition get : M World := λ w, (w, inr w).
Definition modify (f : World → World) : M unit := λ w, (f w, inr tt).

Notation "x <~ c1 ;; c2" := (bind c1 (λ x, c2))
  (at level 100, c1 at next level, right associativity, only parsing).
Notation "c1 ;;; c2" := (bind c1 (λ _, c2))
  (at level 100, right associativity, only parsing).

Definition console_error (line : string) : M unit :=
  modify (λ w, mkWorld (posts w) (applications w) (reviews w) (users w)
                       (notifications w) (nextObjectId w) (console w ++ [line])).

(** The id the driver gives to the next created document. *)
Definition newObjectId : M ObjectId :=
  λ w, (mkWorld (posts w) (applications w) (reviews w) (users w)
                (notifications w) (S (nextObjectId w)) (console w),
        inr (nextObjectId w)).

Definition set_posts
    (f : gmap ObjectId IServicePost.t → gmap ObjectId IServicePost.t) : M unit :=
  modify (λ w, mkWorld (f (posts w)) (applications w) (reviews w) (users w)
                       (notifications w) (nextObjectId w) (console w)).
Definition set_applications
    (f : gmap ObjectId IApplication.t → gmap ObjectId IApplication.t) : M unit :=
  modify (λ w, mkWorld (posts w) (f (applications w)) (reviews w) (users w)
                       (notifications w) (nextObjectId w) (console w)).
Definition set_reviews
    (f : gmap ObjectId IReview.t → gmap ObjectId IReview.t) : M unit :=
  modify (λ w, mkWorld (posts w) (applications w) (f (reviews w)) (users w)
                       (notifications w) (nextObjectId w) (console w)).
Definition set_users
    (f : gmap ObjectId IUser.t → gmap ObjectId IUser.t) : M unit :=
  modify (λ w, mkWorld (posts w) (applications w) (reviews w) (f (users w))
                       (notifications w) (nextObjectId w) (console w)).
Definition set_notifications
    (f : gmap ObjectId INotification.t → gmap ObjectId INotification.t) : M unit :=
  modify (λ w, mkWorld (posts w) (applications w) (reviews w) (users w)
                       (f (notifications w)) (nextObjectId w) (console w)).

(** ** Strings *)

(** The characters [String.prototype.trim] strips, among the one-byte ones:
    the space, the controls from tab to carriage return (codes 9 to 13) and
    the no-break space U+00A0 (code 160). *)
Definition is_white_space (c : ascii) : bool :=
  let n := nat_of_ascii c in
  (n =? 32)%nat || ((9 <=? n)%nat && (n <=? 13)%nat) || (n =? 160)%nat.

Fixpoint trim_start (s : string) : string :=
  match s with
  | String c s' => if is_white_space c then trim_start s' else s
  | EmptyString => EmptyString
  end.

(** [trim_end s] drops the white space that ends [s]. *)
Fixpoint trim_end (s : string) : string :=
  match s with
  | String c s' =>
      match trim_end s' with
      | EmptyString =>
          if is_white_space c then EmptyString else String c EmptyString
      | rest => String c rest
      end
  | EmptyString => EmptyString
  end.

Definition trim (s : string) : string := trim_end (trim_start s).

Definition len (s : string) : Z := Z.of_nat (String.length s).

(** The double-quote character of the notification messages. *)
Definition dquote : string := String (ascii_of_nat 34) EmptyString.

(** A finite map has a document that satisfies [P]: [Model.findOne]. *)
Definition find_one {A} (P : ObjectId * A → Prop) `{!∀ x, Decision (P x)}
    (m : gmap ObjectId A) : option (ObjectId * A) :=
  head (map_to_list (filter P m)).

(** ** The models: schema validation, unique indexes and queries *)

(** [CATEGORIES] of models/ServicePost.ts. *)
Definition CATEGORIES : list string :=
  [ "Web Development"; "Mobile Development"; "Design & Creative";
    "Writing & Content"; "Data & Analytics"; "Digital Marketing"; "Other" ].

(** The first validator that fails, if any. *)
Definition first_error (checks : list (option string)) : option string :=
  head (omap id checks).

Module ServicePost.

Definition findById (id : ObjectId) : M (option IServicePost.t) :=
  w <~ get ;; ret (posts w !! id).

(** The validators of [ServicePostSchema]; the first failure is reported. *)
Definition validate_title (s : string) : option string :=
  if decide (s = "") then Some "Title is required"
  else if (len s <? 5)%Z then Some "Title must be at least 5 characters"
  else if (100 <? len s)%Z then Some "Title cannot exceed 100 characters"
  else None.

Definition validate_description (s : string) : option string :=
  if decide (s = "") then Some "Description is required"
  else if (len s <? 20)%Z then Some "Description must be at least 20 characters"
  else if (2000 <? len s)%Z then Some "Description cannot exceed 2000 characters"
  else None.

Definition validate_category (s : string) : option string :=
  if decide (s ∈ CATEGORIES) then None else Some "Invalid category".

Definition validate_budget (b : Q) : option string :=
  if Qle_bool 0 b then None else Some "Budget must be a positive number".

(** [ServicePost.create]: setters ([trim]) run first, then the validators;
    [status] takes its default. *)
Definition create (userId : ObjectId) (title description category : string)
    (budget : Q) : M (ObjectId * IServicePost.t) :=
  let doc := IServicePost.mk userId (trim title) (trim description)
                             category budget OPEN in
  match first_error [ validate_title (IServicePost.title doc);
                      validate_description (IServicePost.description doc);
                      validate_category category;
                      validate_budget budget ] with
  | Some msg => throw (ValidationError msg)
  | None =>
      id <~ newObjectId ;;
      set_posts (insert id doc) ;;;
      ret (id, doc)
  end.

(** The [$set] part of an update: the fields that are present.  The updates
    of the embedding are those that leave the optional [requiredSkills],
    [location] and [milestones] of [UpdatePostSchema] out. *)
Record Update := mkUpdate {
  status : option PostStatus;
  title : option string;
  description : option string;
  category : option string;
  budget : option Q
}.

Definition apply_update (u : Update) (p : IServicePost.t) : IServicePost.t :=
  IServicePost.mk (IServicePost.userId p)
    (default (IServicePost.title p) (trim <$> title u))
    (default (IServicePost.description p) (trim <$> description u))
    (default (IServicePost.category p) (category u))
    (default (IServicePost.budget p) (budget u))
    (default (IServicePost.status p) (status u)).

(** [findByIdAndUpdate(id, update, { new: true })]: no validation. *)
Definition findByIdAndUpdate (id : ObjectId) (u : Update)
    : M (option IServicePost.t) :=
  set_posts (alter (apply_update u) id) ;;;
  findById id.

(** [findByIdAndUpdate(id, update, { new: true, runValidators: true })]:
    the validators of the updated paths run before the write. *)
Definition findByIdAndUpdate_runValidators (id : ObjectId) (u : Update)
    : M (option IServicePost.t) :=
  match first_error [ title u ≫= (λ s, validate_title (trim s));
                      description u ≫= (λ s, validate_description (trim s));
                      category u ≫= validate_category;
                      budget u ≫= validate_budget ] with
  | Some msg => throw (ValidationError msg)
  | None => findByIdAndUpdate id u
  end.

Definition findByIdAndDelete (id : ObjectId) : M unit :=
  set_posts (delete id).

End ServicePost.

Module Application.

Definition findById (id : ObjectId) : M (option IApplication.t) :=
  w <~ get ;; ret (applications w !! id).

(** The filter [{ postId, providerId }]. *)
Definition by_pair (postId providerId : ObjectId)
    (x : ObjectId * IApplication.t) : Prop :=
  IApplication.postId x.2 = postId ∧ IApplication.providerId x.2 = providerId.

#[global] Instance by_pair_dec postId providerId x :
  Decision (by_pair postId providerId x).
Proof. unfold by_pair. apply _. Defined.

Definition findOne (postId providerId : ObjectId)
    : M (option (ObjectId * IApplication.t)) :=
  w <~ get ;; ret (find_one (by_pair postId providerId) (applications w)).

(** The validators of the [message] path. *)
Definition validate_message (s : string) : option string :=
  if decide (s = "") then Some "Cover message is required"
  else if (len s <? 10)%Z then Some "Message must be at least 10 characters"
  else if (1000 <? len s)%Z then Some "Message cannot exceed 1000 characters"
  else None.

(** [Application.create]: the message is trimmed and validated, the status
    takes its default [PENDING], and the insert is refused with [E11000]
    when the unique index on (postId, providerId) already has the pair. *)
Definition create (postId providerId : ObjectId) (message : string)
    : M (ObjectId * IApplication.t) :=
  let doc := IApplication.mk postId providerId (trim message) PENDING in
  match validate_message (IApplication.message doc) with
  | Some msg => throw (ValidationError msg)
  | None =>
      w <~ get ;;
      match find_one (by_pair postId providerId) (applications w) with
      | Some _ => throw E11000
      | None =>
          id <~ newObjectId ;;
          set_applications (insert id doc) ;;;
          ret (id, doc)
      end
  end.

Definition set_status (s : ApplicationStatus) (a : IApplication.t)
    : IApplication.t :=
  IApplication.mk (IApplication.postId a) (IApplication.providerId a)
                  (IApplication.message a) s.

(** [findByIdAndUpdate(id, { status }, { new: true })]. *)
Definition findByIdAndUpdate (id : ObjectId) (s : ApplicationStatus)
    : M (option IApplication.t) :=
  set_applications (alter (set_status s) id) ;;;
  findById id.

Definition findByIdAndDelete (id : ObjectId) : M unit :=
  set_applications (delete id).

(** [deleteMany({ postId })]. *)
Definition deleteMany (postId : ObjectId) : M unit :=
  set_applications
    (filter (λ x : ObjectId * IApplication.t, IApplication.postId x.2 ≠ postId)).

End Application.

(** One group of the [$group] stage: [{ _id: null, avg, count }]. *)
Record RatingStats := mkStats { avg : Q; count : Z }.

Module Review.

Definition findById (id : ObjectId) : M (option IReview.t) :=
  w <~ get ;; ret (reviews w !! id).

(** The filter [{ applicationId }]. *)
Definition by_application (applicationId : ObjectId)
    (x : ObjectId * IReview.t) : Prop :=
  IReview.applicationId x.2 = applicationId.

#[global] Instance by_application_dec applicationId x :
  Decision (by_application applicationId x).
Proof. unfold by_application. apply _. Defined.

Definition findOne (applicationId : ObjectId)
    : M (option (ObjectId * IReview.t)) :=
  w <~ get ;; ret (find_one (by_application applicationId) (reviews w)).

Definition validate_rating (r : Z) : option string :=
  if (r <? 1)%Z then Some "rating"
  else if (5 <? r)%Z then Some "rating"
  else None.

Definition validate_comment (c : option string) : option string :=
  match c with
  | Some s => if (500 <? len s)%Z
              then Some "comment"
              else None
  | None => None
  end.

(** [Review.create]: the comment is trimmed, the validators run, and the
    insert is refused with [E11000] when the unique index on
    [applicationId] already has the application. *)
Definition create (seekerId providerId applicationId : ObjectId)
    (rating : Z) (comment : option string) : M (ObjectId * IReview.t) :=
  let doc := IReview.mk seekerId providerId applicationId rating
                        (trim <$> comment) in
  match first_error [ validate_rating rating;
                                  validate_comment (IReview.comment doc) ] with
  | Some msg => throw (ValidationError msg)
  | None =>
      w <~ get ;;
      match find_one (by_application applicationId) (reviews w) with
      | Some _ => throw E11000
      | None =>
          id <~ newObjectId ;;
          set_reviews (insert id doc) ;;;
          ret (id, doc)
      end
  end.

Definition findByIdAndDelete (id : ObjectId) : M unit :=
  set_reviews (delete id).

(** The ratings the [$match: { providerId }] stage lets through. *)
Definition ratings_of (providerId : ObjectId)
    (m : gmap ObjectId IReview.t) : list Z :=
  (λ x : ObjectId * IReview.t, IReview.rating x.2) <$>
    map_to_list (filter (λ x : ObjectId * IReview.t,
                           IReview.providerId x.2 = providerId) m).

Definition sum (l : list Z) : Z := foldr Z.add 0%Z l.

(** [aggregate([{ $match: { providerId } },
                { $group: { _id: null, avg: { $avg: '$rating' },
                            count: { $sum: 1 } } }])]:
    no group at all when nothing matches. *)
Definition aggregate (providerId : ObjectId) : M (list RatingStats) :=
  w <~ get ;;
  let rs := ratings_of providerId (reviews w) in
  ret (match rs with
       | [] => []
       | _ => [ mkStats (inject_Z (sum rs) / inject_Z (Z.of_nat (length rs)))
                        (Z.of_nat (length rs)) ]
       end).

End Review.

Module User.

Definition findById (id : ObjectId) : M (option IUser.t) :=
  w <~ get ;; ret (users w !! id).

Definition set_rating (averageRating : Q) (reviewCount : Z) (u : IUser.t)
    : IUser.t :=
  IUser.mk (IUser.name u) (IUser.role u) averageRating reviewCount.

(** [findByIdAndUpdate(id, { averageRating, reviewCount })]. *)
Definition findByIdAndUpdate (id : ObjectId) (averageRating : Q)
    (reviewCount : Z) : M unit :=
  set_users (alter (set_rating averageRating reviewCount) id).

End User.

Module Notification.

(** [Notification.create(data)].  Whether the write to the notification
    store throws is decided outside the handlers: [throws]. *)
Definition create (throws : bool) (data : INotification.t) : M unit :=
  if throws then throw (mkError None "notification store unavailable")
  else id <~ newObjectId ;; set_notifications (insert id data).

End Notification.

(** lib/notifications.ts: the failure of the write is logged and dropped. *)
Definition createNotification (throws : bool) (userId : ObjectId)
    (type : NotificationType) (title message : string) (link : option string)
    : M unit :=
  try_catch
    (Notification.create throws
       (INotification.mk userId type title message link false))
    (λ error, console_error "createNotification failed:").

(** [.populate(path, select)] on a query or a document.  Mongoose looks the
    model of the path up in the registry of the process and throws
    [MissingSchemaError] when the module that defines the model has not been
    loaded there: models/ServicePost.ts and models/Application.ts name
    [Skill] and [User] by [ref] only, and the routes that populate them do
    not import them.  Which modules the process has loaded is decided outside
    the handlers: [missing].  The populated fields themselves are not part
    of the response bodies of the embedding. *)
Definition populate (missing : bool) (model : string) : M unit :=
  if missing then throw (mkError None ("MissingSchemaError: " +:+ model))
  else ret tt.

(** [Math.round]: the nearest integer, a tie going up. *)
Definition Math_round (x : Q) : Z := Qfloor (x + (1 # 2)).

(** [Math.round(avg * 10) / 10]. *)
Definition round1 (x : Q) : Q := Qred (inject_Z (Math_round (x * 10)) / 10).

(** ** Requests and responses *)

(** lib/auth.ts: the payload of a verified token. *)
Module TokenPayload.
Record t := mk { userId : ObjectId; role : Role }.
End TokenPayload.

(** The first issue of a failed [safeParse]: either the message the schema
    gives, or one of zod's own. *)
Inductive ZodIssue :=
| Custom (message : string)
| TooBig (maximum : Z)
| TooSmall (minimum : Z)
| InvalidEnumValue.

(** The JSON bodies the handlers send. *)
Inductive Json :=
| JUnauthorized
| JError (error : string)
| JIssue (issue : ZodIssue)
| JMessage (message : string)
| JPost (post : option (ObjectId * IServicePost.t))
| JApplication (application : option (ObjectId * IApplication.t))
| JReview (review : ObjectId * IReview.t).

Module NextResponse.
Record t := mk { body : Json; status : nat }.
Definition json (body : Json) (status : nat) : t := mk body status.
End NextResponse.

Definition unauthorizedResponse : NextResponse.t :=
  NextResponse.json JUnauthorized 401.

Definition Handler : Type := World → World * NextResponse.t.

(** The outer [try { ... } catch (error) { ... }] of a route. *)
Definition try_handler (c : M NextResponse.t) (h : JsError → Handler)
    : Handler :=
  λ w, match c w with
       | (w', inr r) => (w', r)
       | (w', inl e) => h e w'
       end.

(** [console.error(label, error); return 500]. *)
Definition internal_server_error (label : string) : Handler :=
  λ w, ((console_error label w).1,
        NextResponse.json (JError "Internal Server Error") 500).

(** [CreatePostSchema] of app/api/posts/route.ts, for the bodies that carry
    the four required fields and leave the optional [requiredSkills],
    [location] and [milestones] out. *)
Module CreatePostSchema.
Record t := mk {
  title : string; description : string; category : string; budget : Q
}.
Definition safeParse (b : t) : ZodIssue + t :=
  if (len (title b) <? 5)%Z
  then inl (Custom "Title must be at least 5 characters")
  else if (100 <? len (title b))%Z then inl (TooBig 100)
  else if (len (description b) <? 20)%Z
       then inl (Custom "Description must be at least 20 characters")
  else if (2000 <? len (description b))%Z then inl (TooBig 2000)
  else if decide (category b ∈ CATEGORIES) then
    if Qle_bool 0 (budget b) then inr b
    else inl (Custom "Budget must be a positive number")
  else inl InvalidEnumValue.
End CreatePostSchema.

Module UpdatePostSchema.
Definition check_title (o : option string) : option ZodIssue :=
  s ← o; if (len s <? 5)%Z then Some (TooSmall 5)
         else if (100 <? len s)%Z then Some (TooBig 100) else None.
Definition check_description (o : option string) : option ZodIssue :=
  s ← o; if (len s <? 20)%Z then Some (TooSmall 20)
         else if (2000 <? len s)%Z then Some (TooBig 2000) else None.
Definition check_budget (o : option Q) : option ZodIssue :=
  b ← o; if Qle_bool 0 b then None else Some (TooSmall 0).
Definition safeParse (b : ServicePost.Update)
    : ZodIssue + ServicePost.Update :=
  match head (omap id [ check_title (ServicePost.title b);
                        check_description (ServicePost.description b);
                        check_budget (ServicePost.budget b) ]) with
  | Some issue => inl issue
  | None => inr b
  end.
End UpdatePostSchema.

Module CreateApplicationSchema.
Record t := mk { postId : ObjectId; message : string }.
Definition safeParse (b : t) : ZodIssue + t :=
  if (len (message b) <? 10)%Z
  then inl (Custom "Message must be at least 10 characters")
  else if (1000 <? len (message b))%Z then inl (TooBig 1000)
  else inr b.
End CreateApplicationSchema.

Module UpdateStatusSchema.
Record t := mk { status : ApplicationStatus }.
Definition safeParse (b : t) : ZodIssue + t :=
  match status b with
  | ACCEPTED | REJECTED => inr b
  | PENDING => inl InvalidEnumValue
  end.
End UpdateStatusSchema.

Module CreateReviewSchema.
Record t := mk {
  applicationId : ObjectId; rating : Z; comment : option string
}.
Definition safeParse (b : t) : ZodIssue + t :=
  if (rating b <? 1)%Z then inl (TooSmall 1)
  else if (5 <? rating b)%Z then inl (TooBig 5)
  else match comment b with
       | Some c => if (500 <? len c)%Z then inl (TooBig 500) else inr b
       | None => inr b
       end.
End CreateReviewSchema.

(** ** The routes *)

(** The post when [!post || post.userId.toString() !== session.userId] is
    false, nothing when it is true. *)
Definition owned_by (userId : ObjectId) (post : option IServicePost.t)
    : option IServicePost.t :=
  match post with
  | Some p => if decide (IServicePost.userId p ≠ userId) then None else Some p
  | None => None
  end.

(** [typeof error === 'object' && error !== null && 'code' in error &&
     error.code === 11000]. *)
Definition is_duplicate_key (error : JsError) : bool :=
  bool_decide (code error = Some 11000%Z).

(** app/api/posts/route.ts *)
Module posts_route.

Definition POST (missing : bool) (session : option TokenPayload.t)
    (body : CreatePostSchema.t) : Handler :=
  try_handler
    (match session with
     | None => ret unauthorizedResponse
     | Some session =>
       if decide (TokenPayload.role session ≠ SEEKER)
       then ret (NextResponse.json
                   (JError "Only Service Seekers can create posts") 403)
       else
       match CreatePostSchema.safeParse body with
       | inl issue => ret (NextResponse.json (JIssue issue) 400)
       | inr data =>
         post <~ ServicePost.create (TokenPayload.userId session)
                   (CreatePostSchema.title data)
                   (CreatePostSchema.description data)
                   (CreatePostSchema.category data)
                   (CreatePostSchema.budget data) ;;
         (* post.populate('requiredSkills', 'name category') *)
         populate missing "Skill" ;;;
         ret (NextResponse.json (JPost (Some post)) 201)
       end
     end)
    (λ error, internal_server_error "POST /api/posts error:").

End posts_route.

(** app/api/posts/[id]/route.ts *)
Module posts_id_route.

Definition PATCH (session : option TokenPayload.t) (id : ObjectId)
    (body : ServicePost.Update) : Handler :=
  try_handler
    (match session with
     | None => ret unauthorizedResponse
     | Some session =>
       if decide (TokenPayload.role session ≠ SEEKER)
       then ret (NextResponse.json (JError "Forbidden") 403)
       else
       post <~ ServicePost.findById id ;;
       match post with
       | None => ret (NextResponse.json (JError "Post not found") 404)
       | Some post =>
         if decide (IServicePost.userId post ≠ TokenPayload.userId session)
         then ret (NextResponse.json (JError "Forbidden: not your post") 403)
         else
         match UpdatePostSchema.safeParse body with
         | inl issue => ret (NextResponse.json (JIssue issue) 400)
         | inr data =>
           updated <~ ServicePost.findByIdAndUpdate_runValidators id data ;;
           ret (NextResponse.json (JPost (pair id <$> updated)) 200)
         end
       end
     end)
    (λ error, internal_server_error "PATCH /api/posts/[id] error:").

Definition DELETE (session : option TokenPayload.t) (id : ObjectId)
    : Handler :=
  try_handler
    (match session with
     | None => ret unauthorizedResponse
     | Some session =>
       if decide (TokenPayload.role session ≠ SEEKER)
       then ret (NextResponse.json (JError "Forbidden") 403)
       else
       post <~ ServicePost.findById id ;;
       match post with
       | None => ret (NextResponse.json (JError "Post not found") 404)
       | Some post =>
         if decide (IServicePost.userId post ≠ TokenPayload.userId session)
         then ret (NextResponse.json (JError "Forbidden: not your post") 403)
         else
         (* Cascade delete associated applications *)
         Application.deleteMany id ;;;
         ServicePost.findByIdAndDelete id ;;;
         ret (NextResponse.json (JMessage "Post deleted successfully") 200)
       end
     end)
    (λ error, internal_server_error "DELETE /api/posts/[id] error:").

End posts_id_route.

(** app/api/applications/route.ts *)
Module applications_route.

(** The part of [POST] that follows the precondition checks: the write,
    the notification and the 201 response. *)
Definition POST_write (throws : bool) (session : TokenPayload.t)
    (post : IServicePost.t) (postId : ObjectId) (message : string)
    : M NextResponse.t :=
  application <~ Application.create postId (TokenPayload.userId session)
                   message ;;
  (* Notify the seeker that someone applied to their post *)
  createNotification throws (IServicePost.userId post) NEW_APPLICATION
    "New Application Received"
    ("A provider applied to your post " +:+ dquote +:+
     IServicePost.title post +:+ dquote)
    (Some "/dashboard/seeker") ;;;
  ret (NextResponse.json (JApplication (Some application)) 201).

(** The [catch] block of [POST]. *)
Definition POST_catch (error : JsError) : Handler :=
  (* Handle MongoDB duplicate key error (race condition safety net) *)
  if is_duplicate_key error
  then λ w, (w, NextResponse.json
                   (JError "You have already applied to this post") 409)
  else internal_server_error "POST /api/applications error:".

(** The [try] block of [POST] up to the write: a response when a check
    fails; the session, the post that was read and the parsed body when
    all of them pass. *)
Definition POST_checks (session : option TokenPayload.t)
    (body : CreateApplicationSchema.t)
    : M (NextResponse.t
         + TokenPayload.t * IServicePost.t * CreateApplicationSchema.t) :=
  match session with
  | None => ret (inl unauthorizedResponse)
  | Some session =>
    if decide (TokenPayload.role session ≠ PROVIDER)
    then ret (inl (NextResponse.json
                     (JError "Only Service Providers can apply to posts") 403))
    else
    match CreateApplicationSchema.safeParse body with
    | inl issue => ret (inl (NextResponse.json (JIssue issue) 400))
    | inr data =>
      (* Check post exists and is open *)
      post <~ ServicePost.findById (CreateApplicationSchema.postId data) ;;
      match post with
      | None => ret (inl (NextResponse.json (JError "Post not found") 404))
      | Some post =>
        if decide (IServicePost.status post ≠ OPEN)
        then ret (inl (NextResponse.json
               (JError "This post is no longer accepting applications") 400))
        else
        (* Prevent self-application *)
        if decide (IServicePost.userId post = TokenPayload.userId session)
        then ret (inl (NextResponse.json
                         (JError "You cannot apply to your own post") 400))
        else
        (* Check for duplicate application *)
        existing <~ Application.findOne (CreateApplicationSchema.postId data)
                      (TokenPayload.userId session) ;;
        match existing with
        | Some _ => ret (inl (NextResponse.json
                      (JError "You have already applied to this post") 409))
        | None => ret (inr (session, post, data))
        end
      end
    end
  end.

Definition POST (throws : bool) (session : option TokenPayload.t)
    (body : CreateApplicationSchema.t) : Handler :=
  try_handler
    (checked <~ POST_checks session body ;;
     match checked with
     | inl response => ret response
     | inr (session, post, data) =>
         POST_write throws session post
           (CreateApplicationSchema.postId data)
           (CreateApplicationSchema.message data)
     end)
    POST_catch.

End applications_route.

(** app/api/applications/[id]/route.ts *)
Module applications_id_route.

Definition PATCH (missing throws : bool) (session : option TokenPayload.t)
    (id : ObjectId) (body : UpdateStatusSchema.t) : Handler :=
  try_handler
    (match session with
     | None => ret unauthorizedResponse
     | Some session =>
       if decide (TokenPayload.role session ≠ SEEKER)
       then ret (NextResponse.json (JError "Forbidden") 403)
       else
       application <~ Application.findById id ;;
       match application with
       | None => ret (NextResponse.json (JError "Application not found") 404)
       | Some application =>
         (* Verify the seeker owns the post *)
         post <~ ServicePost.findById (IApplication.postId application) ;;
         match owned_by (TokenPayload.userId session) post with
         | None => ret (NextResponse.json
                          (JError "Forbidden: you do not own this post") 403)
         | Some post =>
           match UpdateStatusSchema.safeParse body with
           | inl issue => ret (NextResponse.json (JIssue issue) 400)
           | inr data =>
             let status := UpdateStatusSchema.status data in
             updated <~ Application.findByIdAndUpdate id status ;;
             (* .populate('providerId', 'name email bio') *)
             populate missing "User" ;;;
             (* Auto-close the post if application is accepted *)
             (if decide (status = ACCEPTED)
              then ServicePost.findByIdAndUpdate
                     (IApplication.postId application)
                     (ServicePost.mkUpdate (Some CLOSED) None None None None) ;;;
                   ret tt
              else ret tt) ;;;
             (* Notify the provider of the decision *)
             createNotification throws (IApplication.providerId application)
               STATUS_CHANGED
               (if decide (status = ACCEPTED) then "Application Accepted!"
                else "Application Update")
               (if decide (status = ACCEPTED)
                then "Your application for " +:+ dquote +:+
                     IServicePost.title post +:+ dquote +:+
                     " has been accepted!"
                else "Your application for " +:+ dquote +:+
                     IServicePost.title post +:+ dquote +:+
                     " was not selected.")
               (Some "/dashboard/provider") ;;;
             ret (NextResponse.json (JApplication (pair id <$> updated)) 200)
           end
         end
       end
     end)
    (λ error, internal_server_error "PATCH /api/applications/[id] error:").

Definition DELETE (session : option TokenPayload.t) (id : ObjectId)
    : Handler :=
  try_handler
    (match session with
     | None => ret unauthorizedResponse
     | Some session =>
       if decide (TokenPayload.role session ≠ PROVIDER)
       then ret (NextResponse.json (JError "Forbidden") 403)
       else
       application <~ Application.findById id ;;
       match application with
       | None => ret (NextResponse.json (JError "Application not found") 404)
       | Some application =>
         if decide (IApplication.providerId application
                    ≠ TokenPayload.userId session)
         then ret (NextResponse.json
                     (JError "Forbidden: not your application") 403)
         else
         if decide (IApplication.status application ≠ PENDING)
         then ret (NextResponse.json
                     (JError "Only pending applications can be withdrawn") 400)
         else
         Application.findByIdAndDelete id ;;;
         ret (NextResponse.json
                (JMessage "Application withdrawn successfully") 200)
       end
     end)
    (λ error, internal_server_error "DELETE /api/applications/[id] error:").

End applications_id_route.

(** app/api/reviews/route.ts *)
Module reviews_route.

(** The part of [POST] that follows the precondition checks. *)
Definition POST_write (throws : bool) (session : TokenPayload.t)
    (application : IApplication.t) (data : CreateReviewSchema.t)
    : M NextResponse.t :=
  review <~ Review.create (TokenPayload.userId session)
              (IApplication.providerId application)
              (CreateReviewSchema.applicationId data)
              (CreateReviewSchema.rating data)
              (CreateReviewSchema.comment data) ;;
  (* Recalculate provider average rating *)
  stats <~ Review.aggregate (IApplication.providerId application) ;;
  match stats with
  | s :: _ =>
      User.findByIdAndUpdate (IApplication.providerId application)
        (round1 (avg s)) (count s)
  | [] => ret tt
  end ;;;
  (* Notify provider *)
  seeker <~ User.findById (TokenPayload.userId session) ;;
  createNotification throws (IApplication.providerId application) NEW_REVIEW
    "You received a new review"
    (default "A seeker" (IUser.name <$> seeker) +:+ " left you a " +:+
     pretty (CreateReviewSchema.rating data) +:+ "-star review.")
    (Some "/dashboard/provider") ;;;
  ret (NextResponse.json (JReview review) 201).

Definition POST_catch (error : JsError) : Handler :=
  if is_duplicate_key error
  then λ w, (w, NextResponse.json (JError "Review already submitted") 409)
  else internal_server_error "POST /api/reviews error:".

(** The [try] block of [POST] up to the write. *)
Definition POST_checks (session : option TokenPayload.t)
    (body : CreateReviewSchema.t)
    : M (NextResponse.t
         + TokenPayload.t * IApplication.t * CreateReviewSchema.t) :=
  match session with
  | None => ret (inl unauthorizedResponse)
  | Some session =>
    if decide (TokenPayload.role session ≠ SEEKER)
    then ret (inl (NextResponse.json
                     (JError "Only seekers can write reviews") 403))
    else
    match CreateReviewSchema.safeParse body with
    | inl issue => ret (inl (NextResponse.json (JIssue issue) 400))
    | inr data =>
      (* Verify application exists and is ACCEPTED *)
      application <~ Application.findById
                       (CreateReviewSchema.applicationId data) ;;
      match application with
      | None => ret (inl (NextResponse.json
                            (JError "Application not found") 404))
      | Some application =>
        if decide (IApplication.status application ≠ ACCEPTED)
        then ret (inl (NextResponse.json
                  (JError "Can only review accepted applications") 400))
        else
        (* Verify seeker owns the post *)
        post <~ ServicePost.findById (IApplication.postId application) ;;
        match owned_by (TokenPayload.userId session) post with
        | None => ret (inl (NextResponse.json (JError "Forbidden") 403))
        | Some _ =>
          (* Check duplicate *)
          existing <~ Review.findOne (CreateReviewSchema.applicationId data) ;;
          match existing with
          | Some _ => ret (inl (NextResponse.json
              (JError "Review already submitted for this application") 409))
          | None => ret (inr (session, application, data))
          end
        end
      end
    end
  end.

Definition POST (throws : bool) (session : option TokenPayload.t)
    (body : CreateReviewSchema.t) : Handler :=
  try_handler
    (checked <~ POST_checks session body ;;
     match checked with
     | inl response => ret response
     | inr (session, application, data) =>
         POST_write throws session application data
     end)
    POST_catch.

End reviews_route.

(** app/api/reviews/[id]/route.ts *)
Module reviews_id_route.

Definition DELETE (session : option TokenPayload.t) (id : ObjectId)
    : Handler :=
  try_handler
    (match session with
     | None => ret unauthorizedResponse
     | Some session =>
       review <~ Review.findById id ;;
       match review with
       | None => ret (NextResponse.json (JError "Review not found") 404)
       | Some review =>
         if decide (IReview.seekerId review ≠ TokenPayload.userId session)
         then ret (NextResponse.json (JError "Forbidden") 403)
         else
         let providerId := IReview.providerId review in
         Review.findByIdAndDelete id ;;;
         (* Recalculate provider rating *)
         stats <~ Review.aggregate providerId ;;
         User.findByIdAndUpdate providerId
           (match stats with s :: _ => round1 (avg s) | [] => 0 end)
           (match stats with s :: _ => count s | [] => 0%Z end) ;;;
         ret (NextResponse.json (JMessage "Review deleted") 200)
       end
     end)
    (λ error, internal_server_error "DELETE /api/reviews/[id] error:").

End reviews_id_route.

(** ** Requests as data, and the states the routes can reach *)

Inductive Request :=
| CreatePost (missing : bool) (session : option TokenPayload.t)
             (body : CreatePostSchema.t)
| UpdatePost (session : option TokenPayload.t) (id : ObjectId)
             (body : ServicePost.Update)
| DeletePost (session : option TokenPayload.t) (id : ObjectId)
| Apply (throws : bool) (session : option TokenPayload.t)
        (body : CreateApplicationSchema.t)
| UpdateStatus (missing throws : bool) (session : option TokenPayload.t)
               (id : ObjectId) (body : UpdateStatusSchema.t)
| Withdraw (session : option TokenPayload.t) (id : ObjectId)
| CreateReview (throws : bool) (session : option TokenPayload.t)
               (body : CreateReviewSchema.t)
| DeleteReview (session : option TokenPayload.t) (id : ObjectId).

Definition handle (r : Request) : Handler :=
  match r with
  | CreatePost m s b => posts_route.POST m s b
  | UpdatePost s id b => posts_id_route.PATCH s id b
  | DeletePost s id => posts_id_route.DELETE s id
  | Apply t s b => applications_route.POST t s b
  | UpdateStatus m t s id b => applications_id_route.PATCH m t s id b
  | Withdraw s id => applications_id_route.DELETE s id
  | CreateReview t s b => reviews_route.POST t s b
  | DeleteReview s id => reviews_id_route.DELETE s id
  end.

(** Serving a list of requests one after the other. *)
Definition serve (rs : list Request) (w : World) : World :=
  foldl (λ w r, (handle r w).1) w rs.

(** A database with registered users and nothing else. *)
Definition fresh_world (us : gmap ObjectId IUser.t) (next : ObjectId) : World :=
  mkWorld ∅ ∅ ∅ us ∅ next [].

(** What the routes outside the lifecycle do (registration, profile,
    notifications): they write users and notifications only, and what they
    store gets its id from the counter. *)
Definition elsewhere (w w' : World) : Prop :=
  posts w' = posts w ∧ applications w' = applications w
  ∧ reviews w' = reviews w
  ∧ (nextObjectId w <= nextObjectId w')%nat
  ∧ (∀ k, (nextObjectId w' <= k)%nat → notifications w' !! k = None).

Inductive reachable : World → Prop :=
| reachable_fresh us next : reachable (fresh_world us next)
| reachable_step w r : reachable w → reachable (handle r w).1
| reachable_elsewhere w w' : reachable w → elsewhere w w' → reachable w'.

(** ** Error kinds *)

Inductive ErrorKind :=
  Unauthenticated | Forbidden | NotFound | InvalidState | ValidationFailed
| Conflict.

(** The error kind a response stands for, read off the HTTP status the routes
    send: 401, 403, 404 and 409 are [Unauthenticated], [Forbidden],
    [NotFound] and [Conflict]; a 400 is [ValidationFailed] when it reports a
    schema issue and [InvalidState] otherwise.  Successful responses and the
    500 of the [catch] blocks have no kind. *)
Definition error_kind (r : NextResponse.t) : option ErrorKind :=
  match NextResponse.status r with
  | 401 => Some Unauthenticated
  | 403 => Some Forbidden
  | 404 => Some NotFound
  | 409 => Some Conflict
  | 400 => match NextResponse.body r with
           | JIssue _ => Some ValidationFailed
           | _ => Some InvalidState
           end
  | _ => None
  end.

(** ** The vocabulary of the properties *)

(** An application of provider [uid] to post [pid] is on file. *)
Definition has_applied (w : World) (pid uid : ObjectId) : Prop :=
  ∃ k a, applications w !! k = Some a
         ∧ IApplication.postId a = pid ∧ IApplication.providerId a = uid.

(** User [uid] owns post [pid]. *)
Definition owns (w : World) (uid pid : ObjectId) : Prop :=
  ∃ p, posts w !! pid = Some p ∧ IServicePost.userId p = uid.

(** A review of application [aid] is on file. *)
Definition has_review (w : World) (aid : ObjectId) : Prop :=
  ∃ k r, reviews w !! k = Some r ∧ IReview.applicationId r = aid.

(** Every application refers to a post that exists. *)
Definition refs_valid (w : World) : Prop :=
  ∀ k a, applications w !! k = Some a →
         is_Some (posts w !! IApplication.postId a).

(** No two applications share their post and their provider. *)
Definition unique_pairs (w : World) : Prop :=
  ∀ k1 k2 a1 a2,
    applications w !! k1 = Some a1 → applications w !! k2 = Some a2 →
    IApplication.postId a1 = IApplication.postId a2 →
    IApplication.providerId a1 = IApplication.providerId a2 →
    k1 = k2.

(** Ids from the counter on are not in use yet. *)
Definition ids_fresh (w : World) : Prop :=
  ∀ k, (nextObjectId w <= k)%nat →
    posts w !! k = None ∧ applications w !! k = None
    ∧ reviews w !! k = None ∧ notifications w !! k = None.

(** The arithmetic mean of a list of ratings. *)
Definition mean (ratings : list Z) : Q :=
  inject_Z (Review.sum ratings) / inject_Z (Z.of_nat (length ratings)).

(** The two values the rating aggregator is to store for a provider whose
    reviews carry [ratings]: the mean rounded to one decimal place and the
    number of reviews, and 0 and 0 when there is no review. *)
Definition aggregate_of (ratings : list Z) : Q * Z :=
  match ratings with
  | [] => (0%Q, 0%Z)
  | _ => (round1 (mean ratings), Z.of_nat (length ratings))
  end.

(** The stored average and count of a user. *)
Definition stored_rating (w : World) (uid : ObjectId) : option (Q * Z) :=
  (λ u, (IUser.averageRating u, IUser.reviewCount u)) <$> users w !! uid.

(** Two runs answer alike and agree on the four business collections. *)
Definition same_outcome (o1 o2 : World * NextResponse.t) : Prop :=
  o1.2 = o2.2
  ∧ posts o1.1 = posts o2.1 ∧ applications o1.1 = applications o2.1
  ∧ reviews o1.1 = reviews o2.1 ∧ users o1.1 = users o2.1.

(** The update that closes a post. *)
Definition close_post : ServicePost.Update :=
  ServicePost.mkUpdate (Some CLOSED) None None None None.

(** The seven ways in which serving a request changes the posts and the
    applications. *)
Inductive lifecycle_step (w w' : World) : Prop :=
| step_idle :
    posts w' = posts w → applications w' = applications w →
    lifecycle_step w w'
| step_post_created id p :
    posts w' = <[id := p]> (posts w) → applications w' = applications w →
    lifecycle_step w w'
| step_post_updated id u :
    posts w' = alter (ServicePost.apply_update u) id (posts w) →
    applications w' = applications w →
    lifecycle_step w w'
| step_post_deleted id :
    posts w' = delete id (posts w) →
    applications w'
      = filter (λ x : ObjectId * IApplication.t, IApplication.postId x.2 ≠ id)
               (applications w) →
    lifecycle_step w w'
| step_applied id a :
    is_Some (posts w !! IApplication.postId a) →
    ¬ has_applied w (IApplication.postId a) (IApplication.providerId a) →
    posts w' = posts w → applications w' = <[id := a]> (applications w) →
    lifecycle_step w w'
| step_decided id s u :
    posts w' = posts w
    ∨ (∃ pid, posts w' = alter (ServicePost.apply_update u) pid (posts w)) →
    applications w' = alter (Application.set_status s) id (applications w) →
    lifecycle_step w w'
| step_withdrawn id :
    posts w' = posts w → applications w' = delete id (applications w) →
    lifecycle_step w w'.

(** The states reached when, besides whole requests, the write of an apply
    request may run against a database newer than the one its checks read. *)
Inductive reachable_with_races : World → Prop :=
| raced_fresh us next : reachable_with_races (fresh_world us next)
| raced_step w r :
    reachable_with_races w → reachable_with_races (handle r w).1
| raced_elsewhere w w' :
    reachable_with_races w → elsewhere w w' → reachable_with_races w'
| raced_late_write w throws session post postId message :
    reachable_with_races w →
    reachable_with_races
      (try_handler
         (applications_route.POST_write throws session post postId message)
         applications_route.POST_catch w).1.

(** ** Sample data *)

Definition seeker_S : TokenPayload.t := TokenPayload.mk 1 SEEKER.
Definition provider_B : TokenPayload.t := TokenPayload.mk 2 PROVIDER.
Definition provider_C : TokenPayload.t := TokenPayload.mk 3 PROVIDER.

Definition sample_users : gmap ObjectId IUser.t :=
  {[ 1 := IUser.mk "Sam" SEEKER 0 0%Z;
     2 := IUser.mk "Bea" PROVIDER 0 0%Z;
     3 := IUser.mk "Cy" PROVIDER 0 0%Z ]}.

(** Seeker S has published post 100 and nothing else has happened. *)
Definition world_posted : World :=
  serve [ CreatePost false (Some seeker_S)
            (CreatePostSchema.mk "Build a site"
               "A landing page and a contact form" "Web Development" 250) ]
        (fresh_world sample_users 100).

Definition cover_message : string := "I have 5 years experience in this field".

(** Provider B has applied to post 100: application 101. *)
Definition world_applied : World :=
  serve [ Apply false (Some provider_B)
            (CreateApplicationSchema.mk 100 cover_message) ]
        world_posted.

(** Seeker S has accepted application 101, which closed post 100. *)
Definition world_accepted : World :=
  serve [ UpdateStatus false false (Some seeker_S) 101
            (UpdateStatusSchema.mk ACCEPTED) ]
        world_applied.

(** Seeker S has reviewed application 101 with five stars: review 104. *)
Definition world_reviewed : World :=
  serve [ CreateReview false (Some seeker_S)
            (CreateReviewSchema.mk 101 5 (Some "Great work")) ]
        world_accepted.

Definition application_101 : IApplication.t :=
  IApplication.mk 100 2 cover_message ACCEPTED.

Definition post_100_closed : IServicePost.t :=
  IServicePost.mk 1 "Build a site" "A landing page and a contact form"
                  "Web Development" 250 CLOSED.

(** Providers B and C have both applied to post 100: applications 101 and
    103. *)
Definition world_two_applicants : World :=
  serve [ Apply false (Some provider_C)
            (CreateApplicationSchema.mk 100
               "I can start on Monday, see my portfolio") ]
        world_applied.

(** Seeker S publishes four posts, provider B applies to each and is
    accepted each time, and S reviews the four applications with 5, 5, 4 and
    3 stars: reviews 116, 118, 120 and 122. *)
Definition world_four_reviews : World :=
  serve
    (((λ title, CreatePost false (Some seeker_S)
                  (CreatePostSchema.mk title
                     "A landing page and a contact form" "Web Development" 250))
        <$> [ "Build a site"; "Fix my shop"; "Write the docs";
              "Tune the database" ])
     ++ ((λ pid, Apply false (Some provider_B)
                   (CreateApplicationSchema.mk pid cover_message))
           <$> [100; 101; 102; 103])
     ++ ((λ aid, UpdateStatus false false (Some seeker_S) aid
                   (UpdateStatusSchema.mk ACCEPTED))
           <$> [104; 106; 108; 110])
     ++ ((λ x : ObjectId * Z, CreateReview false (Some seeker_S)
                                (CreateReviewSchema.mk x.1 x.2 None))
           <$> [(104, 5%Z); (106, 5%Z); (108, 4%Z); (110, 3%Z)]))
    (fresh_world sample_users 100).

(** ** The writes of the lifecycle routes *)

(** The document [ServicePost.create] stores for a parsed body. *)
Definition new_post (userId : ObjectId) (data : CreatePostSchema.t)
    : IServicePost.t :=
  IServicePost.mk userId (trim (CreatePostSchema.title data))
    (trim (CreatePostSchema.description data))
    (CreatePostSchema.category data) (CreatePostSchema.budget data) OPEN.

(** The document [Review.create] stores for a parsed body. *)
Definition new_review (seekerId providerId : ObjectId)
    (data : CreateReviewSchema.t) : IReview.t :=
  IReview.mk seekerId providerId (CreateReviewSchema.applicationId data)
    (CreateReviewSchema.rating data)
    (trim <$> CreateReviewSchema.comment data).

(** The user records once the rating of [pid] is recomputed from [rs]. *)
Definition recompute_rating (pid : ObjectId) (rs : gmap ObjectId IReview.t)
    (us : gmap ObjectId IUser.t) : gmap ObjectId IUser.t :=
  alter (User.set_rating (aggregate_of (Review.ratings_of pid rs)).1
                         (aggregate_of (Review.ratings_of pid rs)).2) pid us.

(** The validators [ServicePost.create] runs on the document. *)
Definition post_errors (p : IServicePost.t) : option string :=
  first_error [ ServicePost.validate_title (IServicePost.title p);
                ServicePost.validate_description (IServicePost.description p);
                ServicePost.validate_category (IServicePost.category p);
                ServicePost.validate_budget (IServicePost.budget p) ].

(** The validators [findByIdAndUpdate] runs on the updated paths. *)
Definition update_errors (u : ServicePost.Update) : option string :=
  first_error
    [ ServicePost.title u ≫= (λ s, ServicePost.validate_title (trim s));
      ServicePost.description u
        ≫= (λ s, ServicePost.validate_description (trim s));
      ServicePost.category u ≫= ServicePost.validate_category;
      ServicePost.budget u ≫= ServicePost.validate_budget ].

(** Everything a request can do to the posts, applications, reviews and
    users: nothing, or one of eight writes, each with the conditions under
    which the route performs it. *)
Inductive transition (w w' : World) : Request → Prop :=
| t_nothing r :
    posts w' = posts w → applications w' = applications w →
    reviews w' = reviews w → users w' = users w →
    transition w w' r
| t_post_created missing session body :
    TokenPayload.role session = SEEKER →
    CreatePostSchema.safeParse body = inr body →
    post_errors (new_post (TokenPayload.userId session) body) = None →
    posts w' = <[nextObjectId w :=
                   new_post (TokenPayload.userId session) body]> (posts w) →
    applications w' = applications w →
    reviews w' = reviews w → users w' = users w →
    transition w w' (CreatePost missing (Some session) body)
| t_post_updated session id body p :
    TokenPayload.role session = SEEKER →
    posts w !! id = Some p →
    IServicePost.userId p = TokenPayload.userId session →
    UpdatePostSchema.safeParse body = inr body →
    update_errors body = None →
    posts w' = alter (ServicePost.apply_update body) id (posts w) →
    applications w' = applications w →
    reviews w' = reviews w → users w' = users w →
    transition w w' (UpdatePost (Some session) id body)
| t_post_deleted session id p :
    TokenPayload.role session = SEEKER →
    posts w !! id = Some p →
    IServicePost.userId p = TokenPayload.userId session →
    posts w' = delete id (posts w) →
    applications w'
      = filter (λ x : ObjectId * IApplication.t, IApplication.postId x.2 ≠ id)
               (applications w) →
    reviews w' = reviews w → users w' = users w →
    transition w w' (DeletePost (Some session) id)
| t_applied throws session body p :
    TokenPayload.role session = PROVIDER →
    CreateApplicationSchema.safeParse body = inr body →
    posts w !! CreateApplicationSchema.postId body = Some p →
    IServicePost.status p = OPEN →
    IServicePost.userId p ≠ TokenPayload.userId session →
    ¬ has_applied w (CreateApplicationSchema.postId body)
                  (TokenPayload.userId session) →
    Application.validate_message (trim (CreateApplicationSchema.message body))
      = None →
    posts w' = posts w →
    applications w'
      = <[nextObjectId w :=
            IApplication.mk (CreateApplicationSchema.postId body)
              (TokenPayload.userId session)
              (trim (CreateApplicationSchema.message body)) PENDING]>
          (applications w) →
    reviews w' = reviews w → users w' = users w →
    transition w w' (Apply throws (Some session) body)
| t_decided (missing : bool) throws session id body a p :
    TokenPayload.role session = SEEKER →
    applications w !! id = Some a →
    posts w !! IApplication.postId a = Some p →
    IServicePost.userId p = TokenPayload.userId session →
    UpdateStatusSchema.status body ≠ PENDING →
    posts w' = (if missing then posts w
                else if decide (UpdateStatusSchema.status body = ACCEPTED)
                then alter (ServicePost.apply_update close_post)
                           (IApplication.postId a) (posts w)
                else posts w) →
    applications w'
      = alter (Application.set_status (UpdateStatusSchema.status body)) id
              (applications w) →
    reviews w' = reviews w → users w' = users w →
    transition w w' (UpdateStatus missing throws (Some session) id body)
| t_withdrawn session id a :
    TokenPayload.role session = PROVIDER →
    applications w !! id = Some a →
    IApplication.providerId a = TokenPayload.userId session →
    IApplication.status a = PENDING →
    posts w' = posts w → applications w' = delete id (applications w) →
    reviews w' = reviews w → users w' = users w →
    transition w w' (Withdraw (Some session) id)
| t_reviewed throws session body a :
    TokenPayload.role session = SEEKER →
    CreateReviewSchema.safeParse body = inr body →
    applications w !! CreateReviewSchema.applicationId body = Some a →
    IApplication.status a = ACCEPTED →
    owns w (TokenPayload.userId session) (IApplication.postId a) →
    ¬ has_review w (CreateReviewSchema.applicationId body) →
    posts w' = posts w → applications w' = applications w →
    reviews w' = <[nextObjectId w :=
                     new_review (TokenPayload.userId session)
                       (IApplication.providerId a) body]> (reviews w) →
    users w' = recompute_rating (IApplication.providerId a) (reviews w')
                                (users w) →
    transition w w' (CreateReview throws (Some session) body)
| t_review_deleted session id r :
    reviews w !! id = Some r →
    IReview.seekerId r = TokenPayload.userId session →
    posts w' = posts w → applications w' = applications w →
    reviews w' = delete id (reviews w) →
    users w' = recompute_rating (IReview.providerId r) (reviews w') (users w) →
    transition w w' (DeleteReview (Some session) id).

(** ** Well-formed documents *)

(** The bounds of [ServicePostSchema]. *)
Definition post_ok (p : IServicePost.t) : Prop :=
  (5 <= len (IServicePost.title p) <= 100)%Z
  ∧ (20 <= len (IServicePost.description p) <= 2000)%Z
  ∧ IServicePost.category p ∈ CATEGORIES
  ∧ (0 <= IServicePost.budget p)%Q.

(** The bounds of [ApplicationSchema]. *)
Definition application_ok (a : IApplication.t) : Prop :=
  (10 <= len (IApplication.message a) <= 1000)%Z.

(** The bounds of [ReviewSchema]. *)
Definition review_ok (r : IReview.t) : Prop :=
  (1 <= IReview.rating r <= 5)%Z
  ∧ ∀ c, IReview.comment r = Some c → (len c <= 500)%Z.

Definition documents_valid (w : World) : Prop :=
  (∀ k p, posts w !! k = Some p → post_ok p)
  ∧ (∀ k a, applications w !! k = Some a → application_ok a)
  ∧ (∀ k r, reviews w !! k = Some r → review_ok r).

(** No two reviews share their application. *)
Definition unique_reviews (w : World) : Prop :=
  ∀ k1 k2 r1 r2,
    reviews w !! k1 = Some r1 → reviews w !! k2 = Some r2 →
    IReview.applicationId r1 = IReview.applicationId r2 → k1 = k2.

(** Every user record carries the aggregate of the reviews that name the
    user. *)
Definition ratings_in_sync (w : World) : Prop :=
  ∀ uid u, users w !! uid = Some u →
    (IUser.averageRating u, IUser.reviewCount u)
    = aggregate_of (Review.ratings_of uid (reviews w)).

(** The rating fields as [UserSchema] initialises them. *)
Definition default_rating (u : IUser.t) : Prop :=
  IUser.averageRating u = 0%Q ∧ IUser.reviewCount u = 0%Z.

(** The session a request carries. *)
Definition session_of (r : Request) : option TokenPayload.t :=
  match r with
  | CreatePost _ s _ | UpdatePost s _ _ | DeletePost s _ | Apply _ s _
  | UpdateStatus _ _ s _ _ | Withdraw s _ | CreateReview _ s _
  | DeleteReview s _ => s
  end.

(** The role a route asks for; deleting a review asks for none. *)
Definition required_role (r : Request) : option Role :=
  match r with
  | CreatePost _ _ _ | UpdatePost _ _ _ | DeletePost _ _
  | UpdateStatus _ _ _ _ _ | CreateReview _ _ _ => Some SEEKER
  | Apply _ _ _ | Withdraw _ _ => Some PROVIDER
  | DeleteReview _ _ => None
  end.

(** A post, an application to it, and its acceptance. *)
Definition accepted_trace : list Request :=
  [ CreatePost false (Some seeker_S)
      (CreatePostSchema.mk "Build a site"
         "A landing page and a contact form" "Web Development" 250);
    Apply false (Some provider_B) (CreateApplicationSchema.mk 100 cover_message);
    UpdateStatus false false (Some seeker_S) 101 (UpdateStatusSchema.mk ACCEPTED) ].

(** Two providers apply to one post, one is accepted and reviewed. *)
Definition sample_trace : list Request :=
  [ CreatePost false (Some seeker_S)
      (CreatePostSchema.mk "Build a site"
         "A landing page and a contact form" "Web Development" 250);
    Apply false (Some provider_B) (CreateApplicationSchema.mk 100 cover_message);
    Apply true (Some provider_C)
      (CreateApplicationSchema.mk 100 "I can start on Monday, see my portfolio");
    UpdateStatus false false (Some seeker_S) 101 (UpdateStatusSchema.mk ACCEPTED);
    CreateReview false (Some seeker_S) (CreateReviewSchema.mk 101 4 None) ].

Definition sample_world : World :=
  serve sample_trace (fresh_world sample_users 100).

(** Provider B once the review of [sample_trace] is stored. *)
Definition bea_reviewed : IUser.t := IUser.mk "Bea" PROVIDER 4 1.

(** A text that has the [n] characters the request schema asks for only
    with its surrounding white space. *)
Definition padded (n : Z) (s : string) : Prop :=
  (len (trim s) < n <= len s)%Z.

(** The world after a [console.error] and nothing else. *)
Definition logged (line : string) (w : World) : World :=
  mkWorld (posts w) (applications w) (reviews w) (users w) (notifications w)
          (nextObjectId w) (console w ++ [line]).

(** What the stored references say about each other: the post of an
    application exists and belongs to someone else than the applicant; a
    review names the provider of its application and is written by the owner
    of the post, as long as the application is on file. *)
Definition references_agree (w : World) : Prop :=
  (∀ k a, applications w !! k = Some a →
     ∃ p, posts w !! IApplication.postId a = Some p
          ∧ IServicePost.userId p ≠ IApplication.providerId a)
  ∧ (∀ k v a, reviews w !! k = Some v →
       applications w !! IReview.applicationId v = Some a →
       IReview.providerId v = IApplication.providerId a
       ∧ owns w (IReview.seekerId v) (IApplication.postId a)).

(** The applications that reviews name were created before. *)
Definition reviewed_ids_used (w : World) : Prop :=
  ∀ k v, reviews w !! k = Some v →
    (IReview.applicationId v < nextObjectId w)%nat.

(** A text that [trim] leaves as it is. *)
Definition trimmed (s : string) : Prop := trim s = s.

(** The texts of the stored documents are trimmed. *)
Definition text_trimmed (w : World) : Prop :=
  (∀ k p, posts w !! k = Some p →
     trimmed (IServicePost.title p) ∧ trimmed (IServicePost.description p))
  ∧ (∀ k a, applications w !! k = Some a → trimmed (IApplication.message a))
  ∧ (∀ k r c, reviews w !! k = Some r → IReview.comment r = Some c →
       trimmed c).

(** ** The notification routes *)

(** The queries of models/Notification.ts the routes use. *)
Module Notifications.

Definition mark_read (n : INotification.t) : INotification.t :=
  INotification.mk (INotification.userId n) (INotification.type n)
    (INotification.title n) (INotification.message n) (INotification.link n)
    true.

(** The filter [{ userId, read: false }]. *)
Definition unread_of (userId : ObjectId) (n : INotification.t) : Prop :=
  INotification.userId n = userId ∧ INotification.read n = false.

#[global] Instance unread_of_dec userId n : Decision (unread_of userId n).
Proof. unfold unread_of. apply _. Defined.

(** [updateMany({ userId, read: false }, { $set: { read: true } })]. *)
Definition updateMany (userId : ObjectId) : M unit :=
  set_notifications
    (fmap (λ n, if decide (unread_of userId n) then mark_read n else n)).

(** [deleteMany({ userId })]. *)
Definition deleteMany (userId : ObjectId) : M unit :=
  set_notifications
    (filter (λ x : ObjectId * INotification.t,
               INotification.userId x.2 ≠ userId)).

(** [findOneAndUpdate({ _id: id, userId }, { $set: { read: true } },
                      { new: true })]. *)
Definition findOneAndUpdate (id userId : ObjectId)
    : M (option INotification.t) :=
  w <~ get ;;
  match notifications w !! id with
  | Some n =>
      if decide (INotification.userId n = userId)
      then set_notifications (insert id (mark_read n)) ;;;
           ret (Some (mark_read n))
      else ret None
  | None => ret None
  end.

End Notifications.

(** The bodies the notification routes send. *)
Inductive NotificationsJson :=
| NUnauthorized          (* { success: false, message: 'Unauthorized access' } *)
| NError (error : string)           (* { success: false, error } *)
| NSuccess                          (* { success: true } *)
| NNotification (notification : ObjectId * INotification.t).

Module NotificationsResponse.
Record t := mk { body : NotificationsJson; status : nat }.
Definition json (body : NotificationsJson) (status : nat) : t := mk body status.
End NotificationsResponse.

Definition NotificationsHandler : Type :=
  World → World * NotificationsResponse.t.

(** [unauthorizedResponse()] of lib/auth.ts, as these routes send it. *)
Definition notifications_unauthorized : NotificationsResponse.t :=
  NotificationsResponse.json NUnauthorized 401.

(** The [try { ... } catch (error) { console.error(label, error); 500 }] of
    the notification routes. *)
Definition try_notifications (c : M NotificationsResponse.t) (label : string)
    : NotificationsHandler :=
  λ w, match c w with
       | (w', inr r) => (w', r)
       | (w', inl e) =>
           ((console_error label w').1,
            NotificationsResponse.json (NError "Internal Server Error") 500)
       end.

(** app/api/notifications/route.ts *)
Module notifications_route.

(** Mark all as read. *)
Definition PATCH (session : option TokenPayload.t) : NotificationsHandler :=
  try_notifications
    (match session with
     | None => ret notifications_unauthorized
     | Some session =>
       Notifications.updateMany (TokenPayload.userId session) ;;;
       ret (NotificationsResponse.json NSuccess 200)
     end)
    "PATCH /api/notifications error:".

(** Clear all notifications. *)
Definition DELETE (session : option TokenPayload.t) : NotificationsHandler :=
  try_notifications
    (match session with
     | None => ret notifications_unauthorized
     | Some session =>
       Notifications.deleteMany (TokenPayload.userId session) ;;;
       ret (NotificationsResponse.json NSuccess 200)
     end)
    "DELETE /api/notifications error:".

End notifications_route.

(** app/api/notifications/[id]/route.ts *)
Module notifications_id_route.

(** Mark a single notification as read. *)
Definition PATCH (session : option TokenPayload.t) (id : ObjectId)
    : NotificationsHandler :=
  try_notifications
    (match session with
     | None => ret notifications_unauthorized
     | Some session =>
       notif <~ Notifications.findOneAndUpdate id
                  (TokenPayload.userId session) ;;
       match notif with
       | None => ret (NotificationsResponse.json
                        (NError "Notification not found") 404)
       | Some notif =>
           ret (NotificationsResponse.json (NNotification (id, notif)) 200)
       end
     end)
    "PATCH /api/notifications/[id] error:".

End notifications_id_route.

Inductive NotificationRequest :=
| MarkAllRead (session : option TokenPayload.t)
| ClearAll (session : option TokenPayload.t)
| MarkRead (session : option TokenPayload.t) (id : ObjectId).

Definition handle_notification (r : NotificationRequest)
    : NotificationsHandler :=
  match r with
  | MarkAllRead s => notifications_route.PATCH s
  | ClearAll s => notifications_route.DELETE s
  | MarkRead s id => notifications_id_route.PATCH s id
  end.

(** The session a notification request carries. *)
Definition notification_session (r : NotificationRequest)
    : option TokenPayload.t :=
  match r with MarkAllRead s | ClearAll s | MarkRead s _ => s end.

(** The user a lifecycle request notifies when it succeeds: the owner of
    the post applied to, or the provider of the application decided or
    reviewed. *)
Definition notified_user (w : World) (r : Request) (uid : ObjectId) : Prop :=
  match r with
  | Apply _ _ body => owns w uid (CreateApplicationSchema.postId body)
  | UpdateStatus _ _ _ id _ =>
      ∃ a, applications w !! id = Some a ∧ IApplication.providerId a = uid
  | CreateReview _ _ body =>
      ∃ a, applications w !! CreateReviewSchema.applicationId body = Some a
           ∧ IApplication.providerId a = uid
  | _ => False
  end.

(** The type of the notification a lifecycle request sends. *)
Definition notification_type (r : Request) : option NotificationType :=
  match r with
  | Apply _ _ _ => Some NEW_APPLICATION
  | UpdateStatus _ _ _ _ _ => Some STATUS_CHANGED
  | CreateReview _ _ _ => Some NEW_REVIEW
  | _ => None
  end.

(** ** Sessions: lib/auth.ts *)

(** [s.split(sep)] for a non-empty separator: the pieces between the
    occurrences of [sep], found from left to right without overlap.
    [skip] counts the characters of a found separator still to be dropped,
    [cur] is the piece read so far. *)
Fixpoint split_from (sep : string) (skip : nat) (cur s : string)
    : list string :=
  match s with
  | EmptyString => [cur]
  | String c s' =>
      match skip with
      | S k => split_from sep k cur s'
      | O =>
          if String.prefix sep s
          then cur :: split_from sep (String.length sep - 1) EmptyString s'
          else split_from sep 0 (cur +:+ String c EmptyString) s'
      end
  end.

Definition split (sep s : string) : list string :=
  split_from sep 0 EmptyString s.

(** [Object.fromEntries(entries)]: a later entry replaces an earlier one
    with the same key. *)
Definition fromEntries (entries : list (string * string))
    : gmap string string :=
  foldl (λ m kv, <[kv.1 := kv.2]> m) ∅ entries.

(** [const [key, ...v] = c.split('='); return [key, v.join('=')]]. *)
Definition cookie_entry (c : string) : string * string :=
  match split "=" c with
  | key :: v => (key, String.concat "=" v)
  | [] => ("undefined", EmptyString)
  end.

(** The two headers [getSession] reads. *)
Record Headers := mkHeaders {
  cookie : option string;
  Authorization : option string
}.

Section auth.

(** [verifyToken]: [jwt.verify] under the server's secret, [null] when it
    throws. *)
Variable verifyToken : string → option TokenPayload.t.

(** The fallback of [getSession]: the Authorization header. *)
Definition bearer_session (request : Headers) : option TokenPayload.t :=
  match Authorization request with
  | Some authHeader =>
      if String.prefix "Bearer " authHeader
      then split " " authHeader !! 1%nat ≫= verifyToken
      else None
  | None => None
  end.

Definition getSession (request : Headers) : option TokenPayload.t :=
  (* Check cookies first (Preferred) *)
  match cookie request with
  | Some cookieHeader =>
      if decide (cookieHeader = EmptyString) then bearer_session request
      else
        let cookies :=
          fromEntries (cookie_entry <$> split "; " cookieHeader) in
        match cookies !! "auth-token" with
        | Some token =>
            if decide (token = EmptyString) then bearer_session request
            else verifyToken token
        | None => bearer_session request
        end
  | None => bearer_session request
  end.

End auth.

(** A character occurs in a string. *)
Fixpoint occurs (c : ascii) (s : string) : bool :=
  match s with
  | EmptyString => false
  | String c' s' => if decide (c' = c) then true else occurs c s'
  end.

(** The Cookie header a client sends for a list of cookies. *)
Definition cookie_header (cookies : list (string * string)) : string :=
  String.concat "; " ((λ kv, kv.1 +:+ "=" +:+ kv.2) <$> cookies).

(** A cookie as the grammar of the header allows it: no semicolon in the
    name or the value, no equals sign in the name. *)
Definition cookie_ok (kv : string * string) : Prop :=
  occurs ";" kv.1 = false ∧ occurs "=" kv.1 = false
  ∧ occurs ";" kv.2 = false.

(** A token verifier for the examples: it accepts one token. *)
Definition sample_verifyToken (token : string) : option TokenPayload.t :=
  if decide (token = "header.payload.signature") then Some seeker_S else None.

(** ** The middleware: middleware.ts *)





(** * Properties *)

(** ** Queries *)

Lemma find_one_None {A} (P : ObjectId * A → Prop) `{!∀ x, Decision (P x)}
    (m : gmap ObjectId A) :
  find_one P m = None ↔ ∀ k v, m !! k = Some v → ¬ P (k, v).
Proof.
  unfold find_one. rewrite head_None, map_to_list_empty_iff, map_empty.
  setoid_rewrite map_lookup_filter_None. split.
  - intros Hm k v Hk. destruct (Hm k) as [Hn|Hn]; [congruence | by apply Hn].
  - intros Hm k. destruct (m !! k) as [v|] eqn:E; [right | by left].
    intros x [= <-]. by apply Hm.
Qed.

Lemma find_one_Some {A} (P : ObjectId * A → Prop) `{!∀ x, Decision (P x)}
    (m : gmap ObjectId A) k v :
  find_one P m = Some (k, v) → m !! k = Some v ∧ P (k, v).
Proof.
  unfold find_one. intros Hm.
  by apply head_Some_elem_of, elem_of_map_to_list, map_lookup_filter_Some in Hm.
Qed.

Lemma find_one_is_Some {A} (P : ObjectId * A → Prop) `{!∀ x, Decision (P x)}
    (m : gmap ObjectId A) k v :
  m !! k = Some v → P (k, v) → is_Some (find_one P m).
Proof.
  intros Hk HP. destruct (find_one P m) eqn:E; [by eexists|].
  rewrite find_one_None in E. by destruct (E k v).
Qed.

Lemma find_pair_None w pid uid :
  ¬ has_applied w pid uid →
  find_one (Application.by_pair pid uid) (applications w) = None.
Proof.
  intros Hno. apply find_one_None. intros k a Hk [? ?].
  apply Hno. by exists k, a.
Qed.

Lemma find_pair_Some w pid uid :
  has_applied w pid uid →
  is_Some (find_one (Application.by_pair pid uid) (applications w)).
Proof.
  intros (k & a & Hk & ? & ?). by apply (find_one_is_Some _ _ k a).
Qed.

Lemma has_applied_find w pid uid :
  find_one (Application.by_pair pid uid) (applications w) = None →
  ¬ has_applied w pid uid.
Proof.
  intros Ef Hyes%find_pair_Some. rewrite Ef in Hyes. by destruct Hyes.
Qed.

Lemma find_review_None w aid :
  ¬ has_review w aid →
  find_one (Review.by_application aid) (reviews w) = None.
Proof.
  intros Hno. apply find_one_None. intros k r Hk Hr.
  apply Hno. by exists k, r.
Qed.

Lemma find_review_Some w aid :
  has_review w aid →
  is_Some (find_one (Review.by_application aid) (reviews w)).
Proof. intros (k & r & Hk & ?). by apply (find_one_is_Some _ _ k r). Qed.

Lemma owned_by_Some w uid pid :
  owns w uid pid → ∃ p, owned_by uid (posts w !! pid) = Some p.
Proof.
  intros (p & -> & Hp). exists p. simpl. by rewrite decide_False by auto.
Qed.

Lemma owned_by_None w uid pid :
  ¬ owns w uid pid → owned_by uid (posts w !! pid) = None.
Proof.
  intros Hno. destruct (posts w !! pid) as [p|] eqn:Ep; simpl; [|done].
  destruct (decide (IServicePost.userId p ≠ uid)) as [|Heq]; [done|].
  apply dec_stable in Heq. destruct Hno. by exists p.
Qed.

(** ** Trimming never lengthens a string *)

Lemma trim_start_length s :
  (String.length (trim_start s) <= String.length s)%nat.
Proof.
  induction s as [|c s IH]; simpl; [lia|].
  destruct (is_white_space c); simpl; lia.
Qed.

Lemma trim_end_length s :
  (String.length (trim_end s) <= String.length s)%nat.
Proof.
  induction s as [|c s IH]; simpl; [lia|].
  destruct (trim_end s); [destruct (is_white_space c)|]; simpl in *; lia.
Qed.

Lemma trim_len s : (len (trim s) <= len s)%Z.
Proof.
  unfold len, trim. pose proof (trim_end_length (trim_start s)).
  pose proof (trim_start_length s). lia.
Qed.

(** ** Running handlers *)

Ltac exec :=
  unfold try_handler, internal_server_error, createNotification,
    Notification.create, try_catch,
    ServicePost.create, ServicePost.findByIdAndUpdate_runValidators,
    ServicePost.findByIdAndUpdate, ServicePost.findByIdAndDelete,
    ServicePost.findById,
    Application.create, Application.findByIdAndUpdate,
    Application.findByIdAndDelete, Application.deleteMany,
    Application.findOne, Application.findById,
    Review.create, Review.findByIdAndDelete, Review.aggregate,
    Review.findOne, Review.findById,
    User.findByIdAndUpdate, User.findById,
    console_error, newObjectId, set_posts, set_applications, set_reviews,
    set_users, set_notifications, populate, bind, ret, get, throw,
    modify in *;
  simpl in *.

Ltac step_cases :=
  repeat match goal with
         | |- context [match ?x with _ => _ end] =>
             lazymatch x with
             | context [match _ with _ => _ end] => fail
             | _ => destruct x eqn:?; simpl in *
             end
         end.

(** The notification helper returns normally whatever the store does, and
    leaves the four business collections alone. *)
Lemma createNotification_frame throws userId type title message link w :
  ∃ w', createNotification throws userId type title message link w = (w', inr tt)
        ∧ posts w' = posts w ∧ applications w' = applications w
        ∧ reviews w' = reviews w ∧ users w' = users w.
Proof. destruct throws; exec; eauto 10. Qed.

(** ** What a request can do to posts and applications *)

Lemma handle_lifecycle_step (r : Request) (w : World) :
  lifecycle_step w (handle r w).1.
Proof.
  destruct r; simpl.
  - unfold posts_route.POST. exec. step_cases.
    all: first [ by apply step_idle | by eapply step_post_created ].
  - unfold posts_id_route.PATCH. exec. step_cases.
    all: first [ by apply step_idle | by eapply step_post_updated ].
  - unfold posts_id_route.DELETE. exec. step_cases.
    all: first [ by apply step_idle | by eapply step_post_deleted ].
  - unfold applications_route.POST, applications_route.POST_checks,
      applications_route.POST_write. exec. step_cases.
    all: try by apply step_idle.
    all: eapply (step_applied _ _ (nextObjectId w)
                   (IApplication.mk _ _ _ PENDING));
           [ | | reflexivity | reflexivity ]; simpl;
           eauto using has_applied_find.
  - unfold applications_id_route.PATCH. exec. step_cases.
    all: try by apply step_idle.
    all: eapply (step_decided _ _ _ _
                   (ServicePost.mkUpdate (Some CLOSED) None None None None));
           [ | reflexivity ]; simpl; eauto.
  - unfold applications_id_route.DELETE. exec. step_cases.
    all: first [ by apply step_idle | by eapply step_withdrawn ].
  - unfold reviews_route.POST, reviews_route.POST_checks,
      reviews_route.POST_write. exec. step_cases.
    all: by apply step_idle.
  - unfold reviews_id_route.DELETE. exec. step_cases.
    all: by apply step_idle.
Qed.

(** ** Two invariants of the applications *)

Lemma alter_status_lookup s id (m : gmap ObjectId IApplication.t) k a' :
  alter (Application.set_status s) id m !! k = Some a' →
  ∃ a, m !! k = Some a
       ∧ IApplication.postId a' = IApplication.postId a
       ∧ IApplication.providerId a' = IApplication.providerId a.
Proof.
  rewrite lookup_alter_Some. intros [(-> & a & Ha & ->)|(_ & Ha)]; eauto.
Qed.

Lemma insert_unique_pairs w w' id a :
  unique_pairs w →
  ¬ has_applied w (IApplication.postId a) (IApplication.providerId a) →
  applications w' = <[id := a]> (applications w) →
  unique_pairs w'.
Proof.
  intros Hu Hno Happs k1 k2 a1 a2. rewrite Happs, !lookup_insert_Some.
  intros [[<- <-]|[Hk1 H1]] [[<- <-]|[Hk2 H2]] Hp Hq; try done.
  - destruct Hno. exists k2, a2. by rewrite H2, Hp, Hq.
  - destruct Hno. exists k1, a1. by rewrite H1, Hp, Hq.
  - by apply (Hu k1 k2 a1 a2).
Qed.

Lemma step_unique_pairs w w' :
  lifecycle_step w w' → unique_pairs w → unique_pairs w'.
Proof.
  intros Hstep Hu.
  destruct Hstep as [Hp Ha|id p Hp Ha|id u Hp Ha|id Hp Ha|id a Hsome Hno Hp Ha
                    |id s u Hp Ha|id Hp Ha].
  - intros k1 k2 a1 a2. rewrite Ha. apply Hu.
  - intros k1 k2 a1 a2. rewrite Ha. apply Hu.
  - intros k1 k2 a1 a2. rewrite Ha. apply Hu.
  - intros k1 k2 a1 a2. rewrite Ha, !map_lookup_filter_Some.
    intros [H1 _] [H2 _]. by apply Hu.
  - by apply (insert_unique_pairs w w' id a).
  - intros k1 k2 a1 a2. rewrite Ha.
    intros (b1 & H1 & -> & ->)%alter_status_lookup
           (b2 & H2 & -> & ->)%alter_status_lookup.
    by apply Hu.
  - intros k1 k2 a1 a2. rewrite Ha, !lookup_delete_Some.
    intros [_ H1] [_ H2]. by apply Hu.
Qed.

Lemma step_refs_valid w w' :
  lifecycle_step w w' → refs_valid w → refs_valid w'.
Proof.
  intros Hstep Hv.
  destruct Hstep as [Hp Ha|id p Hp Ha|id u Hp Ha|id Hp Ha|id a Hsome Hno Hp Ha
                    |id s u Hp Ha|id Hp Ha]; intros k b; rewrite Ha.
  - rewrite Hp. apply Hv.
  - rewrite Hp, lookup_insert_is_Some. intros Hb%Hv.
    destruct (decide (id = IApplication.postId b)); auto.
  - rewrite Hp, lookup_alter_is_Some. apply Hv.
  - rewrite Hp, map_lookup_filter_Some. simpl. intros [Hb Hne].
    rewrite lookup_delete_ne by done. by apply (Hv k).
  - rewrite Hp, lookup_insert_Some. intros [[_ <-]|[_ Hb]]; [done|].
    by apply (Hv k).
  - intros (b0 & Hb & -> & _)%alter_status_lookup. apply Hv in Hb.
    destruct Hp as [->|[pid ->]]; [done|]. by rewrite lookup_alter_is_Some.
  - rewrite Hp, lookup_delete_Some. intros [_ Hb]. by apply (Hv k).
Qed.

Lemma reachable_refs_valid w : reachable w → refs_valid w.
Proof.
  induction 1 as [us next|w r _ IH|w w' _ IH (Hp & Ha & _)].
  - intros k a. simpl. by rewrite lookup_empty.
  - eapply step_refs_valid; [apply handle_lifecycle_step | exact IH].
  - intros k a. rewrite Hp, Ha. apply IH.
Qed.

Lemma reachable_serve rs w : reachable w → reachable (serve rs w).
Proof.
  revert w. induction rs as [|r rs IH]; intros w Hw; [done|].
  simpl. apply IH. by constructor.
Qed.

Lemma reachable_raced w : reachable w → reachable_with_races w.
Proof.
  induction 1 as [| |w w' _ IH He]; [by constructor..|].
  by apply (raced_elsewhere w w').
Qed.

(** The write of an apply request, run on its own: on a pair that is on file
    nothing is written. *)
Lemma late_write_applications throws session post postId message w :
  let out := try_handler
               (applications_route.POST_write throws session post postId message)
               applications_route.POST_catch w in
  applications out.1 = applications w
  ∨ (¬ has_applied w postId (TokenPayload.userId session)
     ∧ applications out.1
       = <[nextObjectId w := IApplication.mk postId (TokenPayload.userId session)
                               (trim message) PENDING]> (applications w)).
Proof.
  unfold applications_route.POST_write, applications_route.POST_catch. exec.
  destruct (Application.validate_message (trim message)); simpl; [by left|].
  destruct (find_one _ _) eqn:Ef; simpl; [by left|].
  right. split; [by apply has_applied_find|]. by destruct throws.
Qed.

Lemma raced_unique_pairs w : reachable_with_races w → unique_pairs w.
Proof.
  induction 1 as [us next|w r _ IH|w w' _ IH (_ & Ha & _)
                 |w throws session post postId message _ IH].
  - intros k1 k2 a1 a2. simpl. by rewrite lookup_empty.
  - eapply step_unique_pairs; [apply handle_lifecycle_step | exact IH].
  - intros k1 k2 a1 a2. rewrite Ha. apply IH.
  - destruct (late_write_applications throws session post postId message w)
      as [Hsame|[Hno Hins]].
    + intros k1 k2 a1 a2. rewrite Hsame. apply IH.
    + eapply insert_unique_pairs; [exact IH | | exact Hins]. exact Hno.
Qed.

(** ** Fresh ids *)

Ltac fresh_leaf :=
  match goal with
  | IH : ids_fresh ?w |- ids_fresh _ =>
      let k := fresh "k" in
      let Hk := fresh "Hk" in
      intros k Hk; simpl in *;
      destruct (IH k ltac:(lia)) as (? & ? & ? & ?);
      repeat split;
      rewrite ?lookup_insert_ne by lia;
      rewrite ?lookup_alter_None, ?lookup_delete_None, ?map_lookup_filter_None;
      auto
  end.

(** No request stores a document under an id the counter has yet to give. *)
Lemma handle_ids_fresh r w : ids_fresh w → ids_fresh (handle r w).1.
Proof.
  intros IH. destruct r; simpl.
  - unfold posts_route.POST. exec. step_cases; fresh_leaf.
  - unfold posts_id_route.PATCH. exec. step_cases; fresh_leaf.
  - unfold posts_id_route.DELETE. exec. step_cases; fresh_leaf.
  - unfold applications_route.POST, applications_route.POST_checks,
      applications_route.POST_write. exec. step_cases; fresh_leaf.
  - unfold applications_id_route.PATCH. exec. step_cases; fresh_leaf.
  - unfold applications_id_route.DELETE. exec. step_cases; fresh_leaf.
  - unfold reviews_route.POST, reviews_route.POST_checks,
      reviews_route.POST_write. exec. step_cases; fresh_leaf.
  - unfold reviews_id_route.DELETE. exec. step_cases; fresh_leaf.
Qed.

Lemma reachable_ids_fresh w : reachable w → ids_fresh w.
Proof.
  induction 1 as [us next|w r _ IH|w w' _ IH (Hp & Ha & Hr & Hle & Hn)].
  - intros k _. simpl. by rewrite !lookup_empty.
  - by apply handle_ids_fresh.
  - intros k Hk. rewrite Hp, Ha, Hr.
    destruct (IH k) as (? & ? & ? & _); [lia|]. auto.
Qed.

(** In a reachable state the next id is the id of no stored document, so a
    document stored under it is a new one. *)
Lemma reachable_next_unused w :
  reachable w →
  posts w !! nextObjectId w = None ∧ applications w !! nextObjectId w = None
  ∧ reviews w !! nextObjectId w = None.
Proof.
  intros Hw.
  destruct (reachable_ids_fresh w Hw (nextObjectId w)) as (? & ? & ? & _);
    [lia | done].
Qed.

Lemma world_applied_reachable : reachable world_applied.
Proof. do 2 apply reachable_serve. constructor. Qed.

Lemma world_two_applicants_reachable : reachable world_two_applicants.
Proof. apply reachable_serve, world_applied_reachable. Qed.

(** ** Applying to a post *)

(** An apply request that passes the first three checks and finds the pair
    on file. *)
Lemma POST_apply_duplicate throws w session body p :
  TokenPayload.role session = PROVIDER →
  CreateApplicationSchema.safeParse body = inr body →
  posts w !! CreateApplicationSchema.postId body = Some p →
  IServicePost.status p = OPEN →
  IServicePost.userId p ≠ TokenPayload.userId session →
  has_applied w (CreateApplicationSchema.postId body)
              (TokenPayload.userId session) →
  applications_route.POST throws (Some session) body w
  = (w, NextResponse.json (JError "You have already applied to this post") 409).
Proof.
  intros Hrole Hvalid Ep Hopen Hown [existing Ef]%find_pair_Some.
  unfold applications_route.POST, applications_route.POST_checks.
  rewrite Hrole, Hvalid. exec. rewrite Ep. simpl.
  destruct (decide (IServicePost.status p ≠ OPEN)); [done|]. simpl.
  destruct (decide (IServicePost.userId p = TokenPayload.userId session));
    [done|]. simpl.
  by rewrite Ef.
Qed.

(** C1, as the code has it.  For an apply request of an authenticated
    provider whose body passes the request schema, the checks come in this
    order: unknown post, NotFound; post not OPEN, InvalidState; own post, a
    400 answer of the InvalidState kind (not the 403 of Forbidden); an
    application of this provider to this post on file, Conflict; and in none
    of these cases is anything written.  Otherwise, when the message still has
    ten characters once trimmed, a new Application is stored with status
    PENDING, under an id that no stored document has in a reachable state. *)
Theorem apply_checks_in_order (throws : bool) (w : World)
    (session : TokenPayload.t) (body : CreateApplicationSchema.t) :
  TokenPayload.role session = PROVIDER →
  CreateApplicationSchema.safeParse body = inr body →
  let pid := CreateApplicationSchema.postId body in
  let uid := TokenPayload.userId session in
  let out := applications_route.POST throws (Some session) body w in
  (posts w !! pid = None →
     out = (w, NextResponse.json (JError "Post not found") 404)
     ∧ error_kind out.2 = Some NotFound)
  ∧ (∀ p, posts w !! pid = Some p → IServicePost.status p ≠ OPEN →
       out = (w, NextResponse.json
                   (JError "This post is no longer accepting applications") 400)
       ∧ error_kind out.2 = Some InvalidState)
  ∧ (∀ p, posts w !! pid = Some p → IServicePost.status p = OPEN →
       IServicePost.userId p = uid →
       out = (w, NextResponse.json
                   (JError "You cannot apply to your own post") 400)
       ∧ error_kind out.2 = Some InvalidState)
  ∧ (∀ p, posts w !! pid = Some p → IServicePost.status p = OPEN →
       IServicePost.userId p ≠ uid → has_applied w pid uid →
       out = (w, NextResponse.json
                   (JError "You have already applied to this post") 409)
       ∧ error_kind out.2 = Some Conflict)
  ∧ (∀ p, posts w !! pid = Some p → IServicePost.status p = OPEN →
       IServicePost.userId p ≠ uid → ¬ has_applied w pid uid →
       Application.validate_message (trim (CreateApplicationSchema.message body))
         = None →
       let doc := IApplication.mk pid uid
                    (trim (CreateApplicationSchema.message body)) PENDING in
       out.2 = NextResponse.json
                 (JApplication (Some (nextObjectId w, doc))) 201
       ∧ applications out.1 = <[nextObjectId w := doc]> (applications w)
       ∧ (reachable w → applications w !! nextObjectId w = None)
       ∧ IApplication.status doc = PENDING
       ∧ posts out.1 = posts w).
Proof.
  intros Hrole Hvalid pid uid out. subst out pid uid.
  unfold applications_route.POST, applications_route.POST_checks.
  unfold applications_route.POST_write.
  rewrite Hrole, Hvalid. exec.
  destruct (posts w !! CreateApplicationSchema.postId body) as [p|] eqn:Ep;
    simpl; [|by repeat split; intros; simplify_eq/=].
  destruct (decide (IServicePost.status p ≠ OPEN)) as [Hs|Hs]; simpl;
    [by repeat split; intros; simplify_eq/=|].
  apply dec_stable in Hs.
  destruct (decide (IServicePost.userId p = TokenPayload.userId session))
    as [Hu|Hu]; simpl;
    [by repeat split; intros; simplify_eq/=|].
  destruct (find_one (Application.by_pair (CreateApplicationSchema.postId body)
                        (TokenPayload.userId session)) (applications w))
    as [existing|] eqn:Ef; simpl.
  { repeat split; intros; simplify_eq/=; try done.
    all: match goal with Hno : ¬ has_applied _ _ _ |- _ =>
           apply find_pair_None in Hno; congruence end. }
  assert (¬ has_applied w (CreateApplicationSchema.postId body)
            (TokenPayload.userId session)) as Hno.
  { intros Hyes%find_pair_Some. rewrite Ef in Hyes. by destruct Hyes. }
  repeat split; intros; simplify_eq/=; try done.
  all: try match goal with Hr : reachable _ |- _ =>
             by destruct (reachable_next_unused _ Hr) as (? & ? & ?) end.
  all: match goal with Hm : Application.validate_message _ = None |- _ =>
         rewrite Hm end; simpl; rewrite Ef; simpl.
  all: by destruct throws.
Qed.

Lemma apply_checks_in_order_witness :
  TokenPayload.role provider_B = PROVIDER
  ∧ CreateApplicationSchema.safeParse
      (CreateApplicationSchema.mk 100 cover_message)
    = inr (CreateApplicationSchema.mk 100 cover_message)
  ∧ applications
      (applications_route.POST false (Some provider_B)
         (CreateApplicationSchema.mk 100 cover_message) world_posted).1
    = <[101 := IApplication.mk 100 2 cover_message PENDING]>
        (applications world_posted).
Proof.
  split; [reflexivity|]. split; [reflexivity|].
  destruct (apply_checks_in_order false world_posted provider_B
              (CreateApplicationSchema.mk 100 cover_message) eq_refl eq_refl)
    as (_ & _ & _ & _ & Hok).
  destruct (Hok (IServicePost.mk 1 "Build a site"
                   "A landing page and a contact form" "Web Development"
                   250 OPEN))
    as (_ & Hstored & _).
  - vm_compute; reflexivity.
  - reflexivity.
  - vm_compute. intros [=].
  - intros (k & a & Hk & _). vm_compute in Hk. discriminate Hk.
  - vm_compute; reflexivity.
  - exact Hstored.
Defined.

(** The claim C1 says Forbidden for an application to one's own post; the
    route answers 400, the status of InvalidState.  Post 100 is OPEN and
    belongs to user 1, who applies to it. *)
Lemma apply_to_own_post_is_not_Forbidden :
  let session := TokenPayload.mk 1 PROVIDER in
  let body := CreateApplicationSchema.mk 100 cover_message in
  let out := applications_route.POST false (Some session) body world_posted in
  (∃ p, posts world_posted !! 100 = Some p
        ∧ IServicePost.status p = OPEN
        ∧ IServicePost.userId p = TokenPayload.userId session)
  ∧ out.2 = NextResponse.json (JError "You cannot apply to your own post") 400
  ∧ error_kind out.2 ≠ Some Forbidden.
Proof.
  split; [|split].
  - eexists. split; [vm_compute; reflexivity|]. split; reflexivity.
  - vm_compute; reflexivity.
  - vm_compute. intros [=].
Qed.

(** A message of eleven characters passes the request schema; trimmed it has
    five, the model refuses it, and the route answers 500. *)
Example apply_padded_message :
  let body := CreateApplicationSchema.mk 100 "   hello   " in
  let out := applications_route.POST false (Some provider_B) body world_posted in
  CreateApplicationSchema.safeParse body = inr body
  ∧ Application.validate_message (trim (CreateApplicationSchema.message body))
    = Some "Message must be at least 10 characters"
  ∧ NextResponse.status out.2 = 500
  ∧ applications out.1 = applications world_posted.
Proof. repeat split; vm_compute; reflexivity. Qed.

(** ** A second application to the same post *)

(** C2, as the code has it.  In every state the routes can reach, also when
    the write of an apply request runs late, a post and a provider share at
    most one Application, and an apply request keeps it so.  While an
    Application of the provider to the post is on file, a further apply
    request of that provider to that post writes no Application; it is
    answered with Conflict when the post is still there, still OPEN and not the
    provider's own; and the write itself, reached with the pair on file and a
    message that passes the schema once trimmed, is refused by the unique index
    and answered with the same Conflict. *)
Theorem second_apply_conflicts (throws : bool) (w : World)
    (session : TokenPayload.t) (body : CreateApplicationSchema.t) :
  reachable_with_races w →
  TokenPayload.role session = PROVIDER →
  CreateApplicationSchema.safeParse body = inr body →
  let pid := CreateApplicationSchema.postId body in
  let uid := TokenPayload.userId session in
  let message := CreateApplicationSchema.message body in
  let out := applications_route.POST throws (Some session) body w in
  let late post :=
    try_handler (applications_route.POST_write throws session post pid message)
                applications_route.POST_catch w in
  unique_pairs w
  ∧ unique_pairs out.1
  ∧ (∀ post, unique_pairs (late post).1)
  ∧ (has_applied w pid uid →
       applications out.1 = applications w
       ∧ (∀ p, posts w !! pid = Some p → IServicePost.status p = OPEN →
            IServicePost.userId p ≠ uid →
            out = (w, NextResponse.json
                        (JError "You have already applied to this post") 409)
            ∧ error_kind out.2 = Some Conflict)
       ∧ (∀ post, applications (late post).1 = applications w)
       ∧ (∀ post, Application.validate_message (trim message) = None →
            late post = (w, NextResponse.json
                              (JError "You have already applied to this post") 409)
            ∧ error_kind (late post).2 = Some Conflict)).
Proof.
  intros Hw Hrole Hvalid pid uid message out late.
  split; [by apply raced_unique_pairs|].
  split; [apply raced_unique_pairs; by apply (raced_step w (Apply _ _ _))|].
  split; [intros post; apply raced_unique_pairs; by constructor|].
  intros Hyes.
  destruct (find_pair_Some w pid uid Hyes) as [existing Ef].
  split; [|split; [|split]].
  - subst out pid uid. unfold applications_route.POST,
      applications_route.POST_checks. rewrite Hrole, Hvalid. exec.
    destruct (posts w !! _) as [p|]; simpl; [|done].
    destruct (decide (IServicePost.status p ≠ OPEN)); simpl; [done|].
    destruct (decide (IServicePost.userId p = _)); simpl; [done|].
    by rewrite Ef.
  - intros p Hp Hopen Hown. subst out pid uid.
    by rewrite (POST_apply_duplicate throws w session body p).
  - intros post.
    destruct (late_write_applications throws session post pid message w)
      as [Hsame|[Hno _]]; done.
  - intros post Hmsg. subst late. unfold applications_route.POST_write,
      applications_route.POST_catch. exec. subst pid uid message.
    by rewrite Hmsg, Ef.
Qed.

Lemma second_apply_conflicts_witness :
  reachable_with_races world_applied
  ∧ TokenPayload.role provider_B = PROVIDER
  ∧ CreateApplicationSchema.safeParse
      (CreateApplicationSchema.mk 100 cover_message)
    = inr (CreateApplicationSchema.mk 100 cover_message)
  ∧ has_applied world_applied 100 2
  ∧ error_kind (applications_route.POST false (Some provider_B)
                  (CreateApplicationSchema.mk 100 cover_message)
                  world_applied).2 = Some Conflict.
Proof.
  assert (has_applied world_applied 100 2) as Hyes.
  { exists 101, (IApplication.mk 100 2 cover_message PENDING).
    split; [vm_compute; reflexivity|]. split; reflexivity. }
  split; [apply reachable_raced, world_applied_reachable|].
  split; [reflexivity|]. split; [reflexivity|]. split; [exact Hyes|].
  destruct (second_apply_conflicts false world_applied provider_B
              (CreateApplicationSchema.mk 100 cover_message)
              (reachable_raced _ world_applied_reachable) eq_refl eq_refl)
    as (_ & _ & _ & Hdup).
  destruct (Hdup Hyes) as (_ & Hopen & _).
  destruct (Hopen (IServicePost.mk 1 "Build a site"
                     "A landing page and a contact form" "Web Development"
                     250 OPEN)) as [_ Hkind].
  - vm_compute; reflexivity.
  - reflexivity.
  - vm_compute. intros [=].
  - exact Hkind.
Defined.

(** The claim C2 promises Conflict for any second apply.  Provider B applies
    to post 100 and is accepted, which closes the post: the second apply of B
    is answered with the 400 of a closed post.  And once B has withdrawn
    application 101, the second apply of B is accepted and stores an
    Application again. *)
Lemma second_apply_is_not_always_Conflict :
  let body := CreateApplicationSchema.mk 100 cover_message in
  let again := applications_route.POST false (Some provider_B) body in
  NextResponse.status (again world_posted).2 = 201
  ∧ world_applied = (again world_posted).1
  ∧ has_applied world_accepted 100 2
  ∧ (again world_accepted).2
    = NextResponse.json
        (JError "This post is no longer accepting applications") 400
  ∧ error_kind (again world_accepted).2 ≠ Some Conflict
  ∧ NextResponse.status
      (again (serve [Withdraw (Some provider_B) 101] world_applied)).2 = 201.
Proof.
  intros body again.
  split; [vm_compute; reflexivity|]. split; [reflexivity|].
  split; [|split; [|split]].
  - exists 101, (IApplication.mk 100 2 cover_message ACCEPTED).
    split; [vm_compute; reflexivity|]. split; reflexivity.
  - vm_compute; reflexivity.
  - vm_compute. intros [=].
  - vm_compute; reflexivity.
Qed.

(** ** Deciding on an application *)

(** What [PATCH] does when the seeker who owns the post asks for ACCEPTED or
    REJECTED: the current status of the application is not looked at, and
    the status is written before the provider is populated. *)
Lemma PATCH_by_owner missing throws w session id body a p :
  TokenPayload.role session = SEEKER →
  applications w !! id = Some a →
  posts w !! IApplication.postId a = Some p →
  IServicePost.userId p = TokenPayload.userId session →
  UpdateStatusSchema.status body ≠ PENDING →
  let s := UpdateStatusSchema.status body in
  let out := applications_id_route.PATCH missing throws (Some session) id
               body w in
  applications out.1 = alter (Application.set_status s) id (applications w)
  ∧ reviews out.1 = reviews w ∧ users out.1 = users w
  ∧ (if missing
     then out.2 = NextResponse.json (JError "Internal Server Error") 500
          ∧ posts out.1 = posts w
          ∧ notifications out.1 = notifications w
     else out.2 = NextResponse.json
                    (JApplication (Some (id, Application.set_status s a))) 200
          ∧ posts out.1 = (if decide (s = ACCEPTED)
                           then alter (ServicePost.apply_update close_post)
                                      (IApplication.postId a) (posts w)
                           else posts w)).
Proof.
  intros Hrole Ea Ep Hown Hs s out. subst s out.
  unfold applications_id_route.PATCH. rewrite Hrole. exec.
  rewrite Ea. simpl. rewrite Ep. simpl.
  destruct (decide (IServicePost.userId p ≠ TokenPayload.userId session));
    [done|]. simpl.
  unfold UpdateStatusSchema.safeParse.
  destruct body as [[| |]]; simpl in *; [done| |].
  all: rewrite lookup_alter_eq, Ea; simpl.
  all: by destruct missing, throws.
Qed.

(** C3, as the code has it.  The status update of the seeker who owns the
    post never looks at the current status: it refuses the target PENDING and
    otherwise overwrites the status with the target, ACCEPTED or REJECTED.  So
    an application that has left PENDING does not return to it through this
    path, while nothing keeps it at ACCEPTED or at REJECTED.  The write comes
    first: the answer is 200 when the provider can be populated and 500 when
    the [User] model is missing, and the status is overwritten in both
    cases. *)
Theorem status_update_overwrites (missing throws : bool) (w : World)
    (session : TokenPayload.t) (id : ObjectId) (body : UpdateStatusSchema.t)
    (a : IApplication.t) (p : IServicePost.t) :
  TokenPayload.role session = SEEKER →
  applications w !! id = Some a →
  posts w !! IApplication.postId a = Some p →
  IServicePost.userId p = TokenPayload.userId session →
  let target := UpdateStatusSchema.status body in
  let out := applications_id_route.PATCH missing throws (Some session) id
               body w in
  (target = PENDING →
     out = (w, NextResponse.json (JIssue InvalidEnumValue) 400))
  ∧ (target ≠ PENDING →
       NextResponse.status out.2 = (if missing then 500 else 200)
       ∧ applications out.1 !! id = Some (Application.set_status target a)
       ∧ IApplication.status (Application.set_status target a) = target)
  ∧ (IApplication.status a ≠ PENDING →
       ∃ a', applications out.1 !! id = Some a'
             ∧ IApplication.status a' ≠ PENDING).
Proof.
  intros Hrole Ea Ep Hown target out.
  assert (target = PENDING →
          out = (w, NextResponse.json (JIssue InvalidEnumValue) 400)) as Hpending.
  { intros Ht. subst target out. unfold applications_id_route.PATCH.
    rewrite Hrole. exec. rewrite Ea. simpl. rewrite Ep. simpl.
    destruct (decide (IServicePost.userId p ≠ TokenPayload.userId session));
      [done|]. simpl.
    unfold UpdateStatusSchema.safeParse. by rewrite Ht. }
  assert (target ≠ PENDING →
          NextResponse.status out.2 = (if missing then 500 else 200)
          ∧ applications out.1 !! id = Some (Application.set_status target a))
    as Hdecided.
  { intros Ht.
    destruct (PATCH_by_owner missing throws w session id body a p Hrole Ea Ep
                Hown Ht) as (Happs & _ & _ & Hres).
    subst out target. rewrite Happs, lookup_alter_eq, Ea.
    split; [|done]. by destruct missing; destruct Hres as [-> _]. }
  split; [exact Hpending|]. split.
  - intros Ht. destruct (Hdecided Ht) as [? ?]. done.
  - intros Ha. destruct (decide (target = PENDING)) as [Ht|Ht].
    + exists a. rewrite (Hpending Ht). done.
    + exists (Application.set_status target a).
      destruct (Hdecided Ht) as [_ ?]. done.
Qed.

Lemma status_update_overwrites_witness :
  TokenPayload.role seeker_S = SEEKER
  ∧ applications world_accepted !! 101 = Some application_101
  ∧ posts world_accepted !! 100 = Some post_100_closed
  ∧ applications
      (applications_id_route.PATCH false false (Some seeker_S) 101
         (UpdateStatusSchema.mk REJECTED) world_accepted).1 !! 101
    = Some (Application.set_status REJECTED application_101).
Proof.
  split; [reflexivity|]. split; [vm_compute; reflexivity|].
  split; [vm_compute; reflexivity|].
  destruct (status_update_overwrites false false world_accepted seeker_S 101
              (UpdateStatusSchema.mk REJECTED) application_101 post_100_closed)
    as (_ & Hset & _).
  - reflexivity.
  - vm_compute; reflexivity.
  - vm_compute; reflexivity.
  - reflexivity.
  - destruct Hset as (_ & Hnow & _); [intros [=] | exact Hnow].
Defined.

(** The claim C3 says an ACCEPTED application keeps its status under the
    status update.  Application 101 is ACCEPTED; the owner of its post asks
    for REJECTED and the application is REJECTED. *)
Lemma accepted_application_gets_rejected :
  let out := applications_id_route.PATCH false false (Some seeker_S) 101
               (UpdateStatusSchema.mk REJECTED) world_accepted in
  IApplication.status <$> applications world_accepted !! 101 = Some ACCEPTED
  ∧ NextResponse.status out.2 = 200
  ∧ IApplication.status <$> applications out.1 !! 101 = Some REJECTED.
Proof. repeat split; vm_compute; reflexivity. Qed.

(** ** Accepting an application *)

(** Accepting where the provider can be populated.  When the seeker who
    owns the post sets application [id] to ACCEPTED, the post of that
    application becomes CLOSED and every other application is left exactly
    as it was; when the target is REJECTED no post changes. *)
Lemma accept_closes_the_post (throws : bool) (w : World)
    (session : TokenPayload.t) (id : ObjectId)
    (a : IApplication.t) (p : IServicePost.t) :
  TokenPayload.role session = SEEKER →
  applications w !! id = Some a →
  posts w !! IApplication.postId a = Some p →
  IServicePost.userId p = TokenPayload.userId session →
  let accepted := applications_id_route.PATCH false throws (Some session) id
                    (UpdateStatusSchema.mk ACCEPTED) w in
  let rejected := applications_id_route.PATCH false throws (Some session) id
                    (UpdateStatusSchema.mk REJECTED) w in
  (NextResponse.status accepted.2 = 200
   ∧ IApplication.status <$> applications accepted.1 !! id = Some ACCEPTED
   ∧ IServicePost.status <$> posts accepted.1 !! IApplication.postId a
     = Some CLOSED
   ∧ (∀ k, k ≠ id → applications accepted.1 !! k = applications w !! k)
   ∧ (∀ k, k ≠ IApplication.postId a → posts accepted.1 !! k = posts w !! k))
  ∧ (NextResponse.status rejected.2 = 200
     ∧ IApplication.status <$> applications rejected.1 !! id = Some REJECTED
     ∧ posts rejected.1 = posts w
     ∧ (∀ k, k ≠ id → applications rejected.1 !! k = applications w !! k)).
Proof.
  intros Hrole Ea Ep Hown accepted rejected. split.
  - destruct (PATCH_by_owner false throws w session id
                (UpdateStatusSchema.mk ACCEPTED) a p Hrole Ea Ep Hown)
      as (Happs & _ & _ & Hres & Hposts); [done|].
    subst accepted. simpl in *. rewrite Hres, Happs, Hposts.
    rewrite !lookup_alter_eq, Ea, Ep. repeat split; try done.
    + intros k Hk. by rewrite lookup_alter_ne.
    + intros k Hk. by rewrite lookup_alter_ne.
  - destruct (PATCH_by_owner false throws w session id
                (UpdateStatusSchema.mk REJECTED) a p Hrole Ea Ep Hown)
      as (Happs & _ & _ & Hres & Hposts); [done|].
    subst rejected. simpl in *. rewrite Hres, Happs, Hposts.
    rewrite !lookup_alter_eq, Ea. repeat split; try done.
    intros k Hk. by rewrite lookup_alter_ne.
Qed.

(** Accepting where the [User] model is missing from the registry of the
    process: the status ACCEPTED is stored, the populate throws, and the
    lines that close the post and notify the provider are not reached.  The
    application is ACCEPTED, its post is as it was, and the answer is 500. *)
Lemma accept_without_User (throws : bool) (w : World)
    (session : TokenPayload.t) (id : ObjectId)
    (a : IApplication.t) (p : IServicePost.t) :
  TokenPayload.role session = SEEKER →
  applications w !! id = Some a →
  posts w !! IApplication.postId a = Some p →
  IServicePost.userId p = TokenPayload.userId session →
  let out := applications_id_route.PATCH true throws (Some session) id
               (UpdateStatusSchema.mk ACCEPTED) w in
  NextResponse.status out.2 = 500
  ∧ IApplication.status <$> applications out.1 !! id = Some ACCEPTED
  ∧ posts out.1 = posts w
  ∧ notifications out.1 = notifications w.
Proof.
  intros Hrole Ea Ep Hown out.
  destruct (PATCH_by_owner true throws w session id
              (UpdateStatusSchema.mk ACCEPTED) a p Hrole Ea Ep Hown)
    as (Happs & _ & _ & Hres & Hposts & Hnotes); [done|].
  subst out. simpl in *. rewrite Hres, Happs, Hposts, Hnotes.
  by rewrite lookup_alter_eq, Ea.
Qed.

(** C4 at a failing input.  Providers B and C have applied to post 100 of
    seeker S, who accepts application 101 in a process that has not loaded
    models/User.ts.  The claim says the post is set to CLOSED; the code
    stores ACCEPTED, throws in the populate that follows, and never reaches
    the lines that close the post: the application is ACCEPTED, the post is
    still OPEN, no notification is written, and the answer is 500. *)
Theorem accept_leaves_the_post_open :
  let out := applications_id_route.PATCH true false (Some seeker_S) 101
               (UpdateStatusSchema.mk ACCEPTED) world_two_applicants in
  IServicePost.userId <$> posts world_two_applicants !! 100 = Some 1
  ∧ IApplication.status <$> applications world_two_applicants !! 101
    = Some PENDING
  ∧ NextResponse.status out.2 = 500
  ∧ IApplication.status <$> applications out.1 !! 101 = Some ACCEPTED
  ∧ IServicePost.status <$> posts out.1 !! 100 = Some OPEN
  ∧ notifications out.1 = notifications world_two_applicants.
Proof. repeat split; vm_compute; reflexivity. Qed.

(** The same request in a process that has loaded the model: the post is
    CLOSED and application 103 is as it was. *)
Example accept_with_User :
  let out := applications_id_route.PATCH false false (Some seeker_S) 101
               (UpdateStatusSchema.mk ACCEPTED) world_two_applicants in
  NextResponse.status out.2 = 200
  ∧ IServicePost.status <$> posts out.1 !! 100 = Some CLOSED
  ∧ applications out.1 !! 103 = applications world_two_applicants !! 103.
Proof. repeat split; vm_compute; reflexivity. Qed.

(** ** Reviewing an accepted application *)

(** A body that passed the request schema passes the validators of the
    Review model. *)
Lemma review_validators_pass body :
  CreateReviewSchema.safeParse body = inr body →
  first_error [ Review.validate_rating (CreateReviewSchema.rating body);
                Review.validate_comment
                  (trim <$> CreateReviewSchema.comment body) ] = None.
Proof.
  unfold CreateReviewSchema.safeParse, Review.validate_rating,
    Review.validate_comment, first_error.
  destruct (CreateReviewSchema.rating body <? 1)%Z; [done|].
  destruct (5 <? CreateReviewSchema.rating body)%Z; [done|].
  destruct (CreateReviewSchema.comment body) as [c|]; simpl; [|done].
  destruct (500 <? len c)%Z eqn:Ec; [done|]. intros _.
  pose proof (trim_len c). apply Z.ltb_ge in Ec.
  assert ((500 <? len (trim c))%Z = false) as -> by (apply Z.ltb_ge; lia).
  done.
Qed.

(** The ratings of a provider are not empty once a review of that provider
    is stored. *)
Lemma ratings_of_insert pid k r (m : gmap ObjectId IReview.t) :
  IReview.providerId r = pid → Review.ratings_of pid (<[k := r]> m) ≠ [].
Proof.
  intros Hr Hnil. unfold Review.ratings_of in Hnil.
  apply fmap_nil_inv, map_to_list_empty_iff in Hnil.
  assert (filter (λ x : ObjectId * IReview.t, IReview.providerId x.2 = pid)
                 (<[k := r]> m) !! k = Some r) as Hk.
  { apply map_lookup_filter_Some. by rewrite lookup_insert_eq. }
  by rewrite Hnil, lookup_empty in Hk.
Qed.

(** The write of a review request once the checks have passed: the review
    is stored, then the provider's two rating fields are recomputed from the
    stored reviews. *)
Lemma POST_write_review throws w session a body :
  CreateReviewSchema.safeParse body = inr body →
  ¬ has_review w (CreateReviewSchema.applicationId body) →
  let pid := IApplication.providerId a in
  let doc := IReview.mk (TokenPayload.userId session) pid
               (CreateReviewSchema.applicationId body)
               (CreateReviewSchema.rating body)
               (trim <$> CreateReviewSchema.comment body) in
  let out := reviews_route.POST_write throws session a body w in
  let stored := aggregate_of (Review.ratings_of pid (reviews out.1)) in
  out.2 = inr (NextResponse.json (JReview (nextObjectId w, doc)) 201)
  ∧ reviews out.1 = <[nextObjectId w := doc]> (reviews w)
  ∧ users out.1 = alter (User.set_rating stored.1 stored.2) pid (users w)
  ∧ posts out.1 = posts w ∧ applications out.1 = applications w.
Proof.
  intros Hvalid Hno pid doc out stored. subst out stored.
  unfold reviews_route.POST_write. exec.
  rewrite (review_validators_pass body Hvalid). simpl.
  rewrite (find_review_None w _ Hno). simpl.
  fold pid. fold doc.
  pose proof (ratings_of_insert pid (nextObjectId w) doc (reviews w) eq_refl)
    as Hne.
  destruct (Review.ratings_of pid (<[nextObjectId w:=doc]> (reviews w)))
    as [|x rs] eqn:Ers; [done|]. simpl.
  destruct throws; simpl; rewrite Ers; done.
Qed.

(** A review request that passes every check. *)
Lemma POST_review_passes throws w session body a :
  TokenPayload.role session = SEEKER →
  CreateReviewSchema.safeParse body = inr body →
  applications w !! CreateReviewSchema.applicationId body = Some a →
  IApplication.status a = ACCEPTED →
  owns w (TokenPayload.userId session) (IApplication.postId a) →
  ¬ has_review w (CreateReviewSchema.applicationId body) →
  let pid := IApplication.providerId a in
  let doc := IReview.mk (TokenPayload.userId session) pid
               (CreateReviewSchema.applicationId body)
               (CreateReviewSchema.rating body)
               (trim <$> CreateReviewSchema.comment body) in
  let out := reviews_route.POST throws (Some session) body w in
  let stored := aggregate_of (Review.ratings_of pid (reviews out.1)) in
  out.2 = NextResponse.json (JReview (nextObjectId w, doc)) 201
  ∧ reviews out.1 = <[nextObjectId w := doc]> (reviews w)
  ∧ users out.1 = alter (User.set_rating stored.1 stored.2) pid (users w)
  ∧ posts out.1 = posts w ∧ applications out.1 = applications w.
Proof.
  intros Hrole Hvalid Ea Hacc Hown Hno pid doc out stored.
  subst out stored doc pid.
  unfold reviews_route.POST, reviews_route.POST_checks.
  rewrite Hrole, Hvalid. exec. rewrite Ea. simpl.
  destruct (decide (IApplication.status a ≠ ACCEPTED)); [done|]. simpl.
  destruct (owned_by_Some _ _ _ Hown) as [p ->]. simpl.
  rewrite (find_review_None w _ Hno). simpl.
  pose proof (POST_write_review throws w session a body Hvalid Hno) as Hw.
  simpl in Hw.
  destruct (reviews_route.POST_write throws session a body w) as [w' res].
  simpl in Hw. by destruct Hw as (-> & Hr & Hu & Hp & Happ).
Qed.

(** C5.  For a review request of an authenticated seeker whose body passes
    the request schema, the checks come in this order: unknown application,
    NotFound; application not ACCEPTED, InvalidState; post of the application
    not owned by the seeker, Forbidden; a review of the application on file,
    Conflict, which is also the answer when it is the unique index that
    refuses the write; and nothing is written in these cases.  Otherwise the
    review is stored and the provider's average and count are recomputed from
    the stored reviews. *)
Theorem review_checks_in_order (throws : bool) (w : World)
    (session : TokenPayload.t) (body : CreateReviewSchema.t) :
  TokenPayload.role session = SEEKER →
  CreateReviewSchema.safeParse body = inr body →
  let aid := CreateReviewSchema.applicationId body in
  let uid := TokenPayload.userId session in
  let out := reviews_route.POST throws (Some session) body w in
  (applications w !! aid = None →
     out = (w, NextResponse.json (JError "Application not found") 404)
     ∧ error_kind out.2 = Some NotFound)
  ∧ (∀ a, applications w !! aid = Some a →
       IApplication.status a ≠ ACCEPTED →
       out = (w, NextResponse.json
                   (JError "Can only review accepted applications") 400)
       ∧ error_kind out.2 = Some InvalidState)
  ∧ (∀ a, applications w !! aid = Some a →
       IApplication.status a = ACCEPTED →
       ¬ owns w uid (IApplication.postId a) →
       out = (w, NextResponse.json (JError "Forbidden") 403)
       ∧ error_kind out.2 = Some Forbidden)
  ∧ (∀ a, applications w !! aid = Some a →
       IApplication.status a = ACCEPTED →
       owns w uid (IApplication.postId a) →
       has_review w aid →
       out = (w, NextResponse.json
                   (JError "Review already submitted for this application") 409)
       ∧ error_kind out.2 = Some Conflict)
  ∧ (∀ a, has_review w aid →
       let late := try_handler (reviews_route.POST_write throws session a body)
                               reviews_route.POST_catch w in
       late = (w, NextResponse.json (JError "Review already submitted") 409)
       ∧ error_kind late.2 = Some Conflict)
  ∧ (∀ a, applications w !! aid = Some a →
       IApplication.status a = ACCEPTED →
       owns w uid (IApplication.postId a) →
       ¬ has_review w aid →
       let pid := IApplication.providerId a in
       let doc := IReview.mk uid pid aid (CreateReviewSchema.rating body)
                    (trim <$> CreateReviewSchema.comment body) in
       let stored := aggregate_of (Review.ratings_of pid (reviews out.1)) in
       out.2 = NextResponse.json (JReview (nextObjectId w, doc)) 201
       ∧ reviews out.1 = <[nextObjectId w := doc]> (reviews w)
       ∧ (reachable w → reviews w !! nextObjectId w = None)
       ∧ users out.1 = alter (User.set_rating stored.1 stored.2) pid (users w)
       ∧ (is_Some (users w !! pid) →
          stored_rating out.1 pid
          = Some (round1 (mean (Review.ratings_of pid (reviews out.1))),
                  Z.of_nat (length (Review.ratings_of pid (reviews out.1)))))
       ∧ (∀ k, k ≠ pid → users out.1 !! k = users w !! k)
       ∧ posts out.1 = posts w ∧ applications out.1 = applications w).
Proof.
  intros Hrole Hvalid aid uid out.
  assert (∀ a, has_review w aid →
    try_handler (reviews_route.POST_write throws session a body)
                reviews_route.POST_catch w
    = (w, NextResponse.json (JError "Review already submitted") 409)) as Hlate.
  { intros a [existing Ef]%find_review_Some.
    unfold reviews_route.POST_write, reviews_route.POST_catch. exec.
    rewrite (review_validators_pass body Hvalid). simpl.
    subst aid. by rewrite Ef. }
  subst out aid uid.
  unfold reviews_route.POST, reviews_route.POST_checks.
  rewrite Hrole, Hvalid. exec.
  destruct (applications w !! CreateReviewSchema.applicationId body)
    as [a|] eqn:Ea; simpl.
  2: { repeat split; intros; simplify_eq/=; try done.
       all: by rewrite Hlate. }
  destruct (decide (IApplication.status a ≠ ACCEPTED)) as [Hs|Hs]; simpl.
  { repeat split; intros; simplify_eq/=; try done.
    all: by rewrite Hlate. }
  apply dec_stable in Hs.
  destruct (owned_by (TokenPayload.userId session)
              (posts w !! IApplication.postId a)) as [p|] eqn:Eo; simpl.
  2: { repeat split; intros; simplify_eq/=; try done.
       all: try by rewrite Hlate.
       all: match goal with Ho : owns _ _ _ |- _ =>
              apply owned_by_Some in Ho; destruct Ho; congruence end. }
  assert (owns w (TokenPayload.userId session) (IApplication.postId a)) as Ho.
  { destruct (posts w !! IApplication.postId a) as [q|] eqn:Eq; [|done].
    simpl in Eo. exists q. split; [done|].
    destruct (decide (IServicePost.userId q ≠ TokenPayload.userId session))
      as [|Heq]; [done|]. by apply dec_stable in Heq. }
  destruct (find_one (Review.by_application
                        (CreateReviewSchema.applicationId body)) (reviews w))
    as [existing|] eqn:Ef; simpl.
  { repeat split; intros; simplify_eq/=; try done.
    all: try by rewrite Hlate.
    all: match goal with Hn : ¬ has_review _ _ |- _ =>
           apply find_review_None in Hn; congruence end. }
  assert (¬ has_review w (CreateReviewSchema.applicationId body)) as Hno.
  { intros Hyes%find_review_Some. rewrite Ef in Hyes. by destruct Hyes. }
  pose proof (POST_write_review throws w session a body Hvalid Hno) as Hw.
  simpl in Hw.
  destruct (reviews_route.POST_write throws session a body w) as [w' res].
  simpl in Hw. destruct Hw as (-> & Hr & Hu & Hp & Happ).
  assert (is_Some (users w !! IApplication.providerId a) →
          stored_rating w' (IApplication.providerId a)
          = Some (round1 (mean (Review.ratings_of (IApplication.providerId a)
                                  (reviews w'))),
                  Z.of_nat (length (Review.ratings_of
                                      (IApplication.providerId a)
                                      (reviews w'))))) as Hstored.
  { intros [u Hsome]. unfold stored_rating.
    rewrite Hu, lookup_alter_eq, Hsome. simpl.
    assert (Review.ratings_of (IApplication.providerId a) (reviews w') ≠ [])
      as Hne.
    { rewrite Hr. by apply ratings_of_insert. }
    unfold aggregate_of.
    by destruct (Review.ratings_of (IApplication.providerId a) (reviews w')). }
  repeat split; intros; simplify_eq/=; try done.
  all: try match goal with Hreach : reachable _ |- _ =>
             by destruct (reachable_next_unused _ Hreach) as (? & ? & ?) end.
  all: try (rewrite Hu; by rewrite lookup_alter_ne).
  all: try by apply Hstored.
  all: by rewrite Hlate.
Qed.

Lemma review_checks_in_order_witness :
  TokenPayload.role seeker_S = SEEKER
  ∧ CreateReviewSchema.safeParse
      (CreateReviewSchema.mk 101 5 (Some "Great work"))
    = inr (CreateReviewSchema.mk 101 5 (Some "Great work"))
  ∧ reviews (reviews_route.POST false (Some seeker_S)
               (CreateReviewSchema.mk 101 5 (Some "Great work"))
               world_accepted).1
    = <[104 := IReview.mk 1 2 101 5 (Some "Great work")]>
        (reviews world_accepted)
  ∧ stored_rating world_accepted 2 = Some (0%Q, 0%Z)
  ∧ stored_rating (reviews_route.POST false (Some seeker_S)
                     (CreateReviewSchema.mk 101 5 (Some "Great work"))
                     world_accepted).1 2
    = Some (5%Q, 1%Z).
Proof.
  split; [reflexivity|]. split; [reflexivity|].
  destruct (review_checks_in_order false world_accepted seeker_S
              (CreateReviewSchema.mk 101 5 (Some "Great work"))
              eq_refl eq_refl)
    as (_ & _ & _ & _ & _ & Hok).
  destruct (Hok application_101) as (_ & Hstored & _ & _ & Hrating & _).
  - vm_compute; reflexivity.
  - reflexivity.
  - exists post_100_closed. split; [vm_compute; reflexivity | reflexivity].
  - intros (k & r & Hk & _). vm_compute in Hk. discriminate Hk.
  - split; [exact Hstored|]. split; [vm_compute; reflexivity|].
    assert (is_Some (users world_accepted
                     !! IApplication.providerId application_101)) as Hsome
      by (eexists; vm_compute; reflexivity).
    etrans; [exact (Hrating Hsome)|]. vm_compute; reflexivity.
Defined.

(** ** The rating aggregate *)

(** The ratings the aggregation reads are those of the stored reviews that
    name the provider, each review counted once. *)
Lemma ratings_of_reviews pid (m : gmap ObjectId IReview.t) :
  ∃ l : list (ObjectId * IReview.t),
    NoDup l.*1
    ∧ (∀ k r, (k, r) ∈ l ↔ m !! k = Some r ∧ IReview.providerId r = pid)
    ∧ Review.ratings_of pid m = (λ x, IReview.rating x.2) <$> l.
Proof.
  exists (map_to_list
            (filter (λ x : ObjectId * IReview.t, IReview.providerId x.2 = pid)
                    m)).
  split; [apply NoDup_fst_map_to_list|]. split; [|done].
  intros k r. by rewrite elem_of_map_to_list, map_lookup_filter_Some.
Qed.

(** [round1] rounds to one decimal place: its value is a number of tenths
    and lies within half a tenth of its argument. *)
Lemma round1_nearest_tenth (x : Q) :
  ∃ n : Z, (round1 x == inject_Z n / 10)%Q
           ∧ (Qabs (x - round1 x) <= 1 # 20)%Q.
Proof.
  unfold round1, Math_round. exists (Qfloor (x * 10 + (1 # 2))).
  rewrite Qred_correct. split; [reflexivity|].
  pose proof (Qfloor_le (x * 10 + (1 # 2))) as Hlo.
  pose proof (Qlt_floor (x * 10 + (1 # 2))) as Hhi.
  rewrite inject_Z_plus in Hhi. change (inject_Z 1) with 1%Q in Hhi.
  set (n := inject_Z (Qfloor (x * 10 + (1 # 2)))) in *. clearbody n.
  assert (n / 10 == n * (1 # 10))%Q as -> by field.
  apply Qabs_Qle_condition. split; lra.
Qed.

(** What [DELETE] of a review does for its author: the review is removed,
    then the provider's two rating fields are recomputed from the reviews
    that remain. *)
Lemma DELETE_review_by_author w session id r :
  reviews w !! id = Some r →
  IReview.seekerId r = TokenPayload.userId session →
  let pid := IReview.providerId r in
  let out := reviews_id_route.DELETE (Some session) id w in
  let stored := aggregate_of (Review.ratings_of pid (reviews out.1)) in
  out.2 = NextResponse.json (JMessage "Review deleted") 200
  ∧ reviews out.1 = delete id (reviews w)
  ∧ users out.1 = alter (User.set_rating stored.1 stored.2) pid (users w)
  ∧ posts out.1 = posts w ∧ applications out.1 = applications w.
Proof.
  intros Er Hauthor pid out stored. subst out stored.
  unfold reviews_id_route.DELETE. exec. rewrite Er. simpl.
  destruct (decide (IReview.seekerId r ≠ TokenPayload.userId session));
    [done|]. simpl. fold pid.
  by destruct (Review.ratings_of pid (delete id (reviews w))).
Qed.

(** C6.  After the author deletes a review, the provider's User record holds
    the mean of the ratings of the provider's remaining reviews, rounded to
    one decimal place, and their number, and it holds 0 and 0 when no review
    remains; after a review is created it holds the rounded mean and the
    number of the provider's reviews, the new one included.  The ratings are
    those of the stored reviews that name the provider, each counted once, and
    the rounded value is a number of tenths at most half a tenth away from
    the mean.  With ratings 5,
    5, 4, 3 the record holds 4.3 and 4; once the review with rating 3 is
    deleted it holds 4.7 and 3; once all are deleted it holds 0 and 0. *)
Theorem rating_is_rounded_mean (w : World) (session : TokenPayload.t)
    (id : ObjectId) (r : IReview.t) (u : IUser.t) :
  reviews w !! id = Some r →
  IReview.seekerId r = TokenPayload.userId session →
  users w !! IReview.providerId r = Some u →
  let pid := IReview.providerId r in
  let out := reviews_id_route.DELETE (Some session) id w in
  let remaining := Review.ratings_of pid (reviews out.1) in
  reviews out.1 = delete id (reviews w)
  ∧ (remaining ≠ [] →
       stored_rating out.1 pid
       = Some (round1 (mean remaining), Z.of_nat (length remaining)))
  ∧ (remaining = [] → stored_rating out.1 pid = Some (0%Q, 0%Z))
  ∧ (∀ k, k ≠ pid → users out.1 !! k = users w !! k)
  ∧ (∀ throws seeker body a provider,
       TokenPayload.role seeker = SEEKER →
       CreateReviewSchema.safeParse body = inr body →
       applications w !! CreateReviewSchema.applicationId body = Some a →
       IApplication.status a = ACCEPTED →
       owns w (TokenPayload.userId seeker) (IApplication.postId a) →
       ¬ has_review w (CreateReviewSchema.applicationId body) →
       users w !! IApplication.providerId a = Some provider →
       let created := reviews_route.POST throws (Some seeker) body w in
       let ratings := Review.ratings_of (IApplication.providerId a)
                        (reviews created.1) in
       ratings ≠ []
       ∧ stored_rating created.1 (IApplication.providerId a)
         = Some (round1 (mean ratings), Z.of_nat (length ratings)))
  ∧ (∀ provider (m : gmap ObjectId IReview.t),
       ∃ l : list (ObjectId * IReview.t),
         NoDup l.*1
         ∧ (∀ k r', (k, r') ∈ l
                    ↔ m !! k = Some r' ∧ IReview.providerId r' = provider)
         ∧ Review.ratings_of provider m = (λ x, IReview.rating x.2) <$> l)
  ∧ (∀ x, ∃ n : Z, (round1 x == inject_Z n / 10)%Q
                   ∧ (Qabs (x - round1 x) <= 1 # 20)%Q)
  ∧ (Review.ratings_of 2 (reviews world_four_reviews) ≡ₚ [5; 5; 4; 3]%Z
     ∧ stored_rating world_four_reviews 2 = Some (43 # 10, 4%Z)
     ∧ stored_rating
         (serve [DeleteReview (Some seeker_S) 122] world_four_reviews) 2
       = Some (47 # 10, 3%Z)
     ∧ stored_rating
         (serve (DeleteReview (Some seeker_S) <$> [122; 116; 118; 120])
                world_four_reviews) 2
       = Some (0%Q, 0%Z)).
Proof.
  intros Er Hauthor Eu pid out remaining.
  destruct (DELETE_review_by_author w session id r Er Hauthor)
    as (_ & Hrev & Husers & _).
  subst pid. fold out in Hrev, Husers. fold remaining in Husers.
  split; [exact Hrev|].
  split; [|split; [|split; [|split; [|split; [|split]]]]].
  - intros Hne. unfold stored_rating.
    rewrite Husers, lookup_alter_eq, Eu. simpl.
    by destruct remaining.
  - intros Hnil. unfold stored_rating.
    rewrite Husers, lookup_alter_eq, Eu. simpl. by rewrite Hnil.
  - intros k Hk. by rewrite Husers, lookup_alter_ne.
  - intros throws seeker body a provider Hrole Hvalid Ea Hacc Hown Hnone Ep
           created ratings.
    destruct (POST_review_passes throws w seeker body a Hrole Hvalid Ea Hacc
                Hown Hnone) as (_ & Hr & Hu & _).
    fold created in Hr, Hu. fold ratings in Hu.
    assert (ratings ≠ []) as Hne.
    { subst ratings. rewrite Hr. by apply ratings_of_insert. }
    split; [exact Hne|]. unfold stored_rating.
    rewrite Hu, lookup_alter_eq, Ep. simpl. by destruct ratings.
  - apply ratings_of_reviews.
  - apply round1_nearest_tenth.
  - split; [apply (bool_decide_unpack _); vm_compute; exact I|].
    repeat split; vm_compute; reflexivity.
Qed.

Lemma rating_is_rounded_mean_witness :
  reviews world_four_reviews !! 122 = Some (IReview.mk 1 2 110 3 None)
  ∧ users world_four_reviews !! 2 = Some (IUser.mk "Bea" PROVIDER (43 # 10) 4)
  ∧ reviews (reviews_id_route.DELETE (Some seeker_S) 122 world_four_reviews).1
    = delete 122 (reviews world_four_reviews).
Proof.
  split; [vm_compute; reflexivity|]. split; [vm_compute; reflexivity|].
  destruct (rating_is_rounded_mean world_four_reviews seeker_S 122
              (IReview.mk 1 2 110 3 None)
              (IUser.mk "Bea" PROVIDER (43 # 10) 4))
    as (Hgone & _).
  - vm_compute; reflexivity.
  - reflexivity.
  - vm_compute; reflexivity.
  - exact Hgone.
Defined.

(** ** Withdrawing an application *)

(** C7. Withdrawal by an authenticated provider: an unknown application id
    gives NotFound, another provider's application gives Forbidden, an
    application that is not PENDING (so ACCEPTED or REJECTED) gives
    InvalidState, and in these three cases the database is left as it was;
    the provider's own PENDING application is removed for good.  The
    withdrawal succeeds only in that last case. *)
Theorem withdraw_only_own_pending
    (w : World) (session : TokenPayload.t) (id : ObjectId) :
  TokenPayload.role session = PROVIDER →
  let out := applications_id_route.DELETE (Some session) id w in
  (applications w !! id = None →
     out = (w, NextResponse.json (JError "Application not found") 404)
     ∧ error_kind out.2 = Some NotFound)
  ∧ (∀ a, applications w !! id = Some a →
       IApplication.providerId a ≠ TokenPayload.userId session →
       out = (w, NextResponse.json (JError "Forbidden: not your application") 403)
       ∧ error_kind out.2 = Some Forbidden)
  ∧ (∀ a, applications w !! id = Some a →
       IApplication.providerId a = TokenPayload.userId session →
       IApplication.status a = ACCEPTED ∨ IApplication.status a = REJECTED →
       out = (w, NextResponse.json
                   (JError "Only pending applications can be withdrawn") 400)
       ∧ error_kind out.2 = Some InvalidState
       ∧ applications out.1 !! id = Some a)
  ∧ (∀ a, applications w !! id = Some a →
       IApplication.providerId a = TokenPayload.userId session →
       IApplication.status a = PENDING →
       out.2 = NextResponse.json
                 (JMessage "Application withdrawn successfully") 200
       ∧ applications out.1 = delete id (applications w)
       ∧ applications out.1 !! id = None
       ∧ posts out.1 = posts w ∧ reviews out.1 = reviews w
       ∧ users out.1 = users w)
  ∧ (NextResponse.status out.2 = 200 →
       ∃ a, applications w !! id = Some a
            ∧ IApplication.providerId a = TokenPayload.userId session
            ∧ IApplication.status a = PENDING).
Proof.
  intros Hrole out. subst out. unfold applications_id_route.DELETE.
  exec. rewrite Hrole. simpl.
  destruct (applications w !! id) as [a|] eqn:Ea; simpl;
    [|by repeat split; intros; simplify_eq/=].
  destruct (decide (IApplication.providerId a ≠ TokenPayload.userId session))
    as [Hne|Heq]; simpl;
    [by repeat split; intros; simplify_eq/=|].
  apply dec_stable in Heq.
  destruct (decide (IApplication.status a ≠ PENDING)) as [Hs|Hs]; simpl;
    [by repeat split; intros; simplify_eq/=|].
  apply dec_stable in Hs.
  repeat split; intros; simplify_eq/=; try done.
  - destruct_or!; congruence.
  - destruct_or!; congruence.
  - destruct_or!; congruence.
  - by rewrite lookup_delete_eq.
  - eauto.
Qed.

Lemma withdraw_only_own_pending_witness :
  TokenPayload.role provider_B = PROVIDER
  ∧ applications world_applied !! 101
      = Some (IApplication.mk 100 2 cover_message PENDING)
  ∧ applications (applications_id_route.DELETE (Some provider_B) 101
                    world_applied).1 !! 101 = None
  ∧ error_kind (applications_id_route.DELETE (Some provider_B) 101
                  world_accepted).2 = Some InvalidState.
Proof.
  split; [reflexivity|]. split; [vm_compute; reflexivity|]. split.
  - destruct (withdraw_only_own_pending world_applied provider_B 101 eq_refl)
      as (_ & _ & _ & Hok & _).
    destruct (Hok (IApplication.mk 100 2 cover_message PENDING))
      as (_ & _ & Hgone & _); [vm_compute; reflexivity.. | exact Hgone].
  - destruct (withdraw_only_own_pending world_accepted provider_B 101 eq_refl)
      as (_ & _ & Hno & _).
    destruct (Hno (IApplication.mk 100 2 cover_message ACCEPTED))
      as (_ & Hkind & _); [vm_compute; reflexivity.. | | exact Hkind].
    left. reflexivity.
Defined.

(** ** Deleting a post *)

(** What [DELETE] of a post does for its owner. *)
Lemma DELETE_post_by_owner w session id p :
  TokenPayload.role session = SEEKER →
  posts w !! id = Some p →
  IServicePost.userId p = TokenPayload.userId session →
  posts_id_route.DELETE (Some session) id w
  = ((ServicePost.findByIdAndDelete id (Application.deleteMany id w).1).1,
     NextResponse.json (JMessage "Post deleted successfully") 200).
Proof.
  intros Hrole Ep Hown. unfold posts_id_route.DELETE. rewrite Hrole. exec.
  rewrite Ep. simpl.
  by destruct (decide (IServicePost.userId p ≠ TokenPayload.userId session)).
Qed.

(** C8.  In every state the routes can reach, each Application refers to a
    Post that exists, and deleting a post keeps it so.  When its owner
    deletes a post, the applications that refer to the post are deleted first
    and the post itself after them, whatever the status of these
    applications; the other applications stay. *)
Theorem post_delete_cascades (w : World) (session : TokenPayload.t)
    (id : ObjectId) :
  reachable w →
  let out := posts_id_route.DELETE (Some session) id w in
  refs_valid w
  ∧ refs_valid out.1
  ∧ (∀ p, TokenPayload.role session = SEEKER →
       posts w !! id = Some p →
       IServicePost.userId p = TokenPayload.userId session →
       out.2 = NextResponse.json (JMessage "Post deleted successfully") 200
       ∧ out.1 = (ServicePost.findByIdAndDelete id
                    (Application.deleteMany id w).1).1
       ∧ posts out.1 !! id = None
       ∧ (∀ k a, applications out.1 !! k = Some a →
                 IApplication.postId a ≠ id)
       ∧ (∀ k a, applications w !! k = Some a →
                 IApplication.postId a ≠ id →
                 applications out.1 !! k = Some a)
       ∧ (∀ k, k ≠ id → posts out.1 !! k = posts w !! k)).
Proof.
  intros Hw out.
  split; [by apply reachable_refs_valid|].
  split.
  { apply reachable_refs_valid.
    exact (reachable_step w (DeletePost (Some session) id) Hw). }
  intros p Hrole Ep Hown. subst out.
  rewrite (DELETE_post_by_owner w session id p Hrole Ep Hown). exec.
  split; [done|]. split; [done|].
  split; [by rewrite lookup_delete_eq|].
  split; [|split].
  - intros k a Hk%map_lookup_filter_Some. by destruct Hk.
  - intros k a Hk Hne. by apply map_lookup_filter_Some.
  - intros k Hk. by rewrite lookup_delete_ne.
Qed.

Lemma post_delete_cascades_witness :
  reachable world_two_applicants
  ∧ (∃ a b, applications world_two_applicants !! 101 = Some a
            ∧ applications world_two_applicants !! 103 = Some b
            ∧ IApplication.postId a = 100 ∧ IApplication.postId b = 100)
  ∧ refs_valid
      (posts_id_route.DELETE (Some seeker_S) 100 world_two_applicants).1
  ∧ applications
      (posts_id_route.DELETE (Some seeker_S) 100 world_two_applicants).1 = ∅.
Proof.
  split; [apply world_two_applicants_reachable|]. split.
  { do 2 eexists. split; [vm_compute; reflexivity|].
    split; [vm_compute; reflexivity|]. split; reflexivity. }
  destruct (post_delete_cascades world_two_applicants seeker_S 100
              world_two_applicants_reachable) as (_ & Hvalid & _).
  split; [exact Hvalid|]. vm_compute; reflexivity.
Defined.

(** C10.  Deleting a post changes neither the reviews nor any user record.
    So a review can outlive its application: after post 100 is deleted, review
    104 still refers to application 101, which is gone, and still counts in
    the stored rating of provider B. *)
Theorem post_delete_keeps_reviews (w : World)
    (session : option TokenPayload.t) (id : ObjectId) :
  let out := posts_id_route.DELETE session id w in
  reviews out.1 = reviews w
  ∧ users out.1 = users w
  ∧ (let gone := posts_id_route.DELETE (Some seeker_S) 100 world_reviewed in
     reachable world_reviewed
     ∧ NextResponse.status gone.2 = 200
     ∧ reviews gone.1 !! 104 = Some (IReview.mk 1 2 101 5 (Some "Great work"))
     ∧ applications world_reviewed !! 101 = Some application_101
     ∧ applications gone.1 !! 101 = None
     ∧ Review.ratings_of 2 (reviews gone.1) = [5%Z]
     ∧ stored_rating gone.1 2 = Some (5%Q, 1%Z)).
Proof.
  intros out. subst out. split; [|split].
  - unfold posts_id_route.DELETE. exec. step_cases; done.
  - unfold posts_id_route.DELETE. exec. step_cases; done.
  - split; [do 4 apply reachable_serve; constructor|].
    repeat split; vm_compute; reflexivity.
Qed.

(** ** Notifications are best effort *)

(** C9.  The notification helper returns normally whether the write of the
    notification throws or succeeds, and touches no post, application, review
    or user.  For the three routes that notify (apply, status update, review
    create), the response and the posts, applications, reviews and users that
    are stored are the same in both cases: the failure is logged and goes no
    further.  So an apply whose notification fails is still answered 201, with
    no notification stored. *)
Theorem notification_failure_is_swallowed (missing : bool) (w : World)
    (session : option TokenPayload.t) (id : ObjectId)
    (apply_body : CreateApplicationSchema.t)
    (status_body : UpdateStatusSchema.t) (review_body : CreateReviewSchema.t) :
  (∀ throws userId type title message link,
     ∃ w', createNotification throws userId type title message link w
           = (w', inr tt)
           ∧ posts w' = posts w ∧ applications w' = applications w
           ∧ reviews w' = reviews w ∧ users w' = users w)
  ∧ same_outcome (applications_route.POST true session apply_body w)
               (applications_route.POST false session apply_body w)
  ∧ same_outcome
      (applications_id_route.PATCH missing true session id status_body w)
      (applications_id_route.PATCH missing false session id status_body w)
  ∧ same_outcome (reviews_route.POST true session review_body w)
                 (reviews_route.POST false session review_body w)
  ∧ (let failed := applications_route.POST true (Some provider_B)
                     (CreateApplicationSchema.mk 100 cover_message)
                     world_posted in
     NextResponse.status failed.2 = 201
     ∧ notifications failed.1 = notifications world_posted
     ∧ console failed.1 = ["createNotification failed:"]).
Proof.
  unfold same_outcome. split; [|split; [|split; [|split]]].
  - intros. apply createNotification_frame.
  - unfold applications_route.POST, applications_route.POST_checks,
      applications_route.POST_write. exec. step_cases; done.
  - unfold applications_id_route.PATCH. exec. step_cases; done.
  - unfold reviews_route.POST, reviews_route.POST_checks,
      reviews_route.POST_write. exec. step_cases; done.
  - repeat split; vm_compute; reflexivity.
Qed.

(** ** The writes of the lifecycle routes *)

Lemma CreatePostSchema_parsed b d :
  CreatePostSchema.safeParse b = inr d → d = b.
Proof.
  unfold CreatePostSchema.safeParse. repeat case_match; congruence.
Qed.

Lemma UpdatePostSchema_parsed b d :
  UpdatePostSchema.safeParse b = inr d → d = b.
Proof.
  unfold UpdatePostSchema.safeParse. repeat case_match; congruence.
Qed.

Lemma CreateApplicationSchema_parsed b d :
  CreateApplicationSchema.safeParse b = inr d → d = b.
Proof.
  unfold CreateApplicationSchema.safeParse. repeat case_match; congruence.
Qed.

Lemma UpdateStatusSchema_parsed b d :
  UpdateStatusSchema.safeParse b = inr d
  → d = b ∧ UpdateStatusSchema.status b ≠ PENDING.
Proof.
  unfold UpdateStatusSchema.safeParse.
  destruct (UpdateStatusSchema.status b) eqn:E; intros [= <-]; by rewrite ?E.
Qed.

Lemma CreateReviewSchema_parsed b d :
  CreateReviewSchema.safeParse b = inr d → d = b.
Proof.
  unfold CreateReviewSchema.safeParse. repeat case_match; congruence.
Qed.

Lemma owned_by_inv uid o p :
  owned_by uid o = Some p → o = Some p ∧ IServicePost.userId p = uid.
Proof.
  destruct o as [q|]; simpl; [|done].
  destruct (decide (IServicePost.userId q ≠ uid)) as [|Heq]; [done|].
  apply dec_stable in Heq. by intros [= <-].
Qed.

Lemma has_review_find w aid :
  find_one (Review.by_application aid) (reviews w) = None →
  ¬ has_review w aid.
Proof.
  intros Ef Hyes%find_review_Some. rewrite Ef in Hyes. by destruct Hyes.
Qed.

Ltac parsed :=
  repeat match goal with
         | H : CreatePostSchema.safeParse ?b = inr ?d |- _ =>
             assert_fails (constr_eq b d);
             pose proof (CreatePostSchema_parsed _ _ H); subst d
         | H : UpdatePostSchema.safeParse ?b = inr ?d |- _ =>
             assert_fails (constr_eq b d);
             pose proof (UpdatePostSchema_parsed _ _ H); subst d
         | H : CreateApplicationSchema.safeParse ?b = inr ?d |- _ =>
             assert_fails (constr_eq b d);
             pose proof (CreateApplicationSchema_parsed _ _ H); subst d
         | H : CreateReviewSchema.safeParse ?b = inr ?d |- _ =>
             assert_fails (constr_eq b d);
             pose proof (CreateReviewSchema_parsed _ _ H); subst d
         | H : UpdateStatusSchema.safeParse ?b = inr ?d |- _ =>
             let Hd := fresh in
             destruct (UpdateStatusSchema_parsed _ _ H) as [Hd ?];
             clear H; subst d
         | H : decide _ = _ |- _ => clear H
         | H : ¬ (_ ≠ _) |- _ => apply dec_stable in H
         end.

(** Each route performs one of the writes of [transition], and only under
    the conditions listed there. *)
Lemma handle_transition (r : Request) (w : World) :
  transition w (handle r w).1 r.
Proof.
  destruct r; simpl.
  - unfold posts_route.POST. exec. step_cases; parsed.
    all: try by apply t_nothing.
    all: by apply t_post_created.
  - unfold posts_id_route.PATCH. exec. step_cases; parsed.
    all: try by apply t_nothing.
    all: by eapply t_post_updated.
  - unfold posts_id_route.DELETE. exec. step_cases; parsed.
    all: try by apply t_nothing.
    all: by eapply t_post_deleted.
  - unfold applications_route.POST, applications_route.POST_checks,
      applications_route.POST_write. exec. step_cases; parsed.
    all: try by apply t_nothing.
    all: eapply t_applied; eauto using has_applied_find.
  - unfold applications_id_route.PATCH. exec. step_cases; parsed.
    all: try by apply t_nothing.
    all: match goal with H : owned_by _ _ = Some _ |- _ =>
           apply owned_by_inv in H; destruct H end.
    all: eapply t_decided; eauto; simpl.
    all: first [by rewrite decide_True | by rewrite decide_False].
  - unfold applications_id_route.DELETE. exec. step_cases; parsed.
    all: try by apply t_nothing.
    all: by eapply t_withdrawn.
  - unfold reviews_route.POST, reviews_route.POST_checks,
      reviews_route.POST_write. exec. step_cases; parsed.
    all: try by apply t_nothing.
    all: try by (exfalso;
                 match goal with H : Review.ratings_of _ (<[_:=_]> _) = [] |- _ =>
                   eapply ratings_of_insert; [|exact H] end).
    all: match goal with H : owned_by _ _ = Some _ |- _ =>
           apply owned_by_inv in H; destruct H end.
    all: eapply t_reviewed; eauto using has_review_find; simpl.
    all: try by eexists.
    all: unfold recompute_rating, new_review; simpl.
    all: match goal with H : Review.ratings_of _ _ = _ :: _ |- _ =>
           by rewrite H end.
  - unfold reviews_id_route.DELETE. exec. step_cases; parsed.
    all: try by apply t_nothing.
    all: eapply t_review_deleted; eauto; simpl.
    all: unfold recompute_rating; simpl.
    all: match goal with H : Review.ratings_of _ _ = _ |- _ =>
           by rewrite H end.
Qed.

(** ** Well-formed documents *)

Lemma first_error_None checks :
  first_error checks = None ↔ Forall (λ c, c = None) checks.
Proof.
  unfold first_error. rewrite head_None. induction checks as [|[e|] cs IH].
  - split; [by constructor | done].
  - split; [done | by inversion 1].
  - simpl. rewrite IH. split; [by constructor | by inversion 1].
Qed.

Lemma validate_title_None s :
  ServicePost.validate_title s = None → (5 <= len s <= 100)%Z.
Proof.
  unfold ServicePost.validate_title. repeat case_match; try done. lia.
Qed.

Lemma validate_description_None s :
  ServicePost.validate_description s = None → (20 <= len s <= 2000)%Z.
Proof.
  unfold ServicePost.validate_description. repeat case_match; try done. lia.
Qed.

Lemma validate_category_None s :
  ServicePost.validate_category s = None → s ∈ CATEGORIES.
Proof. unfold ServicePost.validate_category. by case_decide. Qed.

Lemma validate_budget_None b :
  ServicePost.validate_budget b = None → (0 <= b)%Q.
Proof.
  unfold ServicePost.validate_budget.
  destruct (Qle_bool 0 b) eqn:E; [|done]. intros _. by apply Qle_bool_iff.
Qed.

Lemma validate_message_None s :
  Application.validate_message s = None → (10 <= len s <= 1000)%Z.
Proof.
  unfold Application.validate_message. repeat case_match; try done. lia.
Qed.

Lemma post_errors_None p : post_errors p = None → post_ok p.
Proof.
  unfold post_errors. rewrite first_error_None, !Forall_cons.
  intros (Ht & Hd & Hc & Hb & _).
  split; [by apply validate_title_None|].
  split; [by apply validate_description_None|].
  split; [by apply validate_category_None | by apply validate_budget_None].
Qed.

Lemma update_keeps_post_ok u p :
  update_errors u = None → post_ok p → post_ok (ServicePost.apply_update u p).
Proof.
  unfold update_errors. rewrite first_error_None, !Forall_cons.
  intros (Ht & Hd & Hc & Hb & _) (Pt & Pd & Pc & Pb).
  unfold post_ok, ServicePost.apply_update. simpl.
  destruct (ServicePost.title u), (ServicePost.description u),
    (ServicePost.category u), (ServicePost.budget u); simpl in *.
  all: repeat split.
  all: first [ apply validate_title_None; assumption
             | apply validate_description_None; assumption
             | by apply validate_category_None
             | by apply validate_budget_None
             | apply Pt | apply Pd | apply Pc | apply Pb ].
Qed.

Lemma parsed_review_ok seekerId providerId body :
  CreateReviewSchema.safeParse body = inr body →
  review_ok (new_review seekerId providerId body).
Proof.
  unfold CreateReviewSchema.safeParse, review_ok, new_review. simpl.
  destruct (CreateReviewSchema.rating body <? 1)%Z eqn:E1; [done|].
  destruct (5 <? CreateReviewSchema.rating body)%Z eqn:E2; [done|].
  apply Z.ltb_ge in E1, E2.
  destruct (CreateReviewSchema.comment body) as [c|]; simpl.
  - destruct (500 <? len c)%Z eqn:E3; [done|]. apply Z.ltb_ge in E3.
    intros _. split; [lia|]. intros ? [= <-]. pose proof (trim_len c). lia.
  - intros _. split; [lia | done].
Qed.

Lemma transition_documents_valid r w w' :
  transition w w' r → documents_valid w → documents_valid w'.
Proof.
  intros Ht (Hp & Ha & Hr).
  destruct Ht as [r Ep Ea Er _
    | m s b _ _ Hok Ep Ea Er _
    | s id b p _ _ _ _ Hok Ep Ea Er _
    | s id p _ _ _ Ep Ea Er _
    | t s b p _ _ _ _ _ _ Hok Ep Ea Er _
    | m t s id b a p _ _ _ _ _ Ep Ea Er _
    | s id a _ _ _ _ Ep Ea Er _
    | t s b a _ Hok _ _ _ _ Ep Ea Er _
    | s id rv _ _ Ep Ea Er _ ];
    (split; [|split]).
  all: try (intros k x; rewrite ?Ep, ?Ea, ?Er; by eauto).
  - intros k x. rewrite Ep, lookup_insert_Some.
    intros [[_ <-]|[_ Hk]]; [by apply post_errors_None | by eapply Hp].
  - intros k x. rewrite Ep, lookup_alter_Some.
    intros [(_ & q & Hq & ->)|[_ Hk]]; [|by eapply Hp].
    apply update_keeps_post_ok; [done | by eapply Hp].
  - intros k x. rewrite Ep, lookup_delete_Some. intros [_ Hk]. by eapply Hp.
  - intros k x. rewrite Ea, map_lookup_filter_Some. intros [Hk _].
    by eapply Ha.
  - intros k x. rewrite Ea, lookup_insert_Some.
    intros [[_ <-]|[_ Hk]]; [by apply validate_message_None | by eapply Ha].
  - intros k x. rewrite Ep. destruct m; [by eauto|].
    case_decide; [|by eauto].
    rewrite lookup_alter_Some.
    intros [(_ & q & Hq & ->)|[_ Hk]]; [|by eapply Hp].
    exact (Hp _ _ Hq).
  - intros k x. rewrite Ea, lookup_alter_Some.
    intros [(_ & q & Hq & ->)|[_ Hk]]; [exact (Ha _ _ Hq) | by eapply Ha].
  - intros k x. rewrite Ea, lookup_delete_Some. intros [_ Hk]. by eapply Ha.
  - intros k x. rewrite Er, lookup_insert_Some.
    intros [[_ <-]|[_ Hk]]; [by apply parsed_review_ok | by eapply Hr].
  - intros k x. rewrite Er, lookup_delete_Some. intros [_ Hk]. by eapply Hr.
Qed.

Lemma reachable_documents_valid (w : World) :
  reachable w → documents_valid w.
Proof.
  induction 1 as [us next|w r _ IH|w w' _ IH (Hp & Ha & Hr & _)].
  - split; [|split]; intros k x; simpl; by rewrite lookup_empty.
  - eapply transition_documents_valid; [apply handle_transition | exact IH].
  - destruct IH as (Ip & Ia & Ir).
    split; [|split]; intros k x; rewrite ?Hp, ?Ha, ?Hr; eauto.
Qed.

(** X1: In every reachable state each stored post, application and review is
    within the bounds of its schema: title of 5 to 100 characters,
    description of 20 to 2000, a known category and a budget that is not
    negative; message of 10 to 1000 characters; rating from 1 to 5 and comment
    of at most 500 characters. *)
Theorem stored_documents_are_valid (w : World) (k : ObjectId) :
  reachable w →
  (∀ p, posts w !! k = Some p → post_ok p)
  ∧ (∀ a, applications w !! k = Some a → application_ok a)
  ∧ (∀ r, reviews w !! k = Some r → review_ok r).
Proof.
  intros (Hp & Ha & Hr)%reachable_documents_valid.
  split; [|split]; intros x Hx; eauto.
Qed.

Lemma world_reviewed_reachable : reachable world_reviewed.
Proof. do 4 apply reachable_serve. constructor. Qed.

Lemma stored_documents_are_valid_witness :
  reachable world_reviewed
  ∧ post_ok post_100_closed ∧ application_ok application_101.
Proof.
  split; [apply world_reviewed_reachable|].
  destruct (stored_documents_are_valid world_reviewed 100
              world_reviewed_reachable) as (Hp & _).
  destruct (stored_documents_are_valid world_reviewed 101
              world_reviewed_reachable) as (_ & Ha & _).
  split; [apply Hp | apply Ha]; vm_compute; reflexivity.
Defined.

(** ** One review per application *)

Lemma transition_unique_reviews r w w' :
  transition w w' r → unique_reviews w → unique_reviews w'.
Proof.
  intros Ht Hu.
  destruct Ht as [r _ _ Er _
    | m s b _ _ _ _ _ Er _
    | s id b p _ _ _ _ _ _ _ Er _
    | s id p _ _ _ _ _ Er _
    | t s b p _ _ _ _ _ _ _ _ _ Er _
    | m t s id b a p _ _ _ _ _ _ _ Er _
    | s id a _ _ _ _ _ _ Er _
    | t s b a _ _ _ _ _ Hno _ _ Er _
    | s id rv _ _ _ _ Er _ ];
    intros k1 k2 r1 r2; rewrite Er; try by apply Hu.
  - rewrite !lookup_insert_Some.
    intros [[<- <-]|[Hk1 H1]] [[<- <-]|[Hk2 H2]] Heq; try done.
    + destruct Hno. by exists k2, r2.
    + destruct Hno. by exists k1, r1.
    + by apply (Hu k1 k2 r1 r2).
  - rewrite !lookup_delete_Some. intros [_ H1] [_ H2]. by apply Hu.
Qed.

(** X2: In every reachable state an application has at most one review. *)
Theorem one_review_per_application (w : World) :
  reachable w → unique_reviews w.
Proof.
  induction 1 as [us next|w r _ IH|w w' _ IH (_ & _ & Hr & _)].
  - intros k1 k2 r1 r2. simpl. by rewrite lookup_empty.
  - eapply transition_unique_reviews; [apply handle_transition | exact IH].
  - intros k1 k2 r1 r2. rewrite Hr. apply IH.
Qed.

Lemma one_review_per_application_witness :
  reachable world_reviewed ∧ unique_reviews world_reviewed.
Proof.
  split; [do 4 apply reachable_serve; constructor|].
  apply one_review_per_application. do 4 apply reachable_serve. constructor.
Defined.

(** ** The stored rating follows the reviews *)

Lemma ratings_of_insert_other uid k r (m : gmap ObjectId IReview.t) :
  m !! k = None → IReview.providerId r ≠ uid →
  Review.ratings_of uid (<[k := r]> m) = Review.ratings_of uid m.
Proof.
  intros Hk Hr. unfold Review.ratings_of.
  rewrite map_filter_insert_False by done. by rewrite delete_id.
Qed.

Lemma ratings_of_delete_other uid k r (m : gmap ObjectId IReview.t) :
  m !! k = Some r → IReview.providerId r ≠ uid →
  Review.ratings_of uid (delete k m) = Review.ratings_of uid m.
Proof.
  intros Hk Hr. unfold Review.ratings_of.
  rewrite map_filter_delete, delete_id; [done|].
  apply map_lookup_filter_None. right. intros x Hx. simpl. congruence.
Qed.

Lemma recompute_rating_in_sync pid rs rs' us :
  (∀ uid, uid ≠ pid → Review.ratings_of uid rs' = Review.ratings_of uid rs) →
  (∀ uid u, us !! uid = Some u →
     (IUser.averageRating u, IUser.reviewCount u)
     = aggregate_of (Review.ratings_of uid rs)) →
  ∀ uid u, recompute_rating pid rs' us !! uid = Some u →
    (IUser.averageRating u, IUser.reviewCount u)
    = aggregate_of (Review.ratings_of uid rs').
Proof.
  intros Hother Hsync uid u. unfold recompute_rating.
  rewrite lookup_alter_Some. intros [(<- & v & Hv & ->)|[Hne Hu]].
  - simpl. by destruct (aggregate_of _).
  - rewrite Hother by done. by apply Hsync.
Qed.

Lemma transition_ratings_in_sync r w w' :
  transition w w' r → ids_fresh w → ratings_in_sync w → ratings_in_sync w'.
Proof.
  intros Ht Hfresh Hs.
  destruct Ht as [r _ _ Er Eu
    | m s b _ _ _ _ _ Er Eu
    | s id b p _ _ _ _ _ _ _ Er Eu
    | s id p _ _ _ _ _ Er Eu
    | t s b p _ _ _ _ _ _ _ _ _ Er Eu
    | m t s id b a p _ _ _ _ _ _ _ Er Eu
    | s id a _ _ _ _ _ _ Er Eu
    | t s b a _ _ _ _ _ _ _ _ Er Eu
    | s id rv Hrv _ _ _ Er Eu ].
  1-7: intros uid u; rewrite Er, Eu; apply Hs.
  - intros uid u. rewrite Eu. apply (recompute_rating_in_sync _ (reviews w)); [|exact Hs].
    intros uid' Hne. rewrite Er. apply ratings_of_insert_other; [|done].
    by destruct (Hfresh (nextObjectId w)) as (_ & _ & ? & _).
  - intros uid u. rewrite Eu. apply (recompute_rating_in_sync _ (reviews w)); [|exact Hs].
    intros uid' Hne. rewrite Er. by apply (ratings_of_delete_other _ _ rv).
Qed.

Lemma serve_keeps (I : World → Prop) :
  (∀ r w, I w → I (handle r w).1) → ∀ rs w, I w → I (serve rs w).
Proof.
  intros Hstep rs. induction rs as [|r rs IH]; intros w Hw; [done|].
  simpl. apply IH, Hstep, Hw.
Qed.

Lemma serve_ratings_in_sync (us : gmap ObjectId IUser.t) (next : ObjectId)
    (rs : list Request) :
  (∀ uid u, us !! uid = Some u → default_rating u) →
  ratings_in_sync (serve rs (fresh_world us next)).
Proof.
  intros Hdef.
  apply (serve_keeps (λ w, ids_fresh w ∧ ratings_in_sync w)).
  - intros r w [Hf Hs]. split; [by apply handle_ids_fresh|].
    by apply (transition_ratings_in_sync r w); [apply handle_transition|..].
  - split; [apply reachable_ids_fresh; constructor|].
    intros uid u Hu. simpl in *. destruct (Hdef uid u Hu) as [-> ->].
    unfold Review.ratings_of. by rewrite map_filter_empty, map_to_list_empty.
Qed.

Lemma sample_users_default uid u :
  sample_users !! uid = Some u → default_rating u.
Proof.
  unfold sample_users. rewrite !lookup_insert_Some, lookup_singleton_Some.
  intros [[_ <-]|[_ [[_ <-]|[_ [_ <-]]]]]; done.
Qed.

(** X3: Starting from users with the default rating and no review, after
    any sequence of requests every user record holds exactly the rounded mean
    and the number of the reviews that name the user, and 0 and 0 when none
    does. *)
Theorem stored_rating_in_sync (us : gmap ObjectId IUser.t) (next : ObjectId)
    (rs : list Request) (uid : ObjectId) (u : IUser.t) :
  (∀ uid u, us !! uid = Some u → default_rating u) →
  let w := serve rs (fresh_world us next) in
  users w !! uid = Some u →
  (IUser.averageRating u, IUser.reviewCount u)
  = aggregate_of (Review.ratings_of uid (reviews w)).
Proof. intros Hdef w. by apply serve_ratings_in_sync. Qed.

Lemma sample_world_reachable : reachable sample_world.
Proof. apply reachable_serve. constructor. Qed.

Lemma sample_world_bea :
  users (serve sample_trace (fresh_world sample_users 100)) !! 2
  = Some bea_reviewed.
Proof. vm_compute. reflexivity. Qed.

Lemma stored_rating_in_sync_witness :
  (∀ uid u, sample_users !! uid = Some u → default_rating u)
  ∧ users (serve sample_trace (fresh_world sample_users 100)) !! 2
    = Some bea_reviewed
  ∧ (IUser.averageRating bea_reviewed, IUser.reviewCount bea_reviewed)
    = aggregate_of
        (Review.ratings_of 2
           (reviews (serve sample_trace (fresh_world sample_users 100)))).
Proof.
  split; [exact sample_users_default|]. split; [exact sample_world_bea|].
  exact (stored_rating_in_sync sample_users 100 sample_trace 2 bea_reviewed
           sample_users_default sample_world_bea).
Defined.

(** ** Bounds of the stored rating *)

Lemma sum_bounds (l : list Z) :
  Forall (λ x, 1 <= x <= 5)%Z l →
  (Z.of_nat (length l) <= Review.sum l <= 5 * Z.of_nat (length l))%Z.
Proof.
  induction 1 as [|x l Hx _ IH]; simpl; [lia|].
  unfold Review.sum in *. simpl. lia.
Qed.

Lemma Math_round_bounds (x : Q) (lo hi : Z) :
  (inject_Z lo <= x)%Q → (x <= inject_Z hi)%Q →
  (lo <= Math_round x <= hi)%Z.
Proof.
  intros Hlo Hhi. unfold Math_round. split.
  - rewrite <- (Qfloor_Z lo). apply Qfloor_resp_le. lra.
  - apply Z.lt_succ_r. rewrite Zlt_Qlt.
    eapply Qle_lt_trans; [apply Qfloor_le|].
    unfold Z.succ. rewrite inject_Z_plus. change (inject_Z 1) with 1%Q. lra.
Qed.

Lemma round1_mean_bounds (l : list Z) :
  l ≠ [] → Forall (λ x, 1 <= x <= 5)%Z l →
  (1 <= round1 (mean l) <= 5)%Q.
Proof.
  intros Hne Hl. pose proof (sum_bounds l Hl) as [Hlo Hhi].
  assert (0 < Z.of_nat (length l))%Z as Hn by (destruct l; [done | simpl; lia]).
  unfold mean.
  set (s := Review.sum l) in *. set (n := Z.of_nat (length l)) in *.
  assert (0 < inject_Z n)%Q as Hn'
    by (change (inject_Z 0 < inject_Z n)%Q; by rewrite <- Zlt_Qlt).
  assert (1 <= inject_Z s / inject_Z n)%Q as H1.
  { apply Qle_shift_div_l; [done|]. rewrite Qmult_1_l. by rewrite <- Zle_Qle. }
  assert (inject_Z s / inject_Z n <= 5)%Q as H5.
  { apply Qle_shift_div_r; [done|].
    change 5%Q with (inject_Z 5). rewrite <- inject_Z_mult. by rewrite <- Zle_Qle. }
  destruct (Math_round_bounds (inject_Z s / inject_Z n * 10) 10 50) as [Ha Hb].
  { change (inject_Z 10) with 10%Q. lra. }
  { change (inject_Z 50) with 50%Q. lra. }
  unfold round1. rewrite Qred_correct.
  rewrite Zle_Qle in Ha, Hb.
  change (inject_Z 10) with 10%Q in Ha. change (inject_Z 50) with 50%Q in Hb.
  set (m := inject_Z (Math_round (inject_Z s / inject_Z n * 10))) in *.
  clearbody m. assert (m / 10 == m * (1 # 10))%Q as -> by field. lra.
Qed.

Lemma ratings_of_bounds uid (m : gmap ObjectId IReview.t) :
  (∀ k r, m !! k = Some r → review_ok r) →
  Forall (λ x, 1 <= x <= 5)%Z (Review.ratings_of uid m).
Proof.
  intros Hok. destruct (ratings_of_reviews uid m) as (l & _ & Hl & ->).
  apply Forall_fmap, Forall_forall. intros [k r] [Hk _]%Hl. simpl.
  by destruct (Hok k r Hk).
Qed.

(** X4: Starting from users with the default rating and no review, after
    any sequence of requests a user's stored rating is either 0 with count 0
    or an average between 1 and 5 with a count of at least 1. *)
Theorem stored_rating_bounds (us : gmap ObjectId IUser.t) (next : ObjectId)
    (rs : list Request) (uid : ObjectId) (u : IUser.t) :
  (∀ uid u, us !! uid = Some u → default_rating u) →
  users (serve rs (fresh_world us next)) !! uid = Some u →
  (IUser.averageRating u = 0%Q ∧ IUser.reviewCount u = 0%Z)
  ∨ ((1 <= IUser.averageRating u <= 5)%Q ∧ (1 <= IUser.reviewCount u)%Z).
Proof.
  intros Hdef Hu.
  pose proof (serve_ratings_in_sync us next rs Hdef uid u Hu) as Hsync.
  assert (reachable (serve rs (fresh_world us next))) as Hreach
    by (apply reachable_serve; constructor).
  destruct (reachable_documents_valid _ Hreach) as (_ & _ & Hok).
  pose proof (ratings_of_bounds uid _ Hok) as Hl.
  destruct (Review.ratings_of uid (reviews (serve rs (fresh_world us next))))
    as [|x l] eqn:El; simpl in Hsync.
  - left. by injection Hsync.
  - right. injection Hsync as -> ->. split; [|simpl; lia].
    by apply round1_mean_bounds.
Qed.

Lemma stored_rating_bounds_witness :
  (∀ uid u, sample_users !! uid = Some u → default_rating u)
  ∧ users (serve sample_trace (fresh_world sample_users 100)) !! 2
    = Some bea_reviewed
  ∧ ((IUser.averageRating bea_reviewed = 0%Q
      ∧ IUser.reviewCount bea_reviewed = 0%Z)
     ∨ ((1 <= IUser.averageRating bea_reviewed <= 5)%Q
        ∧ (1 <= IUser.reviewCount bea_reviewed)%Z)).
Proof.
  split; [exact sample_users_default|]. split; [exact sample_world_bea|].
  exact (stored_rating_bounds sample_users 100 sample_trace 2 bea_reviewed
           sample_users_default sample_world_bea).
Defined.

(** ** What a request leaves alone, and who may write *)

Lemma transition_fields r w w' :
  transition w w' r → ids_fresh w →
  (∀ k p p', posts w !! k = Some p → posts w' !! k = Some p' →
     IServicePost.userId p' = IServicePost.userId p)
  ∧ (∀ k a a', applications w !! k = Some a → applications w' !! k = Some a' →
       IApplication.postId a' = IApplication.postId a
       ∧ IApplication.providerId a' = IApplication.providerId a
       ∧ IApplication.message a' = IApplication.message a)
  ∧ (∀ k v v', reviews w !! k = Some v → reviews w' !! k = Some v' → v' = v)
  ∧ (∀ k u u', users w !! k = Some u → users w' !! k = Some u' →
       IUser.name u' = IUser.name u ∧ IUser.role u' = IUser.role u).
Proof.
  intros Ht Hfresh.
  destruct (Hfresh (nextObjectId w)) as (Fp & Fa & Fr & _); [lia|].
  assert (∀ pid rs k u u', users w !! k = Some u →
            recompute_rating pid rs (users w) !! k = Some u' →
            IUser.name u' = IUser.name u ∧ IUser.role u' = IUser.role u)
    as Hrec.
  { intros pid rs k u u' Hu. unfold recompute_rating.
    rewrite lookup_alter_Some.
    intros [(_ & x & Hx & ->)|[_ Hx]]; simplify_eq; done. }
  destruct Ht as [r Ep Ea Er Eu
    | m s b _ _ _ Ep Ea Er Eu
    | s id b p _ _ _ _ _ Ep Ea Er Eu
    | s id p _ _ _ Ep Ea Er Eu
    | t s b p _ _ _ _ _ _ _ Ep Ea Er Eu
    | m t s id b a p _ _ _ _ _ Ep Ea Er Eu
    | s id a _ _ _ _ Ep Ea Er Eu
    | t s b a _ _ _ _ _ _ Ep Ea Er Eu
    | s id rv _ _ Ep Ea Er Eu ];
    (split; [|split; [|split]]).
  all: try (intros k x x' Hx; rewrite ?Ep, ?Ea, ?Er, ?Eu, Hx;
            by intros [= <-]).
  all: try (intros k x x'; rewrite Eu; by apply Hrec).
  - intros k x x' Hx. rewrite Ep, lookup_insert_Some.
    intros [[<- _]|[_ Hk]]; congruence.
  - intros k x x' Hx. rewrite Ep, lookup_alter_Some.
    intros [(_ & q & Hq & ->)|[_ Hk]]; by simplify_eq.
  - intros k x x' Hx. rewrite Ep, lookup_delete_Some.
    intros [_ Hk]. congruence.
  - intros k x x' Hx. rewrite Ea, map_lookup_filter_Some.
    intros [Hk _]. by simplify_eq.
  - intros k x x' Hx. rewrite Ea, lookup_insert_Some.
    intros [[<- _]|[_ Hk]]; [congruence | by simplify_eq].
  - intros k x x' Hx. rewrite Ep. destruct m; [congruence|].
    case_decide; [|congruence].
    rewrite lookup_alter_Some.
    intros [(_ & q & Hq & ->)|[_ Hk]]; by simplify_eq.
  - intros k x x' Hx. rewrite Ea, lookup_alter_Some.
    intros [(_ & q & Hq & ->)|[_ Hk]]; by simplify_eq.
  - intros k x x' Hx. rewrite Ea, lookup_delete_Some.
    intros [_ Hk]. by simplify_eq.
  - intros k x x' Hx. rewrite Er, lookup_insert_Some.
    intros [[<- _]|[_ Hk]]; congruence.
  - intros k x x' Hx. rewrite Er, lookup_delete_Some.
    intros [_ Hk]. congruence.
Qed.

(** X5: Serving a request in a reachable state never changes the owner of
    a post, the post, provider or message of an application, any field of a
    review, or the name or role of a user, as long as the document is still
    there afterwards. *)
Theorem requests_keep_identities (r : Request) (w : World) (k : ObjectId) :
  reachable w →
  let w' := (handle r w).1 in
  (∀ p p', posts w !! k = Some p → posts w' !! k = Some p' →
     IServicePost.userId p' = IServicePost.userId p)
  ∧ (∀ a a', applications w !! k = Some a → applications w' !! k = Some a' →
       IApplication.postId a' = IApplication.postId a
       ∧ IApplication.providerId a' = IApplication.providerId a
       ∧ IApplication.message a' = IApplication.message a)
  ∧ (∀ v v', reviews w !! k = Some v → reviews w' !! k = Some v' → v' = v)
  ∧ (∀ u u', users w !! k = Some u → users w' !! k = Some u' →
       IUser.name u' = IUser.name u ∧ IUser.role u' = IUser.role u).
Proof.
  intros Hw w'.
  destruct (transition_fields r w w' (handle_transition r w)
              (reachable_ids_fresh w Hw)) as (Hp & Ha & Hr & Hu).
  repeat split; intros; first [by eapply Hp | by eapply Ha | by eapply Hr
                              | by eapply Hu].
Qed.

Lemma transition_writers r w w' :
  transition w w' r → ids_fresh w →
  (∀ k p, posts w !! k = Some p → posts w' !! k ≠ Some p →
     ∃ s, session_of r = Some s ∧ TokenPayload.role s = SEEKER
          ∧ TokenPayload.userId s = IServicePost.userId p)
  ∧ (∀ k a, applications w !! k = Some a → applications w' !! k ≠ Some a →
       ∃ s, session_of r = Some s
            ∧ ((r = Withdraw (Some s) k ∧ TokenPayload.role s = PROVIDER
                ∧ TokenPayload.userId s = IApplication.providerId a)
               ∨ (TokenPayload.role s = SEEKER
                  ∧ owns w (TokenPayload.userId s) (IApplication.postId a))))
  ∧ (∀ k v, reviews w !! k = Some v → reviews w' !! k ≠ Some v →
       r = DeleteReview (session_of r) k
       ∧ ∃ s, session_of r = Some s
              ∧ TokenPayload.userId s = IReview.seekerId v).
Proof.
  intros Ht Hfresh.
  destruct (Hfresh (nextObjectId w)) as (Fp & Fa & Fr & _); [lia|].
  destruct Ht as [r Ep Ea Er Eu
    | m s b Hrole _ _ Ep Ea Er Eu
    | s id b p Hrole Hp Hown _ _ Ep Ea Er Eu
    | s id p Hrole Hp Hown Ep Ea Er Eu
    | t s b p Hrole _ _ _ _ _ _ Ep Ea Er Eu
    | m t s id b a p Hrole Ha Hp Hown _ Ep Ea Er Eu
    | s id a Hrole Ha Hown _ Ep Ea Er Eu
    | t s b a Hrole _ _ _ _ _ Ep Ea Er Eu
    | s id rv Hrv Hauthor Ep Ea Er Eu ];
    (split; [|split]).
  all: try (intros k x Hx; rewrite ?Ep, ?Ea, ?Er; by intros []).
  - intros k x Hx. rewrite Ep.
    rewrite lookup_insert_ne by congruence. by intros [].
  - intros k x Hx Hne. exists s. split; [done|]. split; [done|].
    destruct (decide (id = k)) as [->|Hk]; [congruence|].
    destruct Hne. by rewrite Ep, lookup_alter_ne.
  - intros k x Hx Hne. exists s. split; [done|]. split; [done|].
    destruct (decide (id = k)) as [->|Hk]; [congruence|].
    destruct Hne. by rewrite Ep, lookup_delete_ne.
  - intros k x Hx Hne. exists s. split; [done|]. right. split; [done|].
    destruct (decide (IApplication.postId x = id)) as [->|Hk];
      [by exists p|].
    destruct Hne. rewrite Ea. by apply map_lookup_filter_Some.
  - intros k x Hx. rewrite Ea.
    rewrite lookup_insert_ne by congruence. by intros [].
  - intros k x Hx Hne. exists s. split; [done|]. split; [done|].
    rewrite Ep in Hne. destruct m; [done|]. case_decide; [|done].
    destruct (decide (IApplication.postId a = k)) as [<-|Hk]; [congruence|].
    destruct Hne. by rewrite lookup_alter_ne.
  - intros k x Hx Hne. exists s. split; [done|]. right. split; [done|].
    destruct (decide (id = k)) as [->|Hk].
    + simplify_eq. by exists p.
    + destruct Hne. by rewrite Ea, lookup_alter_ne.
  - intros k x Hx Hne. exists s. split; [done|].
    destruct (decide (id = k)) as [->|Hk].
    + simplify_eq. by left.
    + destruct Hne. by rewrite Ea, lookup_delete_ne.
  - intros k x Hx. rewrite Er.
    rewrite lookup_insert_ne by congruence. by intros [].
  - intros k x Hx Hne.
    destruct (decide (id = k)) as [->|Hk].
    + simplify_eq. split; [done|]. by exists s.
    + destruct Hne. by rewrite Er, lookup_delete_ne.
Qed.

Lemma requests_keep_identities_witness :
  reachable world_applied
  ∧ ∀ a', applications
            (handle (UpdateStatus false false (Some seeker_S) 101
                       (UpdateStatusSchema.mk REJECTED)) world_applied).1
            !! 101 = Some a' →
          IApplication.providerId a' = 2.
Proof.
  split; [exact world_applied_reachable|]. intros a' Ha'.
  destruct (requests_keep_identities
              (UpdateStatus false false (Some seeker_S) 101
                 (UpdateStatusSchema.mk REJECTED))
              world_applied 101 world_applied_reachable)
    as (_ & Ha & _).
  destruct (Ha (IApplication.mk 100 2 cover_message PENDING) a')
    as (_ & Hprov & _); [vm_compute; reflexivity | exact Ha' | exact Hprov].
Defined.

(** X6: A post changes or disappears only when the request carries the
    session of its owner, and that session has the seeker role. *)
Theorem posts_written_by_owner (r : Request) (w : World) (k : ObjectId)
    (p : IServicePost.t) :
  reachable w →
  posts w !! k = Some p →
  posts (handle r w).1 !! k ≠ Some p →
  ∃ s, session_of r = Some s ∧ TokenPayload.role s = SEEKER
       ∧ TokenPayload.userId s = IServicePost.userId p.
Proof.
  intros Hw Hp Hne.
  destruct (transition_writers r w _ (handle_transition r w)
              (reachable_ids_fresh w Hw)) as (H & _).
  by eapply H.
Qed.

Lemma posts_written_by_owner_witness :
  ∃ s, session_of (UpdateStatus false false (Some seeker_S) 101
                     (UpdateStatusSchema.mk ACCEPTED)) = Some s
       ∧ TokenPayload.role s = SEEKER ∧ TokenPayload.userId s = 1.
Proof.
  apply (posts_written_by_owner
           (UpdateStatus false false (Some seeker_S) 101
              (UpdateStatusSchema.mk ACCEPTED))
           world_applied 100
           (IServicePost.mk 1 "Build a site"
              "A landing page and a contact form" "Web Development" 250 OPEN)).
  - exact world_applied_reachable.
  - vm_compute; reflexivity.
  - vm_compute. intros [=].
Defined.

(** X7: An application changes or disappears only through its own provider
    withdrawing it, or through a seeker session that owns the post it was
    sent to. *)
Theorem applications_written_by_parties (r : Request) (w : World)
    (k : ObjectId) (a : IApplication.t) :
  reachable w →
  applications w !! k = Some a →
  applications (handle r w).1 !! k ≠ Some a →
  ∃ s, session_of r = Some s
       ∧ ((r = Withdraw (Some s) k ∧ TokenPayload.role s = PROVIDER
           ∧ TokenPayload.userId s = IApplication.providerId a)
          ∨ (TokenPayload.role s = SEEKER
             ∧ owns w (TokenPayload.userId s) (IApplication.postId a))).
Proof.
  intros Hw Ha Hne.
  destruct (transition_writers r w _ (handle_transition r w)
              (reachable_ids_fresh w Hw)) as (_ & H & _).
  by eapply H.
Qed.

Lemma applications_written_by_parties_witness :
  ∃ s, session_of (DeletePost (Some seeker_S) 100) = Some s
       ∧ ((DeletePost (Some seeker_S) 100 = Withdraw (Some s) 101
           ∧ TokenPayload.role s = PROVIDER ∧ TokenPayload.userId s = 2)
          ∨ (TokenPayload.role s = SEEKER
             ∧ owns world_applied (TokenPayload.userId s) 100)).
Proof.
  apply (applications_written_by_parties (DeletePost (Some seeker_S) 100)
           world_applied 101
           (IApplication.mk 100 2 cover_message PENDING)).
  - exact world_applied_reachable.
  - vm_compute; reflexivity.
  - vm_compute. intros [=].
Defined.

(** X8: A stored review is never modified, and it disappears only through a
    delete request for that review carrying the session of its author. *)
Theorem reviews_removed_by_author (r : Request) (w : World) (k : ObjectId)
    (v : IReview.t) :
  reachable w →
  reviews w !! k = Some v →
  reviews (handle r w).1 !! k ≠ Some v →
  reviews (handle r w).1 !! k = None
  ∧ r = DeleteReview (session_of r) k
  ∧ ∃ s, session_of r = Some s ∧ TokenPayload.userId s = IReview.seekerId v.
Proof.
  intros Hw Hv Hne.
  destruct (transition_writers r w _ (handle_transition r w)
              (reachable_ids_fresh w Hw)) as (_ & _ & H).
  destruct (H k v Hv Hne) as [Hr Hs]. split; [|done].
  destruct (transition_fields r w _ (handle_transition r w)
              (reachable_ids_fresh w Hw)) as (_ & _ & Hsame & _).
  destruct (reviews (handle r w).1 !! k) as [v'|] eqn:Hv'; [|done].
  destruct Hne. f_equal. by eapply Hsame.
Qed.

Lemma reviews_removed_by_author_witness :
  reviews (handle (DeleteReview (Some seeker_S) 104) world_reviewed).1 !! 104
    = None
  ∧ DeleteReview (Some seeker_S) 104
    = DeleteReview (session_of (DeleteReview (Some seeker_S) 104)) 104
  ∧ ∃ s, session_of (DeleteReview (Some seeker_S) 104) = Some s
         ∧ TokenPayload.userId s = 1.
Proof.
  apply (reviews_removed_by_author (DeleteReview (Some seeker_S) 104)
           world_reviewed 104
           (IReview.mk 1 2 101 5 (Some "Great work"))).
  - exact world_reviewed_reachable.
  - vm_compute; reflexivity.
  - vm_compute. intros [=].
Defined.

(** ** Responses that write nothing *)

Ltac unfold_routes :=
  unfold handle, posts_route.POST, posts_id_route.PATCH,
    posts_id_route.DELETE, applications_route.POST,
    applications_route.POST_checks, applications_route.POST_write,
    applications_route.POST_catch, applications_id_route.PATCH,
    applications_id_route.DELETE, reviews_route.POST,
    reviews_route.POST_checks, reviews_route.POST_write,
    reviews_route.POST_catch, reviews_id_route.DELETE.

(** X9: A request answered with an error kind (401, 403, 404, 409 or 400)
    leaves the whole state as it was, console included. *)
Theorem refusals_write_nothing (r : Request) (w : World) :
  error_kind (handle r w).2 ≠ None → (handle r w).1 = w.
Proof.
  destruct w as [ps apps rs us ns n c].
  destruct r as [m s b|s id b|s id|t s b|m t s id b|s id|t s b|s id];
    unfold_routes; exec; step_cases; intros Hk; try reflexivity;
    try (exfalso; apply Hk; reflexivity).
Qed.

Lemma refusals_write_nothing_witness :
  (handle (Apply false (Some provider_B)
             (CreateApplicationSchema.mk 100 cover_message)) world_applied).1
  = world_applied.
Proof.
  apply refusals_write_nothing. vm_compute. intros [=].
Defined.

(** X10: A request answered with 500 has written one line to the console
    and no review, user or notification.  The posts and applications are as
    they were too, with two exceptions, both behind a populate that throws
    after a write: a create-post request has stored its post, and a status
    update has overwritten the status of its application, without closing
    the post. *)
Theorem server_error_leaves_at_most (r : Request) (w : World) :
  NextResponse.status (handle r w).2 = 500 →
  let w' := (handle r w).1 in
  (∃ line, console w' = (console w ++ [line])%list)
  ∧ reviews w' = reviews w ∧ users w' = users w
  ∧ notifications w' = notifications w
  ∧ ((posts w' = posts w ∧ applications w' = applications w
      ∧ nextObjectId w' = nextObjectId w)
     ∨ (∃ s b, r = CreatePost true (Some s) b
               ∧ posts w'
                 = <[nextObjectId w := new_post (TokenPayload.userId s) b]>
                     (posts w)
               ∧ applications w' = applications w)
     ∨ (∃ t s id b, r = UpdateStatus true t (Some s) id b
                    ∧ posts w' = posts w
                    ∧ applications w'
                      = alter (Application.set_status
                                 (UpdateStatusSchema.status b)) id
                              (applications w))).
Proof.
  destruct w as [ps apps rs us ns n c].
  destruct r as [m s b|s id b|s id|t s b|m t s id b|s id|t s b|s id];
    unfold_routes; exec; step_cases; intros Hk; try discriminate Hk; parsed.
  all: split; [by eexists|]; split; [done|]; split; [done|]; split; [done|].
  all: first [ by left
             | right; left; by eexists _, _
             | right; right; by eexists _, _, _, _ ].
Qed.

Lemma server_error_leaves_at_most_witness :
  let w := fresh_world sample_users 100 in
  let r := CreatePost true (Some seeker_S)
             (CreatePostSchema.mk "Build a site"
                "A landing page and a contact form" "Web Development" 250) in
  NextResponse.status (handle r w).2 = 500
  ∧ (∃ line, console (handle r w).1 = (console w ++ [line])%list)
  ∧ IServicePost.title <$> posts (handle r w).1 !! 100 = Some "Build a site".
Proof.
  split; [vm_compute; reflexivity|].
  destruct (server_error_leaves_at_most
              (CreatePost true (Some seeker_S)
                 (CreatePostSchema.mk "Build a site"
                    "A landing page and a contact form" "Web Development"
                    250))
              (fresh_world sample_users 100)) as (Hline & _);
    [vm_compute; reflexivity|].
  split; [exact Hline | vm_compute; reflexivity].
Defined.

(** ** Padded texts *)

Lemma validate_message_padded s msg :
  Application.validate_message (trim s) = Some msg →
  (10 <= len s <= 1000)%Z → padded 10 s.
Proof.
  unfold Application.validate_message, padded. pose proof (trim_len s).
  case_decide as He; [rewrite He; unfold len; simpl; lia|].
  repeat case_match; try done; lia.
Qed.

Lemma padded_title s :
  padded 5 s → is_Some (ServicePost.validate_title (trim s)).
Proof.
  unfold ServicePost.validate_title, padded. intros [Hlt _].
  case_decide; [done|]. destruct (len (trim s) <? 5)%Z eqn:E; [done|].
  apply Z.ltb_ge in E. lia.
Qed.

Lemma padded_description s :
  padded 20 s → is_Some (ServicePost.validate_description (trim s)).
Proof.
  unfold ServicePost.validate_description, padded. intros [Hlt _].
  case_decide; [done|]. destruct (len (trim s) <? 20)%Z eqn:E; [done|].
  apply Z.ltb_ge in E. lia.
Qed.

Lemma CreateApplicationSchema_bounds b :
  CreateApplicationSchema.safeParse b = inr b →
  (10 <= len (CreateApplicationSchema.message b) <= 1000)%Z.
Proof.
  unfold CreateApplicationSchema.safeParse. repeat case_match; try done. lia.
Qed.

(** X11: For a seeker whose body passes the request schema, creating a post
    whose title or description is padded is answered 500, whether or not
    the [Skill] model is loaded, and writes the console line and nothing
    else. *)
Theorem create_post_padded (missing : bool) (session : TokenPayload.t)
    (body : CreatePostSchema.t) (w : World) :
  TokenPayload.role session = SEEKER →
  CreatePostSchema.safeParse body = inr body →
  padded 5 (CreatePostSchema.title body)
  ∨ padded 20 (CreatePostSchema.description body) →
  posts_route.POST missing (Some session) body w
  = (logged "POST /api/posts error:" w,
     NextResponse.json (JError "Internal Server Error") 500).
Proof.
  intros Hrole Hparse Hpad. unfold posts_route.POST. exec. rewrite Hparse.
  rewrite decide_False by (by intros []).
  assert (is_Some (first_error
            [ ServicePost.validate_title (trim (CreatePostSchema.title body));
              ServicePost.validate_description
                (trim (CreatePostSchema.description body));
              ServicePost.validate_category (CreatePostSchema.category body);
              ServicePost.validate_budget (CreatePostSchema.budget body) ]))
    as [msg Hmsg].
  { unfold first_error. simpl.
    destruct Hpad as [[e He]%padded_title|[e He]%padded_description].
    - by rewrite He.
    - rewrite He. by destruct (ServicePost.validate_title _). }
  by rewrite Hmsg.
Qed.

Lemma create_post_padded_witness :
  posts_route.POST false (Some seeker_S)
    (CreatePostSchema.mk " Fix " "A landing page and a contact form"
       "Web Development" 250) world_posted
  = (logged "POST /api/posts error:" world_posted,
     NextResponse.json (JError "Internal Server Error") 500).
Proof.
  apply (create_post_padded false seeker_S
           (CreatePostSchema.mk " Fix " "A landing page and a contact form"
              "Web Development" 250) world_posted).
  - reflexivity.
  - reflexivity.
  - left. unfold padded. vm_compute. split; [reflexivity|]. intros [=].
Defined.

(** X12: An apply request that passes every check of the route, with a
    message the schema accepts, is answered 500 when the message is padded
    and 201 otherwise. *)
Theorem apply_padded (throws : bool) (session : TokenPayload.t)
    (body : CreateApplicationSchema.t) (w : World) (p : IServicePost.t) :
  TokenPayload.role session = PROVIDER →
  CreateApplicationSchema.safeParse body = inr body →
  posts w !! CreateApplicationSchema.postId body = Some p →
  IServicePost.status p = OPEN →
  IServicePost.userId p ≠ TokenPayload.userId session →
  ¬ has_applied w (CreateApplicationSchema.postId body)
                (TokenPayload.userId session) →
  NextResponse.status (applications_route.POST throws (Some session) body w).2
  = if decide (padded 10 (CreateApplicationSchema.message body))
    then 500 else 201.
Proof.
  intros Hrole Hparse Hp Hopen Hown Hnot.
  unfold_routes. exec. rewrite Hparse.
  rewrite decide_False by (by intros []). simpl. rewrite Hp. simpl.
  rewrite decide_False by (by intros []).
  rewrite decide_False by done.
  rewrite (find_pair_None _ _ _ Hnot). simpl.
  pose proof (CreateApplicationSchema_bounds body Hparse) as Bm.
  destruct (Application.validate_message _) as [msg|] eqn:Ef; simpl.
  - rewrite decide_True; [done|]. by eapply validate_message_padded.
  - rewrite (find_pair_None _ _ _ Hnot). simpl.
    apply validate_message_None in Ef.
    rewrite decide_False by (unfold padded; lia).
    by destruct throws.
Qed.

Lemma apply_padded_witness :
  NextResponse.status
    (applications_route.POST false (Some provider_B)
       (CreateApplicationSchema.mk 100 "   hello   ") world_posted).2
  = if decide (padded 10 "   hello   ") then 500 else 201.
Proof.
  apply (apply_padded false provider_B
           (CreateApplicationSchema.mk 100 "   hello   ") world_posted
           (IServicePost.mk 1 "Build a site"
              "A landing page and a contact form" "Web Development" 250 OPEN)).
  - reflexivity.
  - reflexivity.
  - vm_compute; reflexivity.
  - reflexivity.
  - vm_compute. intros [=].
  - intros (k & a & Hk & _). vm_compute in Hk. discriminate Hk.
Defined.

(** The no-break space is white space too: five of them before [hello]
    make a message of ten characters that the request schema accepts and
    the model refuses. *)
Example apply_nbsp_padded_message :
  let nbsp := String (ascii_of_nat 160) EmptyString in
  let message := nbsp +:+ nbsp +:+ nbsp +:+ nbsp +:+ nbsp +:+ "hello" in
  let out := applications_route.POST false (Some provider_B)
               (CreateApplicationSchema.mk 100 message) world_posted in
  len message = 10%Z ∧ trim message = "hello"
  ∧ NextResponse.status out.2 = 500
  ∧ applications out.1 = applications world_posted.
Proof. repeat split; vm_compute; reflexivity. Qed.

(** ** The session gate *)

(** X13: Without a session every lifecycle route answers 401, and with a
    session of another role than the route asks for it answers 403; both
    before the body or the database is looked at, and nothing is written. *)
Theorem session_gate (r : Request) (w : World) :
  match session_of r with
  | None => handle r w = (w, unauthorizedResponse)
  | Some s =>
      ∀ role, required_role r = Some role → TokenPayload.role s ≠ role →
        (handle r w).1 = w ∧ NextResponse.status (handle r w).2 = 403
  end.
Proof.
  destruct r as [m s b|s id b|s id|t s b|m t s id b|s id|t s b|s id];
    destruct s as [s|]; simpl; try reflexivity; intros role [= <-] Hrole;
    unfold_routes; exec; by rewrite decide_True.
Qed.

(** ** Undoing a write *)

Lemma POST_apply_created throws session body w :
  let out := applications_route.POST throws (Some session) body w in
  NextResponse.status out.2 = 201 →
  TokenPayload.role session = PROVIDER
  ∧ posts out.1 = posts w
  ∧ applications out.1
    = <[nextObjectId w :=
          IApplication.mk (CreateApplicationSchema.postId body)
            (TokenPayload.userId session)
            (trim (CreateApplicationSchema.message body)) PENDING]>
        (applications w)
  ∧ reviews out.1 = reviews w ∧ users out.1 = users w.
Proof.
  unfold applications_route.POST, applications_route.POST_checks,
    applications_route.POST_write, applications_route.POST_catch.
  exec. step_cases; parsed; intros Hs; try discriminate Hs; done.
Qed.

Lemma DELETE_application_by_provider w session id a :
  TokenPayload.role session = PROVIDER →
  applications w !! id = Some a →
  IApplication.providerId a = TokenPayload.userId session →
  IApplication.status a = PENDING →
  let out := applications_id_route.DELETE (Some session) id w in
  NextResponse.status out.2 = 200
  ∧ posts out.1 = posts w ∧ applications out.1 = delete id (applications w)
  ∧ reviews out.1 = reviews w ∧ users out.1 = users w.
Proof.
  intros Hrole Ha Hown Hpending. unfold applications_id_route.DELETE. exec.
  rewrite decide_False by (by intros []). simpl. rewrite Ha. simpl.
  rewrite decide_False by (by intros []).
  by rewrite decide_False by (by intros []).
Qed.

(** X14: Withdrawing the application an apply request has just created is
    accepted and gives back the posts, applications, reviews and users of
    before the apply. *)
Theorem withdraw_undoes_apply (throws : bool) (session : TokenPayload.t)
    (body : CreateApplicationSchema.t) (w : World) :
  reachable w →
  let applied := handle (Apply throws (Some session) body) w in
  NextResponse.status applied.2 = 201 →
  let back := handle (Withdraw (Some session) (nextObjectId w)) applied.1 in
  NextResponse.status back.2 = 200
  ∧ posts back.1 = posts w ∧ applications back.1 = applications w
  ∧ reviews back.1 = reviews w ∧ users back.1 = users w.
Proof.
  intros Hw applied Hs back.
  pose proof (reachable_ids_fresh w Hw (nextObjectId w)) as Hf.
  destruct Hf as (_ & Fa & _); [lia|].
  destruct (POST_apply_created _ _ _ _ Hs) as (Hrole & Ep & Ea & Er & Eu).
  fold (handle (Apply throws (Some session) body) w) in Ep, Ea, Er, Eu.
  fold applied in Ep, Ea, Er, Eu.
  destruct (DELETE_application_by_provider applied.1 session (nextObjectId w)
              (IApplication.mk (CreateApplicationSchema.postId body)
                 (TokenPayload.userId session)
                 (trim (CreateApplicationSchema.message body)) PENDING))
    as (Hres & Ep' & Ea' & Er' & Eu'); try done.
  { by rewrite Ea, lookup_insert_eq. }
  fold (handle (Withdraw (Some session) (nextObjectId w)) applied.1)
    in Hres, Ep', Ea', Er', Eu'.
  fold back in Hres, Ep', Ea', Er', Eu'.
  split; [done|]. split; [congruence|].
  split; [by rewrite Ea', Ea, delete_insert_id|].
  split; congruence.
Qed.

Lemma withdraw_undoes_apply_witness :
  applications
    (handle (Withdraw (Some provider_B) (nextObjectId world_posted))
       (handle (Apply false (Some provider_B)
                  (CreateApplicationSchema.mk 100 cover_message))
               world_posted).1).1
  = applications world_posted.
Proof.
  destruct (withdraw_undoes_apply false provider_B
              (CreateApplicationSchema.mk 100 cover_message) world_posted)
    as (_ & _ & Ha & _).
  - apply reachable_serve. constructor.
  - vm_compute. reflexivity.
  - exact Ha.
Defined.

Lemma set_rating_id (u : IUser.t) :
  User.set_rating (IUser.averageRating u) (IUser.reviewCount u) u = u.
Proof. by destruct u. Qed.

Lemma recompute_rating_id pid rs us :
  (∀ u, us !! pid = Some u →
     (IUser.averageRating u, IUser.reviewCount u)
     = aggregate_of (Review.ratings_of pid rs)) →
  recompute_rating pid rs us = us.
Proof.
  intros Hs. unfold recompute_rating. apply map_eq. intros k.
  destruct (decide (k = pid)) as [->|Hk];
    [|by rewrite lookup_alter_ne].
  rewrite lookup_alter_eq. destruct (us !! pid) as [u|] eqn:Hu; [|done].
  simpl. rewrite <- (Hs u eq_refl). simpl. by rewrite set_rating_id.
Qed.

Lemma recompute_rating_twice pid rs rs' us :
  recompute_rating pid rs (recompute_rating pid rs' us)
  = recompute_rating pid rs us.
Proof.
  unfold recompute_rating. rewrite alter_alter_eq. by apply alter_ext.
Qed.

Lemma POST_review_created throws session body w :
  NextResponse.status (reviews_route.POST throws (Some session) body w).2
  = 201 →
  ∃ a, TokenPayload.role session = SEEKER
       ∧ CreateReviewSchema.safeParse body = inr body
       ∧ applications w !! CreateReviewSchema.applicationId body = Some a
       ∧ IApplication.status a = ACCEPTED
       ∧ owns w (TokenPayload.userId session) (IApplication.postId a)
       ∧ ¬ has_review w (CreateReviewSchema.applicationId body).
Proof.
  unfold reviews_route.POST, reviews_route.POST_checks,
    reviews_route.POST_write, reviews_route.POST_catch.
  exec. step_cases; parsed; intros Hs; try discriminate Hs.
  all: match goal with H : owned_by _ _ = Some _ |- _ =>
         apply owned_by_inv in H; destruct H end.
  all: eexists; repeat split; eauto using has_review_find.
  all: by eexists.
Qed.

(** X15: Deleting the review a create-review request has just stored is
    accepted and gives back the reviews of before; with the stored ratings
    in step with the reviews before the request, it gives back the users
    too. *)
Theorem delete_undoes_review (throws : bool) (session : TokenPayload.t)
    (body : CreateReviewSchema.t) (w : World) :
  reachable w → ratings_in_sync w →
  let reviewed := handle (CreateReview throws (Some session) body) w in
  NextResponse.status reviewed.2 = 201 →
  let back := handle (DeleteReview (Some session) (nextObjectId w))
                     reviewed.1 in
  NextResponse.status back.2 = 200
  ∧ posts back.1 = posts w ∧ applications back.1 = applications w
  ∧ reviews back.1 = reviews w ∧ users back.1 = users w.
Proof.
  intros Hw Hsync reviewed Hs back.
  pose proof (reachable_ids_fresh w Hw (nextObjectId w)) as Hf.
  destruct Hf as (_ & _ & Fr & _); [lia|].
  destruct (POST_review_created _ _ _ _ Hs)
    as (a & Hrole & Hparse & Ha & Hacc & Hown & Hno).
  destruct (POST_review_passes throws w session body a Hrole Hparse Ha Hacc
              Hown Hno) as (_ & Er & Eu & Ep & Eapp).
  fold (handle (CreateReview throws (Some session) body) w) in Er, Eu, Ep, Eapp.
  fold reviewed in Er, Eu, Ep, Eapp.
  destruct (DELETE_review_by_author reviewed.1 session (nextObjectId w)
              (IReview.mk (TokenPayload.userId session)
                 (IApplication.providerId a)
                 (CreateReviewSchema.applicationId body)
                 (CreateReviewSchema.rating body)
                 (trim <$> CreateReviewSchema.comment body)))
    as (Eres & Er' & Eu' & Ep' & Eapp').
  { by rewrite Er, lookup_insert_eq. }
  { done. }
  fold (handle (DeleteReview (Some session) (nextObjectId w)) reviewed.1)
    in Eres, Er', Eu', Ep', Eapp'.
  fold back in Eres, Er', Eu', Ep', Eapp'. simpl in Eu'.
  assert (reviews back.1 = reviews w) as Hback.
  { by rewrite Er', Er, delete_insert_id. }
  split; [by rewrite Eres|]. split; [congruence|]. split; [congruence|].
  split; [done|].
  rewrite Eu', Eu, Hback.
  fold (recompute_rating (IApplication.providerId a) (reviews reviewed.1)
          (users w)).
  fold (recompute_rating (IApplication.providerId a) (reviews w)
          (recompute_rating (IApplication.providerId a) (reviews reviewed.1)
             (users w))).
  rewrite recompute_rating_twice. apply recompute_rating_id.
  intros u Hu. by apply Hsync.
Qed.

Lemma delete_undoes_review_witness :
  users
    (handle (DeleteReview (Some seeker_S)
               (nextObjectId
                  (serve accepted_trace (fresh_world sample_users 100))))
       (handle (CreateReview false (Some seeker_S)
                  (CreateReviewSchema.mk 101 5 (Some "Great work")))
               (serve accepted_trace (fresh_world sample_users 100))).1).1
  = users (serve accepted_trace (fresh_world sample_users 100)).
Proof.
  destruct (delete_undoes_review false seeker_S
              (CreateReviewSchema.mk 101 5 (Some "Great work"))
              (serve accepted_trace (fresh_world sample_users 100)))
    as (_ & _ & _ & _ & Hu).
  - apply reachable_serve. constructor.
  - exact (serve_ratings_in_sync sample_users 100 accepted_trace
             sample_users_default).
  - vm_compute. reflexivity.
  - exact Hu.
Defined.

(** ** References between the documents *)

Lemma handle_next_mono r w :
  (nextObjectId w <= nextObjectId (handle r w).1)%nat.
Proof.
  destruct w as [ps apps rs us ns n c].
  destruct r as [m s b|s id b|s id|t s b|m t s id b|s id|t s b|s id];
    unfold_routes; exec; step_cases; simpl; lia.
Qed.

Lemma transition_reviewed_ids_used r w w' :
  transition w w' r → ids_fresh w →
  (nextObjectId w <= nextObjectId w')%nat →
  reviewed_ids_used w → reviewed_ids_used w'.
Proof.
  intros Ht Hfresh Hle Hu k v.
  assert (∀ k v, reviews w !! k = Some v →
            (IReview.applicationId v < nextObjectId w')%nat) as Hold.
  { intros k0 v0 Hv. specialize (Hu k0 v0 Hv). lia. }
  destruct Ht as [r _ _ Er _
    | m s b _ _ _ _ _ Er _
    | s id b p _ _ _ _ _ _ _ Er _
    | s id p _ _ _ _ _ Er _
    | t s b p _ _ _ _ _ _ _ _ _ Er _
    | m t s id b a p _ _ _ _ _ _ _ Er _
    | s id a _ _ _ _ _ _ Er _
    | t s b a _ _ Ha _ _ _ _ _ Er _
    | s id rv _ _ _ _ Er _ ]; rewrite Er; try apply Hold.
  - rewrite lookup_insert_Some. intros [[_ <-]|[_ Hv]]; [|by eapply Hold].
    simpl. destruct (decide (CreateReviewSchema.applicationId b
                             < nextObjectId w)%nat) as [|Hge]; [lia|].
    destruct (Hfresh (CreateReviewSchema.applicationId b)) as (_ & Fa & _);
      [lia | congruence].
  - rewrite lookup_delete_Some. intros [_ Hv]. by eapply Hold.
Qed.

Lemma transition_references_agree r w w' :
  transition w w' r → ids_fresh w → reviewed_ids_used w →
  references_agree w → references_agree w'.
Proof.
  intros Ht Hfresh Hused [Happ Hrev].
  destruct (Hfresh (nextObjectId w)) as (Fp & Fa & Fr & _); [lia|].
  destruct Ht as [r Ep Ea Er _
    | m s b _ _ _ Ep Ea Er _
    | s id b p _ Hp _ _ _ Ep Ea Er _
    | s id p _ Hp _ Ep Ea Er _
    | t s b p _ _ Hp _ Hother _ _ Ep Ea Er _
    | m t s id b a p _ Ha Hp _ _ Ep Ea Er _
    | s id a _ Ha _ _ Ep Ea Er _
    | t s b a _ _ Ha _ Hown _ Ep Ea Er _
    | s id rv Hrv _ Ep Ea Er _ ]; unfold references_agree, owns;
    rewrite ?Ep, ?Ea, ?Er.
  - done.
  - (* a post is created *)
    assert (∀ pid q, posts w !! pid = Some q →
              <[nextObjectId w:=new_post (TokenPayload.userId s) b]> (posts w)
                !! pid = Some q) as Hkeep.
    { intros pid q Hq. rewrite lookup_insert_ne; [done|congruence]. }
    split.
    + intros k a Hk. destruct (Happ k a Hk) as (q & Hq & Hne).
      exists q. auto.
    + intros k v a Hv Ha. destruct (Hrev k v a Hv Ha) as (Hprov & q & Hq & Hs).
      split; [done|]. exists q. auto.
  - (* a post is updated *)
    assert (∀ pid q, posts w !! pid = Some q →
              ∃ q', alter (ServicePost.apply_update b) id (posts w) !! pid
                    = Some q'
                    ∧ IServicePost.userId q' = IServicePost.userId q) as Hkeep.
    { intros pid q Hq. destruct (decide (id = pid)) as [->|Hne].
      - rewrite lookup_alter_eq, Hq. by eexists.
      - rewrite lookup_alter_ne by done. by eexists. }
    split.
    + intros k a Hk. destruct (Happ k a Hk) as (q & Hq & Hne).
      destruct (Hkeep _ _ Hq) as (q' & Hq' & Hu). exists q'.
      split; [done | congruence].
    + intros k v a Hv Ha. destruct (Hrev k v a Hv Ha) as (Hprov & q & Hq & Hs).
      split; [done|]. destruct (Hkeep _ _ Hq) as (q' & Hq' & Hu).
      exists q'. split; [done | congruence].
  - (* a post is deleted with its applications *)
    split.
    + intros k a [Hk Hne]%map_lookup_filter_Some. simpl in Hne.
      destruct (Happ k a Hk) as (q & Hq & Hu). exists q.
      by rewrite lookup_delete_ne.
    + intros k v a Hv [Ha Hne]%map_lookup_filter_Some. simpl in Hne.
      destruct (Hrev k v a Hv Ha) as (Hprov & q & Hq & Hs).
      split; [done|]. exists q. by rewrite lookup_delete_ne.
  - (* an application is created *)
    split.
    + intros k a. rewrite lookup_insert_Some.
      intros [[_ <-]|[_ Hk]]; [by exists p | by eapply Happ].
    + intros k v a Hv. rewrite lookup_insert_Some.
      intros [[Heq _]|[_ Ha]]; [|by eapply Hrev].
      specialize (Hused k v Hv). lia.
  - (* an application is decided *)
    assert (∀ pid q, posts w !! pid = Some q →
              ∃ q', (if m then posts w
                     else if decide (UpdateStatusSchema.status b = ACCEPTED)
                     then alter (ServicePost.apply_update close_post)
                            (IApplication.postId a) (posts w)
                     else posts w) !! pid = Some q'
                    ∧ IServicePost.userId q' = IServicePost.userId q) as Hkeep.
    { intros pid q Hq. destruct m; [by eexists|].
      case_decide; [|by eexists].
      destruct (decide (IApplication.postId a = pid)) as [<-|Hne].
      - rewrite lookup_alter_eq, Hq. by eexists.
      - rewrite lookup_alter_ne by done. by eexists. }
    assert (∀ k x', alter (Application.set_status
                             (UpdateStatusSchema.status b)) id
                      (applications w) !! k = Some x' →
              ∃ x, applications w !! k = Some x
                   ∧ IApplication.postId x' = IApplication.postId x
                   ∧ IApplication.providerId x' = IApplication.providerId x)
      as Hsame.
    { intros k x'. rewrite lookup_alter_Some.
      intros [(_ & x & Hx & ->)|[_ Hx]]; by eexists. }
    split.
    + intros k x' (x & Hx & -> & ->)%Hsame.
      destruct (Happ k x Hx) as (q & Hq & Hne).
      destruct (Hkeep _ _ Hq) as (q' & Hq' & Hu). exists q'.
      split; [done | congruence].
    + intros k v x' Hv (x & Hx & -> & ->)%Hsame.
      destruct (Hrev k v x Hv Hx) as (Hprov & q & Hq & Hs).
      split; [done|]. destruct (Hkeep _ _ Hq) as (q' & Hq' & Hu).
      exists q'. split; [done | congruence].
  - (* an application is withdrawn *)
    split.
    + intros k x [_ Hx]%lookup_delete_Some. by eapply Happ.
    + intros k v x Hv [_ Hx]%lookup_delete_Some. by eapply Hrev.
  - (* a review is created *)
    split; [done|]. intros k v x. rewrite lookup_insert_Some.
    intros [[_ <-]|[_ Hv]]; [|by eapply Hrev]. simpl.
    rewrite Ha. by intros [= <-].
  - (* a review is deleted *)
    split; [done|]. intros k v x [_ Hv]%lookup_delete_Some.
    by eapply Hrev.
Qed.

Lemma reachable_references_agree w :
  reachable w → reviewed_ids_used w ∧ references_agree w.
Proof.
  induction 1 as [us next|w r Hw [IHu IHr]
                 |w w' Hw [IHu IHr] (Hp & Ha & Hr & Hle & _)].
  - split; [intros k v|split; [intros k a|intros k v a]]; simpl;
      by rewrite lookup_empty.
  - pose proof (reachable_ids_fresh w Hw) as Hf.
    pose proof (handle_transition r w) as Ht. split.
    + eapply transition_reviewed_ids_used; eauto using handle_next_mono.
    + by eapply transition_references_agree.
  - split.
    + intros k v. rewrite Hr. intros Hv. specialize (IHu k v Hv). lia.
    + unfold references_agree, owns. rewrite Hp, Ha, Hr. exact IHr.
Qed.

(** X16: In every reachable state the post of a stored application exists
    and belongs to another user than the applicant; and a stored review whose
    application is still on file names that application's provider and was
    written by the owner of the post the application went to. *)
Theorem stored_references_agree (w : World) :
  reachable w → references_agree w.
Proof. by intros [_ H]%reachable_references_agree. Qed.

Lemma stored_references_agree_witness :
  reachable world_reviewed ∧ references_agree world_reviewed.
Proof.
  split; [exact world_reviewed_reachable|].
  apply stored_references_agree. exact world_reviewed_reachable.
Defined.

(** ** Notifications *)

Ltac exec_notifications :=
  unfold handle_notification, notifications_route.PATCH,
    notifications_route.DELETE, notifications_id_route.PATCH,
    try_notifications, Notifications.updateMany, Notifications.deleteMany,
    Notifications.findOneAndUpdate;
  exec.

(** X17: A lifecycle request never changes or removes a stored notification;
    the only notification it can add is unread, of the type of the request,
    and addressed to the owner of the post applied to or to the provider of
    the application decided or reviewed. *)
Theorem notifications_reach_their_user (r : Request) (w : World)
    (k : ObjectId) :
  reachable w →
  let w' := (handle r w).1 in
  match notifications w !! k with
  | Some n => notifications w' !! k = Some n
  | None =>
      ∀ n, notifications w' !! k = Some n →
        INotification.read n = false
        ∧ notification_type r = Some (INotification.type n)
        ∧ notified_user w r (INotification.userId n)
  end.
Proof.
  intros Hw w'. subst w'.
  pose proof (reachable_ids_fresh w Hw) as Hf.
  assert (∀ j, (nextObjectId w <= j)%nat → j ≠ k ∨ notifications w !! k = None)
    as Hj.
  { intros j Hle. destruct (decide (j = k)) as [->|]; [|by left].
    right. by destruct (Hf k Hle) as (_ & _ & _ & ?). }
  clear Hf Hw. revert Hj. destruct w as [ps apps rs us ns n c]. simpl.
  intros Hj.
  destruct r as [m s b|s id b|s id|t s b|m t s id b|s id|t s b|s id];
    unfold_routes; exec; step_cases; parsed.
  all: try done.
  all: try (intros ? Hx; by rewrite Hx in *).
  all: try (rewrite lookup_insert_ne; [done|];
            first [ by destruct (Hj (S n)); [lia|..]
                  | by destruct (Hj n); [lia|..] ]).
  all: intros x [[_ <-]|[_ Hx]]%lookup_insert_Some; [simpl|congruence].
  all: split; [done|]; split; [done|]; unfold owns; simpl; by eexists.
Qed.

Lemma notifications_reach_their_user_witness :
  ∃ n, notifications
         (handle (Apply false (Some provider_B)
                    (CreateApplicationSchema.mk 100 cover_message))
                 world_posted).1 !! 102 = Some n
       ∧ INotification.read n = false
       ∧ notified_user world_posted
           (Apply false (Some provider_B)
              (CreateApplicationSchema.mk 100 cover_message))
           (INotification.userId n).
Proof.
  pose proof (notifications_reach_their_user
                (Apply false (Some provider_B)
                   (CreateApplicationSchema.mk 100 cover_message))
                world_posted 102 (reachable_serve _ _ (reachable_fresh _ _))
              : ∀ n, notifications
                       (handle (Apply false (Some provider_B)
                                  (CreateApplicationSchema.mk 100
                                     cover_message))
                               world_posted).1 !! 102 = Some n → _) as H.
  eexists. split; [vm_compute; reflexivity|].
  edestruct H as (Hread & _ & Huser); [vm_compute; reflexivity|].
  split; [exact Hread | exact Huser].
Defined.

Lemma handle_notification_lookup (r : NotificationRequest) (w : World)
    (k : ObjectId) :
  match notifications w !! k with
  | None => notifications (handle_notification r w).1 !! k = None
  | Some n =>
      notifications (handle_notification r w).1 !! k = Some n
      ∨ (∃ s, notification_session r = Some s
              ∧ INotification.userId n = TokenPayload.userId s
              ∧ (notifications (handle_notification r w).1 !! k = None
                 ∨ notifications (handle_notification r w).1 !! k
                   = Some (Notifications.mark_read n)))
  end.
Proof.
  destruct w as [ps apps rs us ns n c].
  destruct r as [[s|]|[s|]|[s|] id]; exec_notifications.
  - rewrite lookup_fmap. destruct (ns !! k) as [x|] eqn:Hx; simpl; [|done].
    case_decide as Hu; [|by left]. destruct Hu as [Hu _].
    right. exists s. auto.
  - by destruct (ns !! k); [left|].
  - destruct (ns !! k) as [x|] eqn:Hx.
    + destruct (decide (INotification.userId x = TokenPayload.userId s))
        as [Hu|Hu].
      * right. exists s. split; [done|]. split; [done|]. left.
        apply map_lookup_filter_None. right. intros y Hy. simpl.
        rewrite Hx in Hy. injection Hy as <-. by intros [].
      * left. by apply map_lookup_filter_Some.
    + apply map_lookup_filter_None. by left.
  - by destruct (ns !! k); [left|].
  - destruct (ns !! id) as [y|] eqn:Hy; simpl.
    + case_decide as Hu; simpl; [|by destruct (ns !! k); [left|]].
      destruct (decide (id = k)) as [->|Hne].
      * rewrite Hy, lookup_insert_eq. right. exists s. auto.
      * rewrite lookup_insert_ne by done. by destruct (ns !! k); [left|].
    + by destruct (ns !! k); [left|].
  - by destruct (ns !! k); [left|].
Qed.

(** X18: The notification routes create no notification, and they leave a
    stored notification as it is unless it belongs to the user of the
    session, in which case it is at most removed or marked as read. *)
Theorem notification_routes_touch_own_only (r : NotificationRequest)
    (w : World) (k : ObjectId) :
  let w' := (handle_notification r w).1 in
  match notifications w !! k with
  | None => notifications w' !! k = None
  | Some n =>
      notifications w' !! k = Some n
      ∨ (∃ s, notification_session r = Some s
              ∧ INotification.userId n = TokenPayload.userId s
              ∧ (notifications w' !! k = None
                 ∨ notifications w' !! k = Some (Notifications.mark_read n)))
  end.
Proof. exact (handle_notification_lookup r w k). Qed.

(** X19: After marking all as read no unread notification of the user is
    left, after clearing no notification of the user is left at all, and
    both answer 200. *)
Theorem mark_all_and_clear (session : TokenPayload.t) (w : World)
    (k : ObjectId) (n : INotification.t) :
  let marked := notifications_route.PATCH (Some session) w in
  let cleared := notifications_route.DELETE (Some session) w in
  NotificationsResponse.status marked.2 = 200
  ∧ NotificationsResponse.status cleared.2 = 200
  ∧ (notifications marked.1 !! k = Some n →
     INotification.userId n = TokenPayload.userId session →
     INotification.read n = true)
  ∧ (notifications cleared.1 !! k = Some n →
     INotification.userId n ≠ TokenPayload.userId session).
Proof.
  exec_notifications. split; [done|]. split; [done|]. split.
  - rewrite lookup_fmap.
    destruct (notifications w !! k) as [x|]; simpl; [|done].
    intros [= <-]. case_decide as Hu; [done|]. intros Hx.
    destruct (INotification.read x) eqn:Hr; [done|]. by destruct Hu.
  - by intros [_ Hne]%map_lookup_filter_Some.
Qed.

(** X20: Marking one notification as read answers 404 and changes nothing
    when the id names no notification or one of another user; otherwise it
    answers 200 and the notification is stored as read. *)
Theorem mark_read_own_only (session : TokenPayload.t) (id : ObjectId)
    (w : World) :
  let out := notifications_id_route.PATCH (Some session) id w in
  match notifications w !! id with
  | Some n =>
      if decide (INotification.userId n = TokenPayload.userId session)
      then NotificationsResponse.status out.2 = 200
           ∧ notifications out.1 !! id = Some (Notifications.mark_read n)
      else NotificationsResponse.status out.2 = 404 ∧ out.1 = w
  | None => NotificationsResponse.status out.2 = 404 ∧ out.1 = w
  end.
Proof.
  destruct w as [ps apps rs us ns n c]. exec_notifications.
  destruct (ns !! id) as [x|]; simpl; [|done].
  case_decide; simpl; [|done]. by rewrite lookup_insert_eq.
Qed.

Lemma handle_notification_elsewhere r w :
  ids_fresh w → elsewhere w (handle_notification r w).1.
Proof.
  intros Hf.
  assert (∀ k, (nextObjectId w <= k)%nat → notifications w !! k = None)
    as Hn.
  { intros k Hk. by destruct (Hf k Hk) as (_ & _ & _ & ?). }
  assert (nextObjectId (handle_notification r w).1 = nextObjectId w
          ∧ posts (handle_notification r w).1 = posts w
          ∧ applications (handle_notification r w).1 = applications w
          ∧ reviews (handle_notification r w).1 = reviews w) as (En & Ep & Ea & Er).
  { destruct w as [ps apps rs us ns n c].
    destruct r as [[s|]|[s|]|[s|] id]; exec_notifications; try done.
    destruct (ns !! id) as [y|]; simpl; [|done]. by case_decide. }
  split; [done|]. split; [done|]. split; [done|]. split; [lia|].
  intros k. rewrite En. intros Hk.
  pose proof (handle_notification_lookup r w k) as Hk'.
  by rewrite (Hn k Hk) in Hk'.
Qed.

(** X21: A notification route leads from a reachable state to a reachable
    state, with the posts, applications and reviews as they were: what holds
    in every reachable state survives these routes. *)
Theorem notification_routes_keep_reachable (r : NotificationRequest)
    (w : World) :
  reachable w →
  let w' := (handle_notification r w).1 in
  reachable w' ∧ elsewhere w w'.
Proof.
  intros Hw w'.
  pose proof (handle_notification_elsewhere r w (reachable_ids_fresh w Hw)).
  split; [by eapply reachable_elsewhere|done].
Qed.

Lemma notification_routes_keep_reachable_witness :
  reachable (handle_notification (MarkAllRead (Some seeker_S)) world_applied).1.
Proof.
  destruct (notification_routes_keep_reachable (MarkAllRead (Some seeker_S))
              world_applied world_applied_reachable) as [H _].
  exact H.
Defined.

(** ** Stored texts are trimmed *)

Lemma trim_end_idempotent s : trim_end (trim_end s) = trim_end s.
Proof.
  induction s as [|c s IH]; [done|]. simpl.
  destruct (trim_end s) as [|c' r] eqn:Er.
  - destruct (is_white_space c) eqn:Ec; [done|]. simpl. by rewrite Ec.
  - simpl in *. by rewrite IH.
Qed.

Lemma trim_start_head s :
  match trim_start s with
  | String c _ => is_white_space c = false
  | EmptyString => True
  end.
Proof.
  induction s as [|c s IH]; [done|]. simpl.
  by destruct (is_white_space c) eqn:Ec.
Qed.

Lemma trim_end_head c s :
  is_white_space c = false →
  ∃ r, trim_end (String c s) = String c r.
Proof.
  intros Hc. simpl. destruct (trim_end s); rewrite ?Hc; by eexists.
Qed.

Lemma trim_idem s : trim (trim s) = trim s.
Proof.
  unfold trim. pose proof (trim_start_head s) as Hh.
  destruct (trim_start s) as [|c t] eqn:Et; [done|].
  destruct (trim_end_head c t Hh) as [r Hr]. rewrite Hr.
  cbn [trim_start]. rewrite Hh, <- Hr. apply trim_end_idempotent.
Qed.

(** X22: Trimming twice is trimming once. *)
Theorem trim_idempotent (s : string) : trimmed (trim s).
Proof. apply trim_idem. Qed.

Lemma transition_text_trimmed r w w' :
  transition w w' r → text_trimmed w → text_trimmed w'.
Proof.
  intros Ht (Hp & Ha & Hr).
  destruct Ht as [r Ep Ea Er _
    | m s b _ _ _ Ep Ea Er _
    | s id b p _ _ _ _ _ Ep Ea Er _
    | s id p _ _ _ Ep Ea Er _
    | t s b p _ _ _ _ _ _ _ Ep Ea Er _
    | m t s id b a p _ _ _ _ _ Ep Ea Er _
    | s id a _ _ _ _ Ep Ea Er _
    | t s b a _ _ _ _ _ _ Ep Ea Er _
    | s id rv _ _ Ep Ea Er _ ];
    (split; [|split]); rewrite ?Ep, ?Ea, ?Er; try done.
  - intros k p. rewrite lookup_insert_Some.
    intros [[_ <-]|[_ Hk]]; [|by eapply Hp].
    split; apply trim_idem.
  - intros k q. rewrite lookup_alter_Some.
    intros [(_ & x & Hx & ->)|[_ Hk]]; [|by eapply Hp].
    destruct (Hp _ _ Hx) as [Tt Td]. unfold ServicePost.apply_update. simpl.
    split.
    + destruct (ServicePost.title b); simpl; [apply trim_idem | done].
    + destruct (ServicePost.description b); simpl; [apply trim_idem | done].
  - intros k q [_ Hk]%lookup_delete_Some. by eapply Hp.
  - intros k x [Hk _]%map_lookup_filter_Some. by eapply Ha.
  - intros k x. rewrite lookup_insert_Some.
    intros [[_ <-]|[_ Hk]]; [apply trim_idem | by eapply Ha].
  - intros k q. destruct m; [by apply Hp|].
    case_decide; [|by apply Hp]. rewrite lookup_alter_Some.
    intros [(_ & x & Hx & ->)|[_ Hk]]; [|by eapply Hp].
    exact (Hp _ _ Hx).
  - intros k x. rewrite lookup_alter_Some.
    intros [(_ & y & Hy & ->)|[_ Hk]]; [|by eapply Ha].
    exact (Ha _ _ Hy).
  - intros k x [_ Hk]%lookup_delete_Some. by eapply Ha.
  - intros k v c. rewrite lookup_insert_Some.
    intros [[_ <-]|[_ Hk]]; [|by eapply Hr]. simpl.
    destruct (CreateReviewSchema.comment b); simpl; intros [= <-].
    apply trim_idem.
  - intros k v c [_ Hk]%lookup_delete_Some. by eapply Hr.
Qed.

(** X23: In every reachable state the title and the description of a post,
    the message of an application and the comment of a review are stored
    trimmed. *)
Theorem stored_text_is_trimmed (w : World) :
  reachable w → text_trimmed w.
Proof.
  induction 1 as [us next|w r _ IH|w w' _ IH (Hp & Ha & Hr & _)].
  - split; [|split]; intros k x; simpl; by rewrite lookup_empty.
  - eapply transition_text_trimmed; [apply handle_transition | exact IH].
  - unfold text_trimmed. by rewrite Hp, Ha, Hr.
Qed.

Lemma stored_text_is_trimmed_witness :
  reachable world_reviewed ∧ text_trimmed world_reviewed.
Proof.
  split; [exact world_reviewed_reachable|].
  apply stored_text_is_trimmed. exact world_reviewed_reachable.
Defined.

(** ** Sessions *)

Lemma append_cons c (a b : string) : String c a +:+ b = String c (a +:+ b).
Proof. reflexivity. Qed.

Lemma append_nil_l (a : string) : "" +:+ a = a.
Proof. reflexivity. Qed.

Lemma append_assoc (a b c : string) : (a +:+ b) +:+ c = a +:+ (b +:+ c).
Proof.
  induction a as [|x a IH]; [done|]. rewrite !append_cons. by rewrite IH.
Qed.

Lemma append_nil_r (a : string) : a +:+ "" = a.
Proof. induction a as [|x a IH]; [done|]. by rewrite append_cons, IH. Qed.

Lemma length_append (a b : string) :
  String.length (a +:+ b) = (String.length a + String.length b)%nat.
Proof.
  induction a as [|x a IH]; [done|]. rewrite append_cons. simpl. by rewrite IH.
Qed.

Lemma prefix_split p s : String.prefix p s = true → ∃ rest, s = p +:+ rest.
Proof.
  revert s. induction p as [|c p IH]; intros s.
  - intros _. by exists s.
  - destruct s as [|c' s]; simpl; [done|].
    destruct (Ascii.ascii_dec c c') as [->|]; [|done].
    intros [rest ->]%IH. by exists rest.
Qed.

Lemma prefix_app p s : String.prefix p (p +:+ s) = true.
Proof.
  induction p as [|c p IH]; [by destruct s|]. rewrite append_cons. simpl.
  by destruct (Ascii.ascii_dec c c).
Qed.

Lemma prefix_other c p c' s :
  c ≠ c' → String.prefix (String c p) (String c' s) = false.
Proof. intros Hne. simpl. by destruct (Ascii.ascii_dec c c'). Qed.

Lemma split_from_skip sep cur x rest :
  split_from sep (String.length x) cur (x +:+ rest)
  = split_from sep 0 cur rest.
Proof.
  induction x as [|c x IH]; [done|]. rewrite append_cons. exact IH.
Qed.

Lemma split_from_cons sep cur s : ∃ x l, split_from sep 0 cur s = x :: l.
Proof.
  revert cur. induction s as [|c s IH]; intros cur; cbn [split_from].
  - by exists cur, [].
  - destruct (String.prefix sep (String c s)); [by eexists _, _ | apply IH].
Qed.

(** At an occurrence of the separator the piece read so far is emitted. *)
Lemma split_from_sep c sep cur rest :
  split_from (String c sep) 0 cur (String c sep +:+ rest)
  = cur :: split_from (String c sep) 0 "" rest.
Proof.
  pose proof (prefix_app (String c sep) rest) as Hp.
  rewrite append_cons in *. cbn [split_from]. rewrite Hp.
  cbn [String.length]. rewrite Nat.sub_succ, Nat.sub_0_r.
  by rewrite split_from_skip.
Qed.

(** A piece without the first character of the separator is read through. *)
Lemma split_from_piece c sep cur p rest :
  occurs c p = false →
  split_from (String c sep) 0 cur (p +:+ String c sep +:+ rest)
  = (cur +:+ p) :: split_from (String c sep) 0 "" rest.
Proof.
  revert cur. induction p as [|c' p IH]; intros cur Hp.
  - rewrite append_nil_l, append_nil_r. apply split_from_sep.
  - simpl in Hp. case_decide as Hc; [done|].
    rewrite append_cons. cbn [split_from]. rewrite prefix_other by done.
    rewrite IH by done. by rewrite append_assoc.
Qed.

Lemma split_from_last c sep cur p :
  occurs c p = false →
  split_from (String c sep) 0 cur p = [cur +:+ p].
Proof.
  revert cur. induction p as [|c' p IH]; intros cur Hp.
  - simpl. by rewrite append_nil_r.
  - simpl in Hp. case_decide as Hc; [done|].
    cbn [split_from]. rewrite prefix_other by done.
    rewrite IH by done. by rewrite append_assoc.
Qed.

Lemma concat_cons sep x y l :
  String.concat sep (x :: y :: l) = x +:+ sep +:+ String.concat sep (y :: l).
Proof. done. Qed.

Lemma split_from_concat sep cur s :
  sep ≠ "" → String.concat sep (split_from sep 0 cur s) = cur +:+ s.
Proof.
  intros Hsep. destruct sep as [|c sep]; [done|]. clear Hsep.
  remember (String.length s) as n eqn:Hn. revert cur s Hn.
  induction n as [n IH] using lt_wf_ind. intros cur s Hn.
  destruct s as [|c' s]; [simpl; by rewrite append_nil_r|].
  destruct (String.prefix (String c sep) (String c' s)) eqn:Hp.
  - destruct (prefix_split _ _ Hp) as [rest Hrest]. rewrite Hrest.
    rewrite split_from_sep.
    destruct (split_from_cons (String c sep) "" rest) as (x & l & Hx).
    rewrite Hx, concat_cons, <- Hx.
    rewrite (IH (String.length rest)) with (cur := ""); [done| |done].
    subst n. rewrite Hrest, length_append. simpl. lia.
  - cbn [split_from]. rewrite Hp.
    rewrite (IH (String.length s)); [|subst n; simpl; lia|done].
    by rewrite append_assoc.
Qed.

(** X24: Joining the pieces of a split with the separator gives back the
    string, for every non-empty separator: nothing of a header is lost
    between [split] and [join]. *)
Theorem join_split (sep s : string) :
  sep ≠ "" → String.concat sep (split sep s) = s.
Proof. intros Hsep. unfold split. by rewrite split_from_concat. Qed.

Lemma join_split_witness :
  String.concat "=" (split "=" "auth-token=abc==") = "auth-token=abc==".
Proof. apply join_split. discriminate. Defined.

Lemma occurs_append c (a b : string) :
  occurs c (a +:+ b) = occurs c a || occurs c b.
Proof.
  induction a as [|x a IH]; [done|]. rewrite append_cons. simpl.
  by case_decide.
Qed.

(** Pieces without the first character of the separator come back from a
    split of their join. *)
Lemma split_concat c sep (l : list string) :
  l ≠ [] → Forall (λ p, occurs c p = false) l →
  split (String c sep) (String.concat (String c sep) l) = l.
Proof.
  unfold split. induction l as [|x [|y l] IH]; [done|..]; intros _ Hl.
  - apply Forall_cons in Hl as [Hx _]. simpl.
    by rewrite split_from_last.
  - apply Forall_cons in Hl as [Hx Hl]. rewrite concat_cons.
    rewrite split_from_piece by done. rewrite append_nil_l.
    by rewrite IH.
Qed.

Lemma cookie_entry_pair (k v : string) :
  occurs "=" k = false → cookie_entry (k +:+ "=" +:+ v) = (k, v).
Proof.
  intros Hk. unfold cookie_entry, split.
  rewrite (split_from_piece "=" "" "" k v Hk), append_nil_l.
  by rewrite split_from_concat.
Qed.

Lemma fromEntries_app l1 l2 :
  fromEntries (l1 ++ l2)
  = foldl (λ m kv, <[kv.1 := kv.2]> m) (fromEntries l1) l2.
Proof. unfold fromEntries. by rewrite foldl_app. Qed.

Lemma foldl_insert_other (k : string) (l : list (string * string))
    (m : gmap string string) :
  Forall (λ kv, kv.1 ≠ k) l →
  foldl (λ m kv, <[kv.1 := kv.2]> m) m l !! k = m !! k.
Proof.
  revert m. induction l as [|[k' v'] l IH]; intros m Hl; [done|].
  apply Forall_cons in Hl as [Hk Hl]. simpl. rewrite IH by done.
  by rewrite lookup_insert_ne.
Qed.

(** The last cookie of a name is the one [fromEntries] keeps. *)
Lemma fromEntries_last before k v after :
  Forall (λ kv, kv.1 ≠ k) after →
  fromEntries (before ++ (k, v) :: after) !! k = Some v.
Proof.
  intros Hafter. rewrite fromEntries_app. simpl.
  rewrite foldl_insert_other by done. by rewrite lookup_insert_eq.
Qed.

Lemma fromEntries_none k l :
  Forall (λ kv, kv.1 ≠ k) l → fromEntries l !! k = None.
Proof. intros Hl. unfold fromEntries. by rewrite foldl_insert_other. Qed.

(** The header of well-formed cookies parses back to the cookies. *)
Lemma cookie_header_parsed (l : list (string * string)) :
  l ≠ [] → Forall cookie_ok l →
  cookie_header l ≠ ""
  ∧ cookie_entry <$> split "; " (cookie_header l) = l.
Proof.
  intros Hne Hok.
  assert (split "; " (cookie_header l)
          = (λ kv, kv.1 +:+ "=" +:+ kv.2) <$> l) as Hsplit.
  { unfold cookie_header. apply split_concat; [by destruct l|].
    apply Forall_fmap. eapply Forall_impl; [exact Hok|].
    intros [k v] (Hk & _ & Hv). simpl in *.
    by rewrite !occurs_append, Hk, Hv. }
  split.
  - intros Hempty. rewrite Hempty in Hsplit.
    destruct l as [|[k v] [|? ?]]; try done. simpl in Hsplit.
    injection Hsplit as Hs. apply (f_equal String.length) in Hs.
    rewrite !length_append in Hs. simpl in Hs. lia.
  - rewrite Hsplit, <- list_fmap_compose.
    rewrite <- (list_fmap_id l) at 2. apply Forall_fmap_ext.
    eapply Forall_impl; [exact Hok|].
    intros [k v] (_ & Hk & _). simpl in *. by apply cookie_entry_pair.
Qed.

(** X25: When the Cookie header carries well-formed cookies and the last
    [auth-token] cookie is not empty, the session is what [verifyToken]
    makes of that cookie, whatever the Authorization header says: a cookie
    token that does not verify is not rescued by a Bearer token. *)
Theorem getSession_reads_cookie
    (verifyToken : string → option TokenPayload.t)
    (before after : list (string * string)) (token : string)
    (auth : option string) :
  Forall cookie_ok before → Forall cookie_ok after →
  occurs ";" token = false → token ≠ "" →
  Forall (λ kv, kv.1 ≠ "auth-token") after →
  getSession verifyToken
    (mkHeaders
       (Some (cookie_header (before ++ ("auth-token", token) :: after)))
       auth)
  = verifyToken token.
Proof.
  intros Hb Ha Ht Hne Hlast.
  destruct (cookie_header_parsed (before ++ ("auth-token", token) :: after))
    as [Hh Hp].
  { by destruct before. }
  { apply Forall_app. split; [done|]. by apply Forall_cons. }
  unfold getSession. simpl. rewrite decide_False by done.
  rewrite Hp, fromEntries_last by done. by rewrite decide_False.
Qed.

Lemma getSession_reads_cookie_witness :
  getSession sample_verifyToken
    (mkHeaders
       (Some (cookie_header
                ([("theme", "dark")]
                 ++ ("auth-token", "header.payload.signature") :: [])))
       (Some "Bearer forged"))
  = sample_verifyToken "header.payload.signature".
Proof.
  apply (getSession_reads_cookie sample_verifyToken [("theme", "dark")] []
           "header.payload.signature" (Some "Bearer forged")).
  - repeat constructor.
  - constructor.
  - reflexivity.
  - discriminate.
  - constructor.
Defined.

(** X26: Without an [auth-token] cookie the session is what [verifyToken]
    makes of the Bearer token of the Authorization header; without that
    header, or when it does not start with [Bearer ], there is no session. *)
Theorem getSession_bearer (verifyToken : string → option TokenPayload.t)
    (cookies : list (string * string)) (token : string)
    (auth : option string) :
  Forall cookie_ok cookies →
  Forall (λ kv, kv.1 ≠ "auth-token") cookies →
  occurs " " token = false →
  let session auth :=
    getSession verifyToken (mkHeaders (Some (cookie_header cookies)) auth) in
  session (Some ("Bearer " +:+ token)) = verifyToken token
  ∧ getSession verifyToken (mkHeaders None (Some ("Bearer " +:+ token)))
    = verifyToken token
  ∧ session None = None
  ∧ (∀ h, String.prefix "Bearer " h = false → session (Some h) = None).
Proof.
  intros Hok Hnone Htoken session.
  assert (∀ auth, session auth
                  = bearer_session verifyToken
                      (mkHeaders (Some (cookie_header cookies)) auth))
    as Hfall.
  { intros a. unfold session, getSession. simpl.
    case_decide as Hh; [done|].
    destruct (cookie_header_parsed cookies) as [_ Hp]; [|done|].
    - intros ->. by destruct Hh.
    - by rewrite Hp, fromEntries_none. }
  assert (split " " ("Bearer " +:+ token) !! 1%nat = Some token) as Hsplit.
  { unfold split.
    change ("Bearer " +:+ token) with ("Bearer" +:+ " " +:+ token).
    rewrite (split_from_piece " " "" "" "Bearer" token eq_refl).
    rewrite append_nil_l. by rewrite split_from_last. }
  assert (String.prefix "Bearer " ("Bearer " +:+ token) = true) as Hpre
    by apply prefix_app.
  repeat split.
  - rewrite Hfall. unfold bearer_session. simpl Authorization.
    cbv beta iota. by rewrite Hpre, Hsplit.
  - unfold getSession, bearer_session. simpl cookie. simpl Authorization.
    cbv beta iota. by rewrite Hpre, Hsplit.
  - by rewrite Hfall.
  - intros h Hh. rewrite Hfall. unfold bearer_session. simpl Authorization.
    cbv beta iota. by rewrite Hh.
Qed.

Lemma getSession_bearer_witness :
  getSession sample_verifyToken
    (mkHeaders (Some (cookie_header [("theme", "dark")]))
       (Some ("Bearer " +:+ "header.payload.signature")))
  = sample_verifyToken "header.payload.signature".
Proof.
  destruct (getSession_bearer sample_verifyToken [("theme", "dark")]
              "header.payload.signature" None) as [H _].
  - repeat constructor.
  - repeat constructor. discriminate.
  - reflexivity.
  - exact H.
Defined.

(** ** The middleware *)

